(** * A shallow embedding of [parser.py]

    The recursive-descent / precedence-climbing parser of the repository,
    embedded as state-passing functions over the [Parser] object, together
    with the properties of its grouping, error and termination behaviour. *)

From Stdlib Require Import ZArith List String Ascii Bool Lia.
Import ListNotations.

Set Implicit Arguments.

(** ** Tokens *)

(** Modelled from the spec: [TokenType] of [token_types.py], which is not
    among the sources; the sixteen kinds of the specification's data model,
    each of which [parser.py] refers to. *)
Inductive TokenType : Set :=
| INTEGER | FLOAT | IDENTIFIER
| PLUS | MINUS | MULTIPLY | DIVIDE | POWER
| LPAREN | RPAREN | COMMA
| SIN | COS | TAN | LOG
| EOF.

Definition TokenType_eqb (a b : TokenType) : bool :=
  match a, b with
  | INTEGER, INTEGER | FLOAT, FLOAT | IDENTIFIER, IDENTIFIER
  | PLUS, PLUS | MINUS, MINUS | MULTIPLY, MULTIPLY | DIVIDE, DIVIDE
  | POWER, POWER | LPAREN, LPAREN | RPAREN, RPAREN | COMMA, COMMA
  | SIN, SIN | COS, COS | TAN, TAN | LOG, LOG | EOF, EOF => true
  | _, _ => false
  end.

(** Modelled from the spec: the token record of [lexer.py], which is not
    among the sources; the three attributes [parser.py] reads,
    [token.type], [token.value] and [token.position]. *)
Record Token : Set := mkToken {
  type : TokenType;
  value : string;
  position : Z
}.

(** ** Python's [int(str)] and [float(str)] on ASCII text *)

Definition is_digit (c : ascii) : bool :=
  let n := nat_of_ascii c in (48 <=? n) && (n <=? 57).

Definition digit_value (c : ascii) : option Z :=
  if is_digit c then Some (Z.of_nat (nat_of_ascii c) - 48)%Z else None.

(** The characters [int()] and [float()] skip around the number of an
    ASCII string: tab to carriage return, and the space. *)
Definition is_py_space (c : ascii) : bool :=
  let n := nat_of_ascii c in
  ((9 <=? n) && (n <=? 13)) || (n =? 32).

Fixpoint drop_spaces (cs : list ascii) : list ascii :=
  match cs with
  | c :: cs' => if is_py_space c then drop_spaces cs' else cs
  | [] => []
  end.

Definition py_strip (cs : list ascii) : list ascii :=
  rev (drop_spaces (rev (drop_spaces cs))).

(** Decimal digits with single underscores between them, up to the end of
    the text. *)
Fixpoint py_digits (acc : Z) (after_digit : bool) (cs : list ascii) : option Z :=
  match cs with
  | [] => if after_digit then Some acc else None
  | c :: cs' =>
      match digit_value c with
      | Some d => py_digits (10 * acc + d)%Z true cs'
      | None =>
          if Ascii.eqb c "_" && after_digit then py_digits acc false cs' else None
      end
  end.

(** An optional sign and the digits. *)
Definition signed_digits (cs : list ascii) : option Z :=
  match cs with
  | "+"%char :: r => py_digits 0 false r
  | "-"%char :: r => option_map Z.opp (py_digits 0 false r)
  | _ => py_digits 0 false cs
  end.

(** [sys.int_info.default_max_str_digits]: [int()] refuses a decimal text
    with more digits (the sign and the underscores are not counted). *)
Definition int_max_str_digits : nat := 4300.

(** [int(s)] in base 10; [None] stands for the [ValueError] Python raises,
    on a text that is no integer literal and on one with more than
    [int_max_str_digits] digits. *)
Definition py_int (s : string) : option Z :=
  let cs := py_strip (list_ascii_of_string s) in
  if List.length (filter is_digit cs) <=? int_max_str_digits
  then signed_digits cs
  else None.

(** The rest of [cs] after a maximal [(["_"] digit)*]. *)
Fixpoint skip_digit_tail (cs : list ascii) : list ascii :=
  match cs with
  | c :: cs' =>
      if is_digit c then skip_digit_tail cs'
      else if Ascii.eqb c "_" then
        match cs' with
        | d :: cs'' => if is_digit d then skip_digit_tail cs'' else cs
        | [] => cs
        end
      else cs
  | [] => []
  end.

Definition digitpart (cs : list ascii) : option (list ascii) :=
  match cs with
  | c :: cs' => if is_digit c then Some (skip_digit_tail cs') else None
  | [] => None
  end.

Definition float_number (cs : list ascii) : option (list ascii) :=
  match digitpart cs with
  | Some ("."%char :: r) =>
      match digitpart r with
      | Some r' => Some r'
      | None => Some r
      end
  | Some r => Some r
  | None =>
      match cs with
      | "."%char :: r => digitpart r
      | _ => None
      end
  end.

Definition skip_sign (cs : list ascii) : list ascii :=
  match cs with
  | "+"%char :: r => r
  | "-"%char :: r => r
  | _ => cs
  end.

Definition float_exponent (cs : list ascii) : bool :=
  match cs with
  | [] => true
  | e :: r =>
      if Ascii.eqb e "e" || Ascii.eqb e "E" then
        match digitpart (skip_sign r) with
        | Some [] => true
        | _ => false
        end
      else false
  end.

Definition ascii_lower (c : ascii) : ascii :=
  let n := nat_of_ascii c in
  if (65 <=? n) && (n <=? 90) then ascii_of_nat (n + 32) else c.

Definition is_float_literal (s : string) : bool :=
  let cs := skip_sign (py_strip (list_ascii_of_string s)) in
  let word := string_of_list_ascii (map ascii_lower cs) in
  if String.eqb word "inf" || String.eqb word "infinity" || String.eqb word "nan"
  then true
  else match float_number cs with
       | Some r => float_exponent r
       | None => false
       end.

(** The value of a [NumberNode]: a Python [int], or the [float] that
    [float()] reads from a literal.  The binary64 rounding of the literal
    is kept abstract: a float is named by the literal it was read from, so
    equal literals give equal floats (and nothing is said about
    different literals). *)
Inductive PyNumber : Set :=
| PyInt (z : Z)
| PyFloat (literal : string).

(** [float(s)]; [None] stands for the [ValueError]. *)
Definition py_float (s : string) : option PyNumber :=
  if is_float_literal s then Some (PyFloat s) else None.

(** ** AST nodes *)

(** Modelled from the spec: the node classes of [ast_nodes.py], which is not
    among the sources; one constructor per class, with the arguments
    [parser.py] passes and the fields of the specification's data model. *)
#[warnings="-register-all"]
Inductive Node : Set :=
| NumberNode (value : PyNumber)
| IdentifierNode (name : string)
| UnaryOpNode (operator : string) (operand : Node)
| BinaryOpNode (left : Node) (operator : string) (right : Node)
| FunctionCallNode (name : string) (arguments : list Node)
| ProgramNode (expression : Node).

(** ** Exceptions *)

(** The three messages [parser.py] builds for a [SyntaxError]. *)
Inductive SyntaxMessage : Set :=
| UnexpectedToken (token : Token)
| ExpectedLParenAfterFunctionName
| ExpectedRParen.

Inductive Exception : Set :=
| SyntaxError (message : SyntaxMessage) (position : Z)
| LexicalError (char : ascii) (position : Z)
| ValueError (message : string)
| AttributeError.

(** ** The tokenizer *)

(** Modelled from the spec: the letters of an identifier ([lexer.py] is not
    among the sources). *)
Definition is_letter (c : ascii) : bool :=
  let n := nat_of_ascii c in
  ((65 <=? n) && (n <=? 90)) || ((97 <=? n) && (n <=? 122)).

(** Modelled from the spec: an identifier starts with a letter or an
    underscore. *)
Definition is_identifier_start (c : ascii) : bool :=
  is_letter c || Ascii.eqb c "_".

(** Modelled from the spec: and goes on with letters, digits and
    underscores. *)
Definition is_identifier_part (c : ascii) : bool :=
  is_identifier_start c || is_digit c.

(** Modelled from the spec: the white space the tokenizer skips. *)
Definition is_lexer_space (c : ascii) : bool :=
  let n := nat_of_ascii c in (n =? 32) || ((9 <=? n) && (n <=? 13)).

(** Modelled from the spec: the single-character tokens. *)
Definition single_character_token (c : ascii) : option TokenType :=
  if Ascii.eqb c "+" then Some PLUS
  else if Ascii.eqb c "-" then Some MINUS
  else if Ascii.eqb c "*" then Some MULTIPLY
  else if Ascii.eqb c "/" then Some DIVIDE
  else if Ascii.eqb c "^" then Some POWER
  else if Ascii.eqb c "(" then Some LPAREN
  else if Ascii.eqb c ")" then Some RPAREN
  else if Ascii.eqb c "," then Some COMMA
  else None.

(** Modelled from the spec: the reserved spellings, matched exactly. *)
Definition identifier_type (lexeme : string) : TokenType :=
  if String.eqb lexeme "sin" then SIN
  else if String.eqb lexeme "cos" then COS
  else if String.eqb lexeme "tan" then TAN
  else if String.eqb lexeme "log" then LOG
  else IDENTIFIER.

(** Modelled from the spec: what the scanner is in the middle of. *)
Inductive LexerState : Set :=
| Between
| InInteger (start : Z) (lexeme : string)
| InFloat (start : Z) (lexeme : string)
| InIdentifier (start : Z) (lexeme : string).

(** Modelled from the spec: one more character of a run. *)
Definition snoc (lexeme : string) (c : ascii) : string :=
  (lexeme ++ String c "")%string.

(** Modelled from the spec: the token a finished run becomes. *)
Definition flush (st : LexerState) : list Token :=
  match st with
  | Between => []
  | InInteger start lexeme => [mkToken INTEGER lexeme start]
  | InFloat start lexeme => [mkToken FLOAT lexeme start]
  | InIdentifier start lexeme => [mkToken (identifier_type lexeme) lexeme start]
  end.

(** Modelled from the spec: a character that prolongs the current run
    (maximal runs). *)
Definition extend (st : LexerState) (c : ascii) : option LexerState :=
  match st with
  | Between => None
  | InInteger start lexeme =>
      if is_digit c then Some (InInteger start (snoc lexeme c))
      else if Ascii.eqb c "." then Some (InFloat start (snoc lexeme c))
      else None
  | InFloat start lexeme =>
      if is_digit c then Some (InFloat start (snoc lexeme c)) else None
  | InIdentifier start lexeme =>
      if is_identifier_part c then Some (InIdentifier start (snoc lexeme c))
      else None
  end.

(** Modelled from the spec: a character met between two runs is skipped, a
    token of its own, the start of a run, or a lexical error. *)
Definition begin (c : ascii) (pos : Z) : Exception + (list Token * LexerState) :=
  if is_lexer_space c then inr ([], Between)
  else if is_digit c then inr ([], InInteger pos (String c ""))
  else if is_identifier_start c then inr ([], InIdentifier pos (String c ""))
  else match single_character_token c with
       | Some ty => inr ([mkToken ty (String c "") pos], Between)
       | None => inl (LexicalError c pos)
       end.

(** Modelled from the spec: the left-to-right scan, which stops at the
    first lexical error and ends the sequence with one [EOF]. *)
Fixpoint scan (st : LexerState) (pos : Z) (cs : list ascii)
  : Exception + list Token :=
  match cs with
  | [] => inr (flush st ++ [mkToken EOF "" pos])
  | c :: rest =>
      match extend st c with
      | Some st' => scan st' (pos + 1)%Z rest
      | None =>
          match begin c pos with
          | inl e => inl e
          | inr (emitted, st') =>
              match scan st' (pos + 1)%Z rest with
              | inl e => inl e
              | inr ts => inr (flush st ++ emitted ++ ts)
              end
          end
      end
  end.

(** Modelled from the spec: [lexer.py] ([Lexer(text).get_tokens()]) is not
    among the sources.  This follows the tokenizer contract of the
    specification: white space is skipped; a maximal run of digits is an
    [INTEGER], one with a decimal point a [FLOAT]; a maximal identifier run
    is an [IDENTIFIER] unless it is exactly [sin], [cos], [tan] or [log];
    [+ - * / ^ ( ) ,] are tokens of their own; any other character is a
    [LexicalError] with the character and its offset; the sequence ends with
    one [EOF].  A token's value is its text and its position the zero-based
    offset of its first character; the [EOF] token is given the empty text
    and the offset of the end of the input, and a number starts with a
    digit. *)
Definition get_tokens (text : string) : Exception + list Token :=
  scan Between 0%Z (list_ascii_of_string text).

(** ** The parser object *)

Record Parser : Set := mkParser {
  tokens : list Token;
  current_token_index : nat;
  current_token : option Token
}.

(** [Parser.__init__(text=None, tokens=None)] (parser.py, lines 16-26). *)
Definition Parser_init (text : option string) (toks : option (list Token))
  : Exception + Parser :=
  match text, toks with
  | Some text, _ =>
      match get_tokens text with
      | inl e => inl e
      | inr ts => inr (mkParser ts 0 (nth_error ts 0))
      end
  | None, Some ts => inr (mkParser ts 0 (nth_error ts 0))
  | None, None => inl (ValueError "Either text or tokens must be provided")
  end.

(** [self.precedence] (lines 29-35): a dictionary with five keys. *)
Definition precedence (ty : TokenType) : option Z :=
  match ty with
  | PLUS => Some 1%Z
  | MINUS => Some 1%Z
  | MULTIPLY => Some 2%Z
  | DIVIDE => Some 2%Z
  | POWER => Some 3%Z
  | _ => None
  end.

(** [get_precedence] (lines 222-233): [self.precedence.get(token_type, 0)]. *)
Definition get_precedence (ty : TokenType) : Z :=
  match precedence ty with
  | Some p => p
  | None => 0%Z
  end.

(** ** Running a method: the result, and the parser object it leaves *)

Inductive Outcome (A : Type) : Type :=
| Ok (a : A) (self : Parser)
| Raise (e : Exception) (self : Parser)
| OutOfFuel.

Arguments Raise {A} e self.
Arguments OutOfFuel {A}.

Definition M (A : Type) : Type := Parser -> Outcome A.

Definition ret {A} (a : A) : M A := fun self => Ok a self.

Definition raise {A} (e : Exception) : M A := fun self => Raise e self.

Definition bind {A B} (m : M A) (k : A -> M B) : M B :=
  fun self =>
    match m self with
    | Ok a self' => k a self'
    | Raise e self' => Raise e self'
    | OutOfFuel => OutOfFuel
    end.

Notation "x <- m ;; k" := (bind m (fun x => k))
  (at level 61, m at next level, right associativity).
Notation "m ;;; k" := (bind m (fun _ => k))
  (at level 61, right associativity).

(** The parser after [advance]: the index is one more, and the current
    token is the token there, or [None] past the end. *)
Definition advanced (self : Parser) : Parser :=
  let i := S (current_token_index self) in
  mkParser (tokens self) i (nth_error (tokens self) i).

(** [advance] (lines 235-243). *)
Definition advance : M unit := fun self => Ok tt (advanced self).

(** Reading an attribute of [self.current_token]: an [AttributeError] when
    it is [None]. *)
Definition attr_current_token : M Token :=
  fun self =>
    match current_token self with
    | Some token => Ok token self
    | None => Raise AttributeError self
    end.

(** [float(token.value) if token.type == TokenType.FLOAT else
    int(token.value)] (line 135). *)
Definition number_value (token : Token) : option PyNumber :=
  if TokenType_eqb (type token) FLOAT then py_float (value token)
  else option_map PyInt (py_int (value token)).

Definition is_function_name (ty : TokenType) : bool :=
  match ty with
  | SIN | COS | TAN | LOG => true
  | _ => false
  end.

(** [parse_expression] (lines 73-80), [parse_binary_expression] (82-115),
    [parse_primary] (117-161), [_parse_function_call] (163-200) and
    [_parse_parenthesized_expression] (202-220).  The methods call each
    other; [fuel] bounds the depth of the calls and the turns of the two
    [while] loops, and [OutOfFuel] is no outcome of the program: [parse]
    is run with an amount that is never used up ([parse_terminates]), and
    a larger amount changes no outcome ([one_more_fuel]). *)
Fixpoint parse_expression (fuel : nat) : M Node :=
  match fuel with
  | O => fun _ => OutOfFuel
  | S fuel => parse_binary_expression fuel 0%Z
  end

with parse_binary_expression (fuel : nat) (min_precedence : Z) : M Node :=
  match fuel with
  | O => fun _ => OutOfFuel
  | S fuel =>
      left <- parse_primary fuel ;;
      binary_expression_while fuel min_precedence left
  end

(** The [while] loop of [parse_binary_expression]. *)
with binary_expression_while (fuel : nat) (min_precedence : Z) (left : Node)
  : M Node :=
  match fuel with
  | O => fun _ => OutOfFuel
  | S fuel =>
      operator_token <- attr_current_token ;;
      match precedence (type operator_token) with
      | Some operator_precedence =>
          if (min_precedence <=? operator_precedence)%Z then
            advance ;;;
            let next_min_precedence :=
              if TokenType_eqb (type operator_token) POWER
              then (operator_precedence - 1)%Z
              else (operator_precedence + 1)%Z in
            right <- parse_binary_expression fuel next_min_precedence ;;
            binary_expression_while fuel min_precedence
              (BinaryOpNode left (value operator_token) right)
          else ret left
      | None => ret left
      end
  end

with parse_primary (fuel : nat) : M Node :=
  match fuel with
  | O => fun _ => OutOfFuel
  | S fuel =>
      token <- attr_current_token ;;
      match type token with
      | INTEGER | FLOAT =>
          advance ;;;
          match number_value token with
          | Some v => ret (NumberNode v)
          | None => raise (ValueError (value token))
          end
      | IDENTIFIER =>
          advance ;;;
          ret (IdentifierNode (value token))
      | SIN | COS | TAN | LOG => _parse_function_call fuel token
      | LPAREN => _parse_parenthesized_expression fuel
      | MINUS =>
          advance ;;;
          operand <- parse_primary fuel ;;
          ret (UnaryOpNode "-" operand)
      | PLUS =>
          advance ;;;
          parse_primary fuel
      | _ => raise (SyntaxError (UnexpectedToken token) (position token))
      end
  end

with _parse_function_call (fuel : nat) (function_token : Token) : M Node :=
  match fuel with
  | O => fun _ => OutOfFuel
  | S fuel =>
      let function_name := value function_token in
      advance ;;;
      t <- attr_current_token ;;
      if negb (TokenType_eqb (type t) LPAREN) then
        raise (SyntaxError ExpectedLParenAfterFunctionName (position t))
      else
        advance ;;;
        t <- attr_current_token ;;
        arguments <-
          (if negb (TokenType_eqb (type t) RPAREN) then
             argument <- parse_expression fuel ;;
             arguments_while fuel [argument]
           else ret []) ;;
        t <- attr_current_token ;;
        if negb (TokenType_eqb (type t) RPAREN) then
          raise (SyntaxError ExpectedRParen (position t))
        else
          advance ;;;
          ret (FunctionCallNode function_name arguments)
  end

(** The [while] loop of [_parse_function_call]; [arguments.append]. *)
with arguments_while (fuel : nat) (arguments : list Node) : M (list Node) :=
  match fuel with
  | O => fun _ => OutOfFuel
  | S fuel =>
      t <- attr_current_token ;;
      if TokenType_eqb (type t) COMMA then
        advance ;;;
        argument <- parse_expression fuel ;;
        arguments_while fuel (arguments ++ [argument])
      else ret arguments
  end

with _parse_parenthesized_expression (fuel : nat) : M Node :=
  match fuel with
  | O => fun _ => OutOfFuel
  | S fuel =>
      advance ;;;
      expression <- parse_expression fuel ;;
      t <- attr_current_token ;;
      if negb (TokenType_eqb (type t) RPAREN) then
        raise (SyntaxError ExpectedRParen (position t))
      else
        advance ;;;
        ret expression
  end.

(** [parse_program] (lines 61-71). *)
Definition parse_program (fuel : nat) : M Node :=
  expression <- parse_expression fuel ;;
  ret (ProgramNode expression).

(** The arguments of a call, read once [(] is passed: none before a [)],
    else a first expression and those of the [while] loop ([t] is the
    current token). *)
Definition call_arguments (fuel : nat) (t : Token) : M (list Node) :=
  if negb (TokenType_eqb (type t) RPAREN) then
    argument <- parse_expression fuel ;;
    arguments_while fuel [argument]
  else ret [].

(** Enough fuel for any run over the parser's tokens (see
    [parse_program_terminates]). *)
Definition enough_fuel (self : Parser) : nat :=
  8 + 4 * List.length (tokens self).

(** [parse] (lines 37-59): [None] for an empty token list, else the program
    node, once the current token is [EOF]. *)
Definition parse : M (option Node) :=
  fun self =>
    match tokens self with
    | [] => Ok None self
    | _ :: _ =>
        (ast <- parse_program (enough_fuel self) ;;
         t <- attr_current_token ;;
         if negb (TokenType_eqb (type t) EOF) then
           raise (SyntaxError (UnexpectedToken t) (position t))
         else ret (Some ast)) self
    end.

(** What the caller of a method sees. *)
Inductive Result (A : Type) : Type :=
| Returns (a : A)
| Raises (e : Exception)
| Diverges.

Arguments Raises {A} e.
Arguments Diverges {A}.

Definition result {A} (o : Outcome A) : Result A :=
  match o with
  | Ok a _ => Returns a
  | Raise e _ => Raises e
  | OutOfFuel => Diverges
  end.

(** [Parser(tokens=toks).parse()]. *)
Definition parse_tokens (toks : list Token) : Result (option Node) :=
  match Parser_init None (Some toks) with
  | inl e => Raises e
  | inr parser => result (parse parser)
  end.

(** [parse_text] (lines 246-257). *)
Definition parse_text (text : string) : Result (option Node) :=
  match Parser_init (Some text) None with
  | inl e => Raises e
  | inr parser => result (parse parser)
  end.

(** ** Counting the nodes of a tree *)

(** [NumberNode] and [IdentifierNode] nodes. *)
Fixpoint leaf_count (n : Node) : nat :=
  match n with
  | NumberNode _ => 1
  | IdentifierNode _ => 1
  | UnaryOpNode _ operand => leaf_count operand
  | BinaryOpNode l _ r => leaf_count l + leaf_count r
  | FunctionCallNode _ arguments =>
      (fix sum (ns : list Node) : nat :=
         match ns with
         | [] => 0
         | a :: ns' => leaf_count a + sum ns'
         end) arguments
  | ProgramNode expression => leaf_count expression
  end.

(** [ProgramNode], [BinaryOpNode], [UnaryOpNode] and [FunctionCallNode]
    nodes. *)
Fixpoint internal_count (n : Node) : nat :=
  match n with
  | NumberNode _ => 0
  | IdentifierNode _ => 0
  | UnaryOpNode _ operand => 1 + internal_count operand
  | BinaryOpNode l _ r => 1 + internal_count l + internal_count r
  | FunctionCallNode _ arguments =>
      1 + (fix sum (ns : list Node) : nat :=
             match ns with
             | [] => 0
             | a :: ns' => internal_count a + sum ns'
             end) arguments
  | ProgramNode expression => 1 + internal_count expression
  end.

Definition leaf_count_list (ns : list Node) : nat :=
  fold_right (fun a k => leaf_count a + k) 0 ns.

Definition internal_count_list (ns : list Node) : nat :=
  fold_right (fun a k => internal_count a + k) 0 ns.

(** [NUMBER] ([INTEGER] or [FLOAT]) and [IDENTIFIER] tokens. *)
Definition is_leaf_token (t : Token) : bool :=
  match type t with
  | INTEGER | FLOAT | IDENTIFIER => true
  | _ => false
  end.

Definition leaf_tokens (ts : list Token) : nat :=
  List.length (filter is_leaf_token ts).

(** ** Well-formed token sequences and parser states *)

(** The last token is [EOF] and no other token is. *)
Fixpoint ends_with_only_EOF (ts : list Token) : bool :=
  match ts with
  | [] => false
  | [t] => TokenType_eqb (type t) EOF
  | t :: ts' => negb (TokenType_eqb (type t) EOF) && ends_with_only_EOF ts'
  end.

(** [current_token] is the token at [current_token_index], or [None] past
    the end: what [__init__] sets up and [advance] keeps. *)
Definition consistent (self : Parser) : Prop :=
  current_token self = nth_error (tokens self) (current_token_index self).

(** Tokens not yet passed. *)
Definition remaining (self : Parser) : nat :=
  List.length (tokens self) - current_token_index self.

(** ** A program logic for methods *)

(** [post d m self Q E]: run from [self], [m] returns a value and a parser
    in [Q], or raises an exception with a parser in [E]; [d] is what is
    known when the fuel runs out. *)
Definition post {A} (d : Prop) (m : M A) (self : Parser)
    (Q : A -> Parser -> Prop) (E : Exception -> Parser -> Prop) : Prop :=
  match m self with
  | Ok a s => Q a s
  | Raise e s => E e s
  | OutOfFuel => d
  end.

(** ** Predicates on runs *)

(** What a call leaves of the parser it started from: the same tokens, a
    cursor that did not move back ([strict]: that moved on). *)
Definition moved (strict : bool) (self : Parser) (s : Parser) : Prop :=
  consistent s /\ tokens s = tokens self /\
  (if strict then current_token_index self < current_token_index s
   else current_token_index self <= current_token_index s).

Definition terminates_moving {A} (strict : bool) (m : M A) (self : Parser) : Prop :=
  post False m self (fun _ s => moved strict self s) (fun _ _ => True).

(** A parser whose tokens end with their only [EOF] and whose cursor is on
    one of them. *)
Definition on_token (self : Parser) : Prop :=
  ends_with_only_EOF (tokens self) = true /\
  consistent self /\
  current_token_index self < List.length (tokens self).

(** The exceptions of a run that started on a token: a [SyntaxError] with
    the position of the current token, or the [ValueError] of a numeric
    token whose text [int()] or [float()] rejects. *)
Definition parser_error (e : Exception) (s : Parser) : Prop :=
  (exists m t, current_token s = Some t /\ e = SyntaxError m (position t)) \/
  (exists t, In t (tokens s) /\ (type t = INTEGER \/ type t = FLOAT) /\
             number_value t = None /\ e = ValueError (value t)).

Definition kept (self s : Parser) : Prop :=
  on_token s /\ tokens s = tokens self.

Definition kept_error (self : Parser) (e : Exception) (s : Parser) : Prop :=
  kept self s /\ parser_error e s.

Definition stays_on_token {A} (m : M A) (self : Parser) : Prop :=
  post True m self (fun _ s => kept self s) (kept_error self).

(** Leaf tokens the cursor has passed. *)
Definition consumed_leaves (self : Parser) : nat :=
  leaf_tokens (firstn (current_token_index self) (tokens self)).

(** A call that went from [self] to [s] and turned the tree(s) counted
    [leaves0], [inner0] into the ones counted [leaves], [inner]: each leaf
    token passed is one more leaf, and at most one inner node is added per
    token passed ([strict]: at least one token more). *)
Definition counted (strict : bool) (self : Parser) (leaves0 inner0 leaves inner : nat)
    (s : Parser) : Prop :=
  consistent s /\ tokens s = tokens self /\
  consumed_leaves s + leaves0 = consumed_leaves self + leaves /\
  if strict
  then current_token_index self + inner < current_token_index s + inner0
  else current_token_index self + inner <= current_token_index s + inner0.

Definition counts_node (m : M Node) (self : Parser) : Prop :=
  post True m self
    (fun a s => counted true self 0 0 (leaf_count a) (internal_count a) s)
    (fun _ _ => True).

Definition initial (toks : list Token) : Parser :=
  mkParser toks 0 (nth_error toks 0).

(** The node a leaf token stands for. *)
Definition leaf_node (t : Token) : option Node :=
  match type t with
  | INTEGER | FLOAT => option_map NumberNode (number_value t)
  | IDENTIFIER => Some (IdentifierNode (value t))
  | _ => None
  end.

(** The parser over [toks] with its cursor at [i]. *)
Definition at_index (toks : list Token) (i : nat) : Parser :=
  mkParser toks i (nth_error toks i).

(** [o'] is [o] unless [o] ran out of fuel. *)
Definition settles {A} (o o' : Outcome A) : Prop :=
  o <> OutOfFuel -> o' = o.

Definition not_EOF_token (t : Token) : Prop := type t <> EOF.

(** ** The grammar of the specification *)

(** [primary], [expression] and the argument list of a call, as sets of
    token sequences; a [NUMBER] is an [INTEGER] or [FLOAT] token whose text
    [int()] or [float()] reads. *)
Inductive is_primary : list Token -> Prop :=
| primary_leaf t n :
    leaf_node t = Some n -> is_primary [t]
| primary_call f lp args rp :
    is_function_name (type f) = true -> type lp = LPAREN ->
    is_arguments args -> type rp = RPAREN ->
    is_primary (f :: lp :: args ++ [rp])
| primary_group lp e rp :
    type lp = LPAREN -> is_expression e -> type rp = RPAREN ->
    is_primary (lp :: e ++ [rp])
| primary_minus sign p :
    type sign = MINUS -> is_primary p -> is_primary (sign :: p)
| primary_plus sign p :
    type sign = PLUS -> is_primary p -> is_primary (sign :: p)

with is_expression : list Token -> Prop :=
| expression_primary p :
    is_primary p -> is_expression p
| expression_binary p op prec e :
    is_primary p -> precedence (type op) = Some prec -> is_expression e ->
    is_expression (p ++ op :: e)

with is_arguments : list Token -> Prop :=
| arguments_none : is_arguments []
| arguments_some e more :
    is_expression e -> is_more_arguments more -> is_arguments (e ++ more)

with is_more_arguments : list Token -> Prop :=
| more_arguments_none : is_more_arguments []
| more_arguments_comma c e more :
    type c = COMMA -> is_expression e -> is_more_arguments more ->
    is_more_arguments (c :: e ++ more).

(** [program ::= expression EOF]. *)
Definition is_program (toks : list Token) : Prop :=
  exists e eof, toks = e ++ [eof] /\ is_expression e /\ type eof = EOF.

(** [run] returns [a] from the cursor [i] over [T] and leaves the cursor at
    [j], whenever the fuel is large enough. *)
Definition returns_at {A} (run : nat -> M A) (T : list Token) (i : nat) (a : A)
    (j : nat) : Prop :=
  exists fuel0, forall fuel, fuel0 <= fuel ->
    run fuel (at_index T i) = Ok a (at_index T j).

(** What may follow an expression: a token that is no binary operator. *)
Definition follows (rest : list Token) : Prop :=
  exists t rest', rest = t :: rest' /\ precedence (type t) = None.

(** Where a call with minimum precedence [m] stops in a chain: at its end,
    or before an operator of precedence below [m]. *)
Definition stops (m : Z) (s : list Token) : Prop :=
  s = [] \/
  exists op prec e,
    s = op :: e /\ precedence (type op) = Some prec /\ (prec < m)%Z /\
    is_expression e.

(** The tree of a primary, of an expression and of the arguments after the
    first: what the method returns when the sequence starts at the cursor,
    whatever surrounds it, leaving the cursor behind the sequence. *)
Definition primary_node (w : list Token) (node : Node) : Prop :=
  forall T i rest, skipn i T = w ++ rest ->
    returns_at parse_primary T i node (i + List.length w).

Definition expression_node (w : list Token) (node : Node) : Prop :=
  forall T i rest, skipn i T = w ++ rest -> follows rest ->
    returns_at parse_expression T i node (i + List.length w).

Definition more_nodes (w : list Token) (nodes : list Node) : Prop :=
  forall acc T i rp rest, skipn i T = w ++ rp :: rest -> type rp = RPAREN ->
    returns_at (fun fuel => arguments_while fuel acc) T i (acc ++ nodes)
      (i + List.length w).

(** [parse_binary_expression] with minimum precedence [m], and its loop
    with [left] in hand, over [w]: they read the part [w1] of it. *)
Definition binary_node (m : Z) (w w1 : list Token) (node : Node) : Prop :=
  forall T i rest, skipn i T = w ++ rest -> follows rest ->
    returns_at (fun fuel => parse_binary_expression fuel m) T i node
      (i + List.length w1).

Definition while_node (m : Z) (left : Node) (w w1 : list Token) (node : Node)
  : Prop :=
  forall T i rest, skipn i T = w ++ rest -> follows rest ->
    returns_at (fun fuel => binary_expression_while fuel m left) T i node
      (i + List.length w1).

Definition primary_accepted (w : list Token) : Prop :=
  exists node, primary_node w node.

Definition binary_accepted (w : list Token) : Prop :=
  forall m, exists node w1 s, w = w1 ++ s /\ stops m s /\ binary_node m w w1 node.

Definition while_accepted (w : list Token) : Prop :=
  forall m left,
    exists node w1 s, w = w1 ++ s /\ stops m s /\ while_node m left w w1 node.

Definition more_accepted (w : list Token) : Prop :=
  exists nodes, more_nodes w nodes.

(** An operator and the expression after it, or nothing: what is left of a
    chain where a call stopped. *)
Definition chain_tail (w : list Token) : Prop :=
  w = [] \/
  exists op prec e,
    w = op :: e /\ precedence (type op) = Some prec /\ is_expression e.

Definition accepted_upto (n : nat) : Prop :=
  forall w, List.length w <= n ->
    (is_primary w -> primary_accepted w) /\
    (is_expression w -> binary_accepted w) /\
    (chain_tail w -> while_accepted w) /\
    (is_more_arguments w -> more_accepted w).

(** The runs of the scanner: digits, or digits, a point and digits. *)
Definition run_is_literal (st : LexerState) : Prop :=
  match st with
  | InInteger _ lexeme =>
      list_ascii_of_string lexeme <> [] /\
      Forall (fun c => is_digit c = true) (list_ascii_of_string lexeme)
  | InFloat _ lexeme =>
      exists ds fs,
        list_ascii_of_string lexeme = ds ++ "."%char :: fs /\ ds <> [] /\
        Forall (fun c => is_digit c = true) ds /\
        Forall (fun c => is_digit c = true) fs
  | _ => True
  end.

(** A numeric token whose text [float()] reads, or [int()] unless it is
    longer than [int_max_str_digits]. *)
Definition literal_token (t : Token) : Prop :=
  (type t = FLOAT -> number_value t <> None) /\
  (type t = INTEGER -> String.length (value t) <= int_max_str_digits ->
   number_value t <> None).

(** ** Chains of operators and of signs *)

(** [run] raises [e] from the cursor [i] over [T] and leaves the cursor at
    [j], whenever the fuel is large enough. *)
Definition raises_at {A} (run : nat -> M A) (T : list Token) (i : nat)
    (e : Exception) (j : nat) : Prop :=
  exists fuel0, forall fuel, fuel0 <= fuel ->
    run fuel (at_index T i) = Raise e (at_index T j).

(** The token types on which [parse_primary] has a branch (lines 132-158);
    on the others it raises at once (lines 160-161). *)
Definition starts_primary (ty : TokenType) : bool :=
  match ty with
  | INTEGER | FLOAT | IDENTIFIER | SIN | COS | TAN | LOG | LPAREN | MINUS | PLUS =>
      true
  | _ => false
  end.

(** [next_min_precedence] (line 104) for an operator of precedence [prec]. *)
Definition next_min_precedence (op : Token) (prec : Z) : Z :=
  if TokenType_eqb (type op) POWER then (prec - 1)%Z else (prec + 1)%Z.

(** An operator and the primary after it, with the tree of the primary. *)
Record Link : Set := mkLink {
  link_operator : Token;
  link_operand : list Token;
  link_node : Node
}.

Definition chain_tokens (chain : list Link) : list Token :=
  flat_map (fun l => link_operator l :: link_operand l) chain.

(** The trees of a chain, grouped to the left and to the right. *)
Definition left_chain (left : Node) (chain : list Link) : Node :=
  fold_left
    (fun acc l => BinaryOpNode acc (value (link_operator l)) (link_node l))
    chain left.

Fixpoint right_chain (left : Node) (chain : list Link) : Node :=
  match chain with
  | [] => left
  | l :: chain' =>
      BinaryOpNode left (value (link_operator l)) (right_chain (link_node l) chain')
  end.

Definition is_sign (t : Token) : Prop := type t = MINUS \/ type t = PLUS.

(** One [UnaryOp('-', _)] for each [-] of [signs], the first outermost;
    nothing for a [+]. *)
Definition signed (signs : list Token) (node : Node) : Node :=
  fold_right
    (fun sign acc =>
       if TokenType_eqb (type sign) MINUS then UnaryOpNode "-" acc else acc)
    node signs.

(** ** One pass over the tokens *)

(** The cursor is on a token or one past the last. *)
Definition within (self : Parser) : Prop :=
  consistent self /\ current_token_index self <= List.length (tokens self).

(** What a call that returned or raised leaves of the parser it started
    from: the same tokens, a cursor that did not move back ([strict]: that
    moved on) and is at most one past the last token. *)
Definition passed (strict : bool) (self s : Parser) : Prop :=
  moved strict self s /\ current_token_index s <= List.length (tokens self).

Definition one_pass {A} (strict : bool) (m : M A) (self : Parser) : Prop :=
  post True m self (fun _ s => passed strict self s) (fun _ s => passed false self s).

(** ** The same run over more tokens *)

(** [s'] is [s] with [more] after its tokens. *)
Definition extended (more : list Token) (s s' : Parser) : Prop :=
  consistent s /\ consistent s' /\
  tokens s' = tokens s ++ more /\
  current_token_index s' = current_token_index s.

(** [o'] is the outcome [o] over the longer token list, unless [o] is the
    [AttributeError] of a missing token. *)
Definition same_unless_past_end {A} (more : list Token) (o o' : Outcome A) : Prop :=
  match o with
  | Ok a s => exists s', o' = Ok a s' /\ extended more s s'
  | Raise AttributeError _ => True
  | Raise e s => exists s', o' = Raise e s' /\ extended more s s'
  | OutOfFuel => True
  end.

Definition extends {A} (more : list Token) (m : M A) : Prop :=
  forall s s', extended more s s' -> same_unless_past_end more (m s) (m s').

(** ** The tokens a call has passed *)

(** The call went from [self] to [s] over the tokens [w]. *)
Definition reads (w : list Token) (self s : Parser) : Prop :=
  consistent s /\ tokens s = tokens self /\
  skipn (current_token_index self) (tokens self) =
  w ++ skipn (current_token_index s) (tokens self).

(** A call that returns has passed a sequence of [P]. *)
Definition reads_only {A} (P : list Token -> Prop) (m : M A) (self : Parser) : Prop :=
  post True m self (fun _ s => exists w, reads w self s /\ P w) (fun _ _ => True).

(** ** The same tokens at other positions *)

(** Two tokens that differ at most in their position. *)
Definition same_text (t t' : Token) : Prop :=
  type t = type t' /\ value t = value t'.

(** Two parsers at the same index of token lists that differ at most in
    the positions of their tokens. *)
Definition repositioned (s s' : Parser) : Prop :=
  consistent s /\ consistent s' /\
  Forall2 same_text (tokens s) (tokens s') /\
  current_token_index s' = current_token_index s.

Definition same_message (m m' : SyntaxMessage) : Prop :=
  match m, m' with
  | UnexpectedToken t, UnexpectedToken t' => same_text t t'
  | ExpectedLParenAfterFunctionName, ExpectedLParenAfterFunctionName => True
  | ExpectedRParen, ExpectedRParen => True
  | _, _ => False
  end.

(** The same exception, but for positions: a [SyntaxError] has the same
    message and the position of the current token of its parser. *)
Definition same_exception (e : Exception) (s : Parser) (e' : Exception)
    (s' : Parser) : Prop :=
  match e, e' with
  | SyntaxError m p, SyntaxError m' p' =>
      same_message m m' /\
      exists t t', current_token s = Some t /\ current_token s' = Some t' /\
                   p = position t /\ p' = position t'
  | SyntaxError _ _, _ => False
  | _, SyntaxError _ _ => False
  | _, _ => e = e'
  end.

Definition same_outcome {A} (R : A -> A -> Prop) (o o' : Outcome A) : Prop :=
  match o, o' with
  | Ok a s, Ok a' s' => R a a' /\ repositioned s s'
  | Raise e s, Raise e' s' => same_exception e s e' s' /\ repositioned s s'
  | OutOfFuel, OutOfFuel => True
  | _, _ => False
  end.

Definition repositions {A} (m m' : M A) : Prop :=
  forall s s', repositioned s s' -> same_outcome eq (m s) (m' s').

(** ** The operands of a tree, from left to right *)

(** The [NumberNode] and [IdentifierNode] nodes of a tree, from left to
    right. *)
Fixpoint fringe (n : Node) : list Node :=
  match n with
  | NumberNode _ => [n]
  | IdentifierNode _ => [n]
  | UnaryOpNode _ operand => fringe operand
  | BinaryOpNode l _ r => fringe l ++ fringe r
  | FunctionCallNode _ arguments =>
      (fix all (ns : list Node) : list Node :=
         match ns with
         | [] => []
         | a :: ns' => fringe a ++ all ns'
         end) arguments
  | ProgramNode expression => fringe expression
  end.

Definition fringe_list (ns : list Node) : list Node := flat_map fringe ns.

(** The nodes of the [INTEGER], [FLOAT] and [IDENTIFIER] tokens among [ts],
    in the order of the tokens. *)
Definition operands (ts : list Token) : list Node :=
  flat_map (fun t => match leaf_node t with Some n => [n] | None => [] end) ts.

(** A call that returns has passed tokens whose operands are those of the
    tree it returns, after those of [before]. *)
Definition keeps_order (before : list Node) (m : M Node) (self : Parser) : Prop :=
  post True m self
    (fun a s => exists w, reads w self s /\ fringe a = before ++ operands w)
    (fun _ _ => True).

(** ** Where an operand is expected *)

(** What comes before an operand inside one expression: signs, or an
    expression of the grammar, a binary operator and signs. *)
Inductive operand_prefix : list Token -> Prop :=
| prefix_signs signs :
    Forall is_sign signs -> operand_prefix signs
| prefix_operator e op prec signs :
    is_expression e -> precedence (type op) = Some prec -> Forall is_sign signs ->
    operand_prefix (e ++ op :: signs).

(** What comes between the first argument of a call and a later one:
    commas, with an expression after each but the last. *)
Inductive argument_prefix : list Token -> Prop :=
| prefix_comma c :
    type c = COMMA -> argument_prefix [c]
| prefix_argument c e more :
    type c = COMMA -> is_expression e -> argument_prefix more ->
    argument_prefix (c :: e ++ more).

(** The tokens before an expression starts: none, or, where an operand is
    expected, a [(], or a function name, its [(] and the arguments before
    this one.  The flag says that a [)] there closes an empty argument
    list. *)
Inductive expression_start : bool -> list Token -> Prop :=
| start_input : expression_start false []
| start_group b pre x lp :
    expression_start b pre -> operand_prefix x -> type lp = LPAREN ->
    expression_start false (pre ++ x ++ [lp])
| start_first_argument b pre x f lp :
    expression_start b pre -> operand_prefix x ->
    is_function_name (type f) = true -> type lp = LPAREN ->
    expression_start true (pre ++ x ++ [f; lp])
| start_argument b pre x f lp e more :
    expression_start b pre -> operand_prefix x ->
    is_function_name (type f) = true -> type lp = LPAREN ->
    is_expression e -> argument_prefix more ->
    expression_start false (pre ++ x ++ f :: lp :: e ++ more).

(** The rest of an expression and the operator [op] after it, where a call
    may stop: [op] alone, or an operator, an expression and [op]. *)
Definition open_chain (op : Token) (c : list Token) : Prop :=
  c = [op] \/
  exists op' prec' e',
    c = op' :: e' ++ [op] /\ precedence (type op') = Some prec' /\
    is_expression e'.

(** [s] starts with an operator of precedence below [m]. *)
Definition stops_before (m : Z) (s : list Token) : Prop :=
  exists op' prec' r,
    s = op' :: r /\ precedence (type op') = Some prec' /\ (prec' < m)%Z.

(** Over [w] followed by an operand on which [parse_primary] raises, [run]
    raises the same, or stops before an operator of precedence below [m]
    among those of [w]. *)
Definition raises_or_stops (run : nat -> M Node) (T : list Token) (ex : Exception)
    (j : nat) (op : Token) (m : Z) (w : list Token) (i : nat) : Prop :=
  raises_at run T i ex j \/
  exists node w1 s,
    w = w1 ++ s /\ open_chain op s /\ stops_before m s /\
    returns_at run T i node (i + List.length w1).

Definition raise_passes_upto (n : nat) (T : list Token) (ex : Exception) (j : nat)
    (op : Token) : Prop :=
  (forall e i tail m,
     List.length e <= n -> is_expression e ->
     skipn i T = e ++ op :: tail ->
     raises_at parse_primary T (i + List.length e + 1) ex j ->
     raises_or_stops (fun fuel => parse_binary_expression fuel m) T ex j op m
       (e ++ [op]) i) /\
  (forall c i tail m left,
     List.length c <= n -> open_chain op c ->
     skipn i T = c ++ tail ->
     raises_at parse_primary T (i + List.length c) ex j ->
     raises_or_stops (fun fuel => binary_expression_while fuel m left) T ex j op m
       c i).

(** The first token of [tail] is no [)]. *)
Definition not_closing (tail : list Token) : Prop :=
  exists t r, tail = t :: r /\ type t <> RPAREN.

(** * Proofs *)

Section Rules.
Context {A B : Type} (d : Prop).
Variables (Q : A -> Parser -> Prop) (E : Exception -> Parser -> Prop).

Lemma post_ret (a : A) self : Q a self -> post d (ret a) self Q E.
Proof. exact (fun H => H). Qed.

Lemma post_raise e self : E e self -> post d (raise e) self Q E.
Proof. exact (fun H => H). Qed.

Lemma post_bind (m : M B) (k : B -> M A) self :
  post d m self (fun b s => post d (k b) s Q E) E ->
  post d (bind m k) self Q E.
Proof.
  unfold post, bind. destruct (m self); auto.
Qed.

Lemma post_conseq (Q' : A -> Parser -> Prop) (E' : Exception -> Parser -> Prop)
    (m : M A) self :
  post d m self Q' E' ->
  (forall a s, Q' a s -> Q a s) ->
  (forall e s, E' e s -> E e s) ->
  post d m self Q E.
Proof.
  unfold post. destruct (m self); auto.
Qed.
End Rules.

Lemma post_advance d self (Q : unit -> Parser -> Prop) E :
  Q tt (advanced self) -> post d advance self Q E.
Proof. exact (fun H => H). Qed.

Lemma post_attr d self (Q : Token -> Parser -> Prop) (E : Exception -> Parser -> Prop) :
  (forall t, current_token self = Some t -> Q t self) ->
  (current_token self = None -> E AttributeError self) ->
  post d attr_current_token self Q E.
Proof.
  unfold post, attr_current_token. destruct (current_token self); auto.
Qed.

(** One step of symbolic execution of a method body. *)
Ltac step :=
  lazymatch goal with
  | |- post _ (bind attr_current_token _) _ _ _ =>
      apply post_bind; apply post_attr; [ intros ? ? | intros ? ]
  | |- post _ (bind advance _) _ _ _ => apply post_bind; apply post_advance
  | |- post _ (bind _ _) _ _ _ => apply post_bind
  | |- post _ (ret _) _ _ _ => apply post_ret
  | |- post _ (raise _) _ _ _ => apply post_raise
  | |- post _ (if ?b then _ else _) _ _ _ => destruct b eqn:?
  | |- post _ (match ?x with _ => _ end) _ _ _ => destruct x eqn:?
  end.

(** ** The methods, one call at a time *)

Lemma parse_expression_eq fuel :
  parse_expression (S fuel) = parse_binary_expression fuel 0%Z.
Proof. reflexivity. Qed.

Lemma parse_binary_expression_eq fuel min_precedence :
  parse_binary_expression (S fuel) min_precedence =
  (left <- parse_primary fuel ;;
   binary_expression_while fuel min_precedence left).
Proof. reflexivity. Qed.

Lemma binary_expression_while_eq fuel min_precedence left :
  binary_expression_while (S fuel) min_precedence left =
  (operator_token <- attr_current_token ;;
   match precedence (type operator_token) with
   | Some operator_precedence =>
       if (min_precedence <=? operator_precedence)%Z then
         advance ;;;
         right <- parse_binary_expression fuel
                    (if TokenType_eqb (type operator_token) POWER
                     then (operator_precedence - 1)%Z
                     else (operator_precedence + 1)%Z) ;;
         binary_expression_while fuel min_precedence
           (BinaryOpNode left (value operator_token) right)
       else ret left
   | None => ret left
   end).
Proof. reflexivity. Qed.

Lemma parse_primary_eq fuel :
  parse_primary (S fuel) =
  (token <- attr_current_token ;;
   match type token with
   | INTEGER | FLOAT =>
       advance ;;;
       match number_value token with
       | Some v => ret (NumberNode v)
       | None => raise (ValueError (value token))
       end
   | IDENTIFIER => advance ;;; ret (IdentifierNode (value token))
   | SIN | COS | TAN | LOG => _parse_function_call fuel token
   | LPAREN => _parse_parenthesized_expression fuel
   | MINUS =>
       advance ;;;
       operand <- parse_primary fuel ;;
       ret (UnaryOpNode "-" operand)
   | PLUS => advance ;;; parse_primary fuel
   | _ => raise (SyntaxError (UnexpectedToken token) (position token))
   end).
Proof. reflexivity. Qed.

Lemma _parse_function_call_eq fuel function_token :
  _parse_function_call (S fuel) function_token =
  (advance ;;;
   t <- attr_current_token ;;
   if negb (TokenType_eqb (type t) LPAREN) then
     raise (SyntaxError ExpectedLParenAfterFunctionName (position t))
   else
     advance ;;;
     t <- attr_current_token ;;
     arguments <-
       (if negb (TokenType_eqb (type t) RPAREN) then
          argument <- parse_expression fuel ;;
          arguments_while fuel [argument]
        else ret []) ;;
     t <- attr_current_token ;;
     if negb (TokenType_eqb (type t) RPAREN) then
       raise (SyntaxError ExpectedRParen (position t))
     else
       advance ;;;
       ret (FunctionCallNode (value function_token) arguments)).
Proof. reflexivity. Qed.

Lemma arguments_while_eq fuel arguments :
  arguments_while (S fuel) arguments =
  (t <- attr_current_token ;;
   if TokenType_eqb (type t) COMMA then
     advance ;;;
     argument <- parse_expression fuel ;;
     arguments_while fuel (arguments ++ [argument])
   else ret arguments).
Proof. reflexivity. Qed.

Lemma _parse_parenthesized_expression_eq fuel :
  _parse_parenthesized_expression (S fuel) =
  (advance ;;;
   expression <- parse_expression fuel ;;
   t <- attr_current_token ;;
   if negb (TokenType_eqb (type t) RPAREN) then
     raise (SyntaxError ExpectedRParen (position t))
   else
     advance ;;;
     ret expression).
Proof. reflexivity. Qed.

(** ** Bookkeeping on parser states *)

Lemma consistent_advanced self : consistent (advanced self).
Proof. reflexivity. Qed.

Lemma remaining_advanced self : remaining (advanced self) = remaining self - 1.
Proof. unfold remaining, advanced; simpl; lia. Qed.

Lemma current_in_bounds self t :
  consistent self -> current_token self = Some t ->
  current_token_index self < List.length (tokens self).
Proof.
  unfold consistent; intros Hc Ht. rewrite Ht in Hc.
  apply nth_error_Some. congruence.
Qed.

Lemma current_remaining self t :
  consistent self -> current_token self = Some t -> 1 <= remaining self.
Proof.
  intros Hc Ht. pose proof (current_in_bounds Hc Ht). unfold remaining. lia.
Qed.

Lemma moved_remaining strict self s :
  moved strict self s ->
  remaining s <= remaining self - (if strict then 1 else 0).
Proof.
  unfold moved, remaining. intros (_ & -> & H). destruct strict; lia.
Qed.

Lemma moved_advanced_l strict self s :
  moved strict (advanced self) s -> moved true self s.
Proof.
  unfold moved, advanced; simpl. intros (? & ? & H); repeat split; auto.
  destruct strict; lia.
Qed.

Lemma moved_trans b1 b2 s1 s2 s3 :
  moved b1 s1 s2 -> moved b2 s2 s3 -> moved (b1 || b2) s1 s3.
Proof.
  unfold moved. intros (? & E1 & H1) (? & E2 & H2). repeat split; auto.
  - congruence.
  - destruct b1, b2; simpl; lia.
Qed.

Lemma moved_weaken b s1 s2 : moved b s1 s2 -> moved false s1 s2.
Proof.
  unfold moved. intros (? & ? & H). repeat split; auto. destruct b; lia.
Qed.

Lemma moved_refl self : consistent self -> moved false self self.
Proof. unfold moved; auto. Qed.

Lemma moved_advanced self : moved true self (advanced self).
Proof.
  split; [apply consistent_advanced | split; [reflexivity | simpl; lia]].
Qed.

(** Use a fact about a call (an induction hypothesis) at the head of the
    goal. *)
Ltac call H :=
  eapply post_conseq; [ eapply H | cbv beta; intros ? ? ? | cbv beta; intros ? ? ? ].

Ltac side :=
  first [ assumption | apply consistent_advanced | lia | congruence ].

(** ** Termination *)

Lemma methods_terminate fuel :
  (forall self, consistent self -> 4 * remaining self + 4 <= fuel ->
     terminates_moving true (parse_expression fuel) self) /\
  (forall self p, consistent self -> 4 * remaining self + 3 <= fuel ->
     terminates_moving true (parse_binary_expression fuel p) self) /\
  (forall self p l, consistent self -> 4 * remaining self + 1 <= fuel ->
     terminates_moving false (binary_expression_while fuel p l) self) /\
  (forall self, consistent self -> 4 * remaining self + 2 <= fuel ->
     terminates_moving true (parse_primary fuel) self) /\
  (forall self f, consistent self -> 4 * remaining self + 1 <= fuel ->
     terminates_moving true (_parse_function_call fuel f) self) /\
  (forall self args, consistent self -> 4 * remaining self + 1 <= fuel ->
     terminates_moving false (arguments_while fuel args) self) /\
  (forall self, consistent self -> current_token self <> None ->
     4 * remaining self + 1 <= fuel ->
     terminates_moving true (_parse_parenthesized_expression fuel) self).
Proof.
  unfold terminates_moving.
  induction fuel as [|fuel (IHe & IHb & IHw & IHp & IHf & IHa & IHg)].
  { repeat split; intros; lia. }
  repeat split.
  - intros self Hc Hf. rewrite parse_expression_eq.
    call IHb; [ side .. | | ]; auto.
  - intros self p Hc Hf. rewrite parse_binary_expression_eq.
    step. call IHp; [ side .. | | trivial ].
    pose proof (moved_remaining H).
    call IHw; [ apply H | simpl in *; lia | | trivial ].
    apply (moved_trans H H1).
  - intros self p l Hc Hf. rewrite binary_expression_while_eq.
    step; [|trivial]. pose proof (current_remaining Hc H).
    step; [|step; apply moved_refl; auto].
    step; [|step; apply moved_refl; auto].
    step. step.
    pose proof (remaining_advanced self).
    call IHb; [ side .. | | trivial ].
    pose proof (moved_remaining H2).
    call IHw; [ apply H2 | simpl in *; lia | | trivial ].
    apply moved_weaken with (b := true).
    apply moved_advanced_l with (strict := true || false).
    eapply moved_trans; eauto.
  - intros self Hc Hf. rewrite parse_primary_eq.
    step; [|trivial]. pose proof (current_remaining Hc H).
    pose proof (remaining_advanced self).
    step; repeat step; trivial; try apply moved_advanced.
    + call IHp; [ side .. | | trivial ].
      eapply moved_advanced_l; eauto.
    + call IHp; [ side .. | | trivial ].
      step. eapply moved_advanced_l; eauto.
    + call IHg; [ side .. | | ]; auto.
    + call IHf; [ side .. | | ]; auto.
    + call IHf; [ side .. | | ]; auto.
    + call IHf; [ side .. | | ]; auto.
    + call IHf; [ side .. | | ]; auto.
  - intros self f Hc Hf. rewrite _parse_function_call_eq.
    pose proof (remaining_advanced self).
    pose proof (remaining_advanced (advanced self)).
    step. step; [|trivial]. step; [step; trivial|].
    pose proof (current_remaining (consistent_advanced self) H1).
    step. step; [|trivial].
    pose proof (current_remaining (consistent_advanced (advanced self)) H3).
    step.
    assert (Hargs : forall (Q : list Node -> Parser -> Prop),
      (forall args s, moved false (advanced (advanced self)) s -> Q args s) ->
      post False
        (if negb (TokenType_eqb (type t0) RPAREN)
         then argument <- parse_expression fuel;; arguments_while fuel [argument]
         else ret []) (advanced (advanced self)) Q (fun _ _ => True)).
    { intros Q HQ. step.
      - step. call IHe; [ side .. | | trivial ].
        pose proof (moved_remaining H5).
        call IHa; [ apply H5 | simpl in *; lia | | trivial ].
        apply HQ. apply moved_weaken with (b := true || false).
        eapply moved_trans; eauto.
      - step. apply HQ. apply moved_refl, consistent_advanced. }
    apply Hargs. intros args s Hm.
    step; [|trivial]. step; [step; trivial|].
    step. step.
    apply moved_advanced_l with (strict := true).
    apply moved_advanced_l with (strict := false || true).
    eapply moved_trans; [apply Hm | apply moved_advanced].
  - intros self args Hc Hf. rewrite arguments_while_eq.
    step; [|trivial]. pose proof (current_remaining Hc H).
    pose proof (remaining_advanced self).
    step; [|step; apply moved_refl; auto].
    step. step.
    call IHe; [ side .. | | trivial ].
    pose proof (moved_remaining H2).
    call IHa; [ apply H2 | simpl in *; lia | | trivial ].
    apply moved_weaken with (b := true).
    apply moved_advanced_l with (strict := true || false).
    eapply moved_trans; eauto.
  - intros self Hc Hn Hf. rewrite _parse_parenthesized_expression_eq.
    pose proof (remaining_advanced self).
    assert (1 <= remaining self).
    { destruct (current_token self) eqn:Ht; [|congruence].
      eapply current_remaining; eauto. }
    step. step.
    call IHe; [ side .. | | trivial ].
    step; [|trivial]. step; [step; trivial|].
    step. step.
    apply moved_advanced_l with (strict := true || true).
    eapply moved_trans; [apply H1 | apply moved_advanced].
Qed.

(** Whatever the tokens, [parse_program] stops within [enough_fuel]. *)
Lemma parse_program_terminates self :
  consistent self ->
  post False (parse_program (enough_fuel self)) self
    (fun _ s => moved true self s) (fun _ _ => True).
Proof.
  intros Hc. unfold parse_program. step.
  destruct (methods_terminate (enough_fuel self)) as (He & _).
  call He; [ assumption | unfold enough_fuel, remaining; lia | | trivial ].
  step. assumption.
Qed.

(** ** Token types *)

Lemma TokenType_eqb_eq a b : TokenType_eqb a b = true <-> a = b.
Proof. destruct a, b; simpl; split; congruence. Qed.

Lemma TokenType_eqb_neq a b : TokenType_eqb a b = false <-> a <> b.
Proof. destruct a, b; simpl; split; congruence. Qed.

(** ** The cursor stays on a token *)

Lemma only_EOF_is_last ts i t :
  ends_with_only_EOF ts = true ->
  nth_error ts i = Some t -> type t <> EOF -> S i < List.length ts.
Proof.
  revert i. induction ts as [|a ts IH]; intros i Hw Hn Ht.
  - discriminate.
  - destruct ts as [|b ts].
    + destruct i as [|[|i]]; simpl in *; try discriminate.
      injection Hn as <-. apply TokenType_eqb_eq in Hw. contradiction.
    + destruct i as [|i].
      * simpl. lia.
      * change (ends_with_only_EOF (a :: b :: ts))
          with (negb (TokenType_eqb (type a) EOF) && ends_with_only_EOF (b :: ts))
          in Hw.
        apply andb_true_iff in Hw as (_ & Hw).
        specialize (IH i Hw Hn Ht). simpl in *. lia.
Qed.

Lemma on_token_current self :
  on_token self -> exists t, current_token self = Some t.
Proof.
  intros (_ & Hc & Hi). unfold consistent in Hc. rewrite Hc.
  destruct (nth_error (tokens self) (current_token_index self)) eqn:E; eauto.
  apply nth_error_None in E. lia.
Qed.

Lemma on_token_advanced self t :
  on_token self -> current_token self = Some t -> type t <> EOF ->
  on_token (advanced self).
Proof.
  intros (Hw & Hc & Hi) Ht Hn. repeat split; auto.
  simpl. eapply only_EOF_is_last; eauto.
  unfold consistent in Hc. congruence.
Qed.

Lemma kept_refl self : on_token self -> kept self self.
Proof. split; auto. Qed.

Lemma kept_trans s1 s2 s3 : kept s1 s2 -> kept s2 s3 -> kept s1 s3.
Proof. unfold kept. intros (? & ?) (? & ?). split; congruence. Qed.

Lemma kept_error_trans s1 s2 e s3 :
  kept s1 s2 -> kept_error s2 e s3 -> kept_error s1 e s3.
Proof. intros H (H' & ?). split; eauto using kept_trans. Qed.

Lemma kept_advanced self t :
  on_token self -> current_token self = Some t -> type t <> EOF ->
  kept self (advanced self).
Proof. intros. split; [eapply on_token_advanced; eauto | reflexivity]. Qed.

Lemma current_in_tokens self t :
  consistent self -> current_token self = Some t -> In t (tokens self).
Proof.
  unfold consistent. intros Hc Ht. rewrite Ht in Hc.
  eapply nth_error_In; eauto.
Qed.

Ltac no_token :=
  exfalso;
  match goal with
  | H : current_token ?s = None, K : kept _ ?s |- _ =>
      destruct (on_token_current (proj1 K)); congruence
  | H : current_token ?s = None, K : on_token ?s |- _ =>
      destruct (on_token_current K); congruence
  end.

Ltac not_EOF :=
  match goal with
  | H : type ?t = _ |- type ?t <> EOF => rewrite H; discriminate
  | H : precedence (type ?t) = Some _ |- type ?t <> EOF =>
      let E := fresh in intro E; rewrite E in H; discriminate
  | H : TokenType_eqb (type ?t) _ = true |- type ?t <> EOF =>
      apply TokenType_eqb_eq in H; rewrite H; discriminate
  | H : negb (TokenType_eqb (type ?t) _) = false |- type ?t <> EOF =>
      apply negb_false_iff, TokenType_eqb_eq in H; rewrite H; discriminate
  end.

Lemma methods_stay_on_token fuel :
  (forall self, on_token self -> stays_on_token (parse_expression fuel) self) /\
  (forall self p, on_token self ->
     stays_on_token (parse_binary_expression fuel p) self) /\
  (forall self p l, on_token self ->
     stays_on_token (binary_expression_while fuel p l) self) /\
  (forall self, on_token self -> stays_on_token (parse_primary fuel) self) /\
  (forall self f t, on_token self -> current_token self = Some t ->
     type t <> EOF -> stays_on_token (_parse_function_call fuel f) self) /\
  (forall self args, on_token self ->
     stays_on_token (arguments_while fuel args) self) /\
  (forall self t, on_token self -> current_token self = Some t ->
     type t <> EOF ->
     stays_on_token (_parse_parenthesized_expression fuel) self).
Proof.
  unfold stays_on_token.
  induction fuel as [|fuel (IHe & IHb & IHw & IHp & IHf & IHa & IHg)].
  { repeat split; intros; exact I. }
  assert (Hsyn : forall self t m, on_token self -> current_token self = Some t ->
            kept_error self (SyntaxError m (position t)) self).
  { intros self t m Ho Ht. split; [apply kept_refl; auto | left; eauto]. }
  repeat split.
  - intros self Ho. rewrite parse_expression_eq. apply IHb; auto.
  - intros self p Ho. rewrite parse_binary_expression_eq.
    step. call IHp; [ eauto | | eauto ].
    call IHw; [ apply H | | ]; eauto using kept_trans, kept_error_trans.
  - intros self p l Ho. rewrite binary_expression_while_eq.
    step; [|no_token].
    step; [|step; apply kept_refl; auto].
    step; [|step; apply kept_refl; auto].
    assert (Hk : kept self (advanced self)).
    { eapply kept_advanced; eauto. not_EOF. }
    step. step. call IHb; [ apply Hk | | eauto using kept_error_trans ].
    assert (Hs : kept self s) by eauto using kept_trans.
    call IHw; [ apply Hs | | ]; eauto using kept_trans, kept_error_trans.
  - intros self Ho. rewrite parse_primary_eq.
    step; [|no_token].
    assert (Hc : consistent self) by apply Ho.
    step;
      try (assert (Hk : kept self (advanced self))
             by (eapply kept_advanced; eauto; not_EOF));
      repeat step; auto.
    + split; auto. right. exists t. repeat split; auto.
      exact (current_in_tokens Hc H).
    + split; auto. right. exists t. repeat split; auto.
      exact (current_in_tokens Hc H).
    + call IHp; [ apply Hk | | ]; eauto using kept_trans, kept_error_trans.
    + call IHp; [ apply Hk | | eauto using kept_error_trans ].
      step. eauto using kept_trans.
    + eapply IHg; eauto. not_EOF.
    + eapply IHf; eauto. not_EOF.
    + eapply IHf; eauto. not_EOF.
    + eapply IHf; eauto. not_EOF.
    + eapply IHf; eauto. not_EOF.
  - intros self f t Ho Ht Hn. rewrite _parse_function_call_eq.
    assert (Hk : kept self (advanced self)) by (eapply kept_advanced; eauto).
    step. step; [|no_token].
    step; [step; eapply kept_error_trans; eauto; apply Hsyn; auto; apply Hk|].
    assert (Hk2 : kept (advanced self) (advanced (advanced self))).
    { eapply kept_advanced; eauto; [apply Hk | not_EOF]. }
    assert (Hk3 : kept self (advanced (advanced self))) by eauto using kept_trans.
    step. step; [|no_token].
    step.
    assert (Hargs : forall (Q : list Node -> Parser -> Prop),
      (forall args s, kept self s -> Q args s) ->
      post True
        (if negb (TokenType_eqb (type t1) RPAREN)
         then argument <- parse_expression fuel;; arguments_while fuel [argument]
         else ret []) (advanced (advanced self)) Q (kept_error self)).
    { intros Q HQ. step.
      - step. call IHe; [ apply Hk3 | | eauto using kept_error_trans ].
        assert (Hs : kept self s) by eauto using kept_trans.
        call IHa; [ apply Hs | | ]; eauto using kept_trans, kept_error_trans.
      - step. apply HQ. auto. }
    apply Hargs. intros args s Hs.
    step; [|no_token].
    step; [step; eapply kept_error_trans; eauto; apply Hsyn; auto; apply Hs|].
    step. step. eapply kept_trans; eauto.
    eapply kept_advanced; eauto; [apply Hs | not_EOF].
  - intros self args Ho. rewrite arguments_while_eq.
    step; [|no_token].
    step; [|step; apply kept_refl; auto].
    assert (Hk : kept self (advanced self)).
    { eapply kept_advanced; eauto. not_EOF. }
    step. step. call IHe; [ apply Hk | | eauto using kept_error_trans ].
    assert (Hs : kept self s) by eauto using kept_trans.
    call IHa; [ apply Hs | | ]; eauto using kept_trans, kept_error_trans.
  - intros self t Ho Ht Hn. rewrite _parse_parenthesized_expression_eq.
    assert (Hk : kept self (advanced self)) by (eapply kept_advanced; eauto).
    step. step. call IHe; [ apply Hk | | eauto using kept_error_trans ].
    assert (Hs : kept self s) by eauto using kept_trans.
    step; [|no_token].
    step; [step; eapply kept_error_trans; eauto; apply Hsyn; auto; apply Hs|].
    step. step. eapply kept_trans; eauto.
    eapply kept_advanced; eauto; [apply Hs | not_EOF].
Qed.

(** ** One leaf per leaf token, fewer inner nodes than tokens *)

Lemma leaf_count_call name arguments :
  leaf_count (FunctionCallNode name arguments) = leaf_count_list arguments.
Proof. reflexivity. Qed.

Lemma internal_count_call name arguments :
  internal_count (FunctionCallNode name arguments) =
  S (internal_count_list arguments).
Proof. reflexivity. Qed.

Lemma leaf_count_list_app l1 l2 :
  leaf_count_list (l1 ++ l2) = leaf_count_list l1 + leaf_count_list l2.
Proof. induction l1; simpl; lia. Qed.

Lemma internal_count_list_app l1 l2 :
  internal_count_list (l1 ++ l2) = internal_count_list l1 + internal_count_list l2.
Proof. induction l1; simpl; lia. Qed.

Lemma leaf_tokens_app l1 l2 : leaf_tokens (l1 ++ l2) = leaf_tokens l1 + leaf_tokens l2.
Proof. unfold leaf_tokens. now rewrite filter_app, length_app. Qed.

Lemma firstn_succ {A} (l : list A) i t :
  nth_error l i = Some t -> firstn (S i) l = firstn i l ++ [t].
Proof.
  revert i. induction l as [|a l IH]; intros [|i] H; try discriminate.
  - injection H as ->. reflexivity.
  - simpl in *. f_equal. apply (IH i H).
Qed.

Lemma consumed_leaves_advanced self t :
  consistent self -> current_token self = Some t ->
  consumed_leaves (advanced self) =
  consumed_leaves self + (if is_leaf_token t then 1 else 0).
Proof.
  unfold consistent, consumed_leaves. intros Hc Ht. rewrite Ht in Hc.
  change (current_token_index (advanced self)) with (S (current_token_index self)).
  change (tokens (advanced self)) with (tokens self).
  rewrite (firstn_succ _ _ (eq_sym Hc)), leaf_tokens_app.
  unfold leaf_tokens at 2. simpl. destruct (is_leaf_token t); reflexivity.
Qed.

Lemma operator_not_leaf t p :
  precedence (type t) = Some p -> is_leaf_token t = false.
Proof. unfold is_leaf_token. destruct (type t); simpl; congruence. Qed.

Ltac leaf_kind :=
  repeat match goal with
  | H : type ?t = _ |- context [is_leaf_token ?t] =>
      unfold is_leaf_token; rewrite H
  | H : type ?t = _, K : context [is_leaf_token ?t] |- _ =>
      unfold is_leaf_token in K; rewrite H in K
  | H : precedence (type ?t) = Some _, K : context [is_leaf_token ?t] |- _ =>
      rewrite (operator_not_leaf _ H) in K
  | H : TokenType_eqb (type ?t) _ = true, K : context [is_leaf_token ?t] |- _ =>
      apply TokenType_eqb_eq in H
  | H : negb (TokenType_eqb (type ?t) _) = false, K : context [is_leaf_token ?t] |- _ =>
      apply negb_false_iff, TokenType_eqb_eq in H
  end.

Ltac counting :=
  unfold counted in *; simpl current_token_index in *; simpl tokens in *;
  repeat match goal with
  | H : _ /\ _ |- _ => destruct H
  end;
  repeat split;
  try rewrite leaf_count_call in *; try rewrite internal_count_call in *;
  try rewrite leaf_count_list_app in *; try rewrite internal_count_list_app in *;
  simpl leaf_count in *; simpl internal_count in *;
  simpl leaf_count_list in *; simpl internal_count_list in *;
  first [ assumption | apply consistent_advanced | congruence | lia ].

Tactic Notation "call" constr(H) "as" ident(a) ident(s) ident(K) :=
  eapply post_conseq;
  [ eapply H | cbv beta; intros a s K | cbv beta; intros ? ? ? ].

Lemma methods_count fuel :
  (forall self, consistent self -> counts_node (parse_expression fuel) self) /\
  (forall self p, consistent self ->
     counts_node (parse_binary_expression fuel p) self) /\
  (forall self p l, consistent self ->
     post True (binary_expression_while fuel p l) self
       (fun a s => counted false self (leaf_count l) (internal_count l)
                     (leaf_count a) (internal_count a) s)
       (fun _ _ => True)) /\
  (forall self, consistent self -> counts_node (parse_primary fuel) self) /\
  (forall self f, consistent self ->
     (exists t, current_token self = Some t /\ is_leaf_token t = false) ->
     counts_node (_parse_function_call fuel f) self) /\
  (forall self args, consistent self ->
     post True (arguments_while fuel args) self
       (fun args' s =>
          counted false self (leaf_count_list args) (internal_count_list args)
            (leaf_count_list args') (internal_count_list args') s)
       (fun _ _ => True)) /\
  (forall self, consistent self ->
     (exists t, current_token self = Some t /\ is_leaf_token t = false) ->
     counts_node (_parse_parenthesized_expression fuel) self).
Proof.
  unfold counts_node.
  induction fuel as [|fuel (IHe & IHb & IHw & IHp & IHf & IHa & IHg)].
  { repeat split; intros; exact I. }
  repeat split.
  - intros self Hc. rewrite parse_expression_eq. apply IHb; auto.
  - intros self p Hc. rewrite parse_binary_expression_eq.
    step. call IHp as l s1 K1; [ assumption | | trivial ].
    call IHw as a s2 K2; [ apply K1 | | trivial ].
    counting.
  - intros self p l Hc. rewrite binary_expression_while_eq.
    step; [|trivial].
    step; [|step; counting].
    step; [|step; counting].
    pose proof (consumed_leaves_advanced Hc H) as Hadv. leaf_kind.
    step. step.
    call IHb as r s1 K1; [ apply consistent_advanced | | trivial ].
    call IHw as a s2 K2; [ apply K1 | | trivial ].
    counting.
  - intros self Hc. rewrite parse_primary_eq.
    step; [|trivial].
    pose proof (consumed_leaves_advanced Hc H) as Hadv.
    step; leaf_kind; repeat step; trivial; try solve [counting].
    + call IHp as a s1 K1; [ apply consistent_advanced | | trivial ].
      counting.
    + call IHp as a s1 K1; [ apply consistent_advanced | | trivial ].
      step. counting.
    + apply IHg; auto. exists t. split; auto. leaf_kind. reflexivity.
    + apply IHf; auto. exists t. split; auto. leaf_kind. reflexivity.
    + apply IHf; auto. exists t. split; auto. leaf_kind. reflexivity.
    + apply IHf; auto. exists t. split; auto. leaf_kind. reflexivity.
    + apply IHf; auto. exists t. split; auto. leaf_kind. reflexivity.
  - intros self f Hc (t & Ht & Hl). rewrite _parse_function_call_eq.
    pose proof (consumed_leaves_advanced Hc Ht) as Hadv. rewrite Hl in Hadv.
    step. step; [|trivial].
    step; [step; trivial|].
    pose proof (consumed_leaves_advanced (consistent_advanced self) H) as Hadv2.
    leaf_kind.
    step. step; [|trivial].
    step.
    assert (Hargs : forall (Q : list Node -> Parser -> Prop),
      (forall args s,
         counted false (advanced (advanced self)) 0 0 (leaf_count_list args)
           (internal_count_list args) s -> Q args s) ->
      post True
        (if negb (TokenType_eqb (type t1) RPAREN)
         then argument <- parse_expression fuel;; arguments_while fuel [argument]
         else ret []) (advanced (advanced self)) Q (fun _ _ => True)).
    { intros Q HQ. step.
      - step. call IHe as a s1 K1; [ apply consistent_advanced | | trivial ].
        call IHa as args s2 K2; [ apply K1 | | trivial ].
        apply HQ. counting.
      - step. apply HQ. counting. }
    apply Hargs. intros args s Hs.
    step; [|trivial]. step; [step; trivial|].
    assert (Hcs : consistent s) by apply Hs.
    pose proof (consumed_leaves_advanced Hcs H1) as Hadv3.
    leaf_kind.
    step. step. counting.
  - intros self args Hc. rewrite arguments_while_eq.
    step; [|trivial].
    step; [|step; counting].
    pose proof (consumed_leaves_advanced Hc H) as Hadv. leaf_kind.
    step. step.
    call IHe as a s1 K1; [ apply consistent_advanced | | trivial ].
    call IHa as args' s2 K2; [ apply K1 | | trivial ].
    counting.
  - intros self Hc (t & Ht & Hl). rewrite _parse_parenthesized_expression_eq.
    pose proof (consumed_leaves_advanced Hc Ht) as Hadv. rewrite Hl in Hadv.
    step. step.
    call IHe as a s1 K1; [ apply consistent_advanced | | trivial ].
    step; [|trivial]. step; [step; trivial|].
    assert (Hcs : consistent s1) by apply K1.
    pose proof (consumed_leaves_advanced Hcs H) as Hadv2.
    leaf_kind.
    step. step. counting.
Qed.

(** ** Entry points *)

Lemma Parser_init_tokens toks : Parser_init None (Some toks) = inr (initial toks).
Proof. reflexivity. Qed.

Lemma initial_consistent toks : consistent (initial toks).
Proof. reflexivity. Qed.

Lemma ends_with_only_EOF_nonempty ts :
  ends_with_only_EOF ts = true -> 0 < List.length ts.
Proof. destruct ts; simpl; [discriminate | lia]. Qed.

Lemma initial_on_token toks :
  ends_with_only_EOF toks = true -> on_token (initial toks).
Proof.
  intros H. repeat split; auto. simpl. now apply ends_with_only_EOF_nonempty.
Qed.

(** [parse] never runs out of [enough_fuel]. *)
Lemma parse_terminates self :
  consistent self -> parse self <> OutOfFuel.
Proof.
  intros Hc. unfold parse. destruct (tokens self) eqn:Et; [discriminate|].
  pose proof (parse_program_terminates Hc) as H. unfold post in H.
  unfold bind. destruct (parse_program (enough_fuel self) self); try contradiction.
  - unfold attr_current_token. destruct (current_token self0); [|discriminate].
    destruct (negb _); discriminate.
  - discriminate.
Qed.

Lemma parse_tokens_terminates toks : parse_tokens toks <> Diverges.
Proof.
  unfold parse_tokens. rewrite Parser_init_tokens.
  pose proof (parse_terminates (initial_consistent toks)).
  destruct (parse (initial toks)); simpl; congruence.
Qed.

Lemma parse_text_terminates text : parse_text text <> Diverges.
Proof.
  unfold parse_text, Parser_init. destruct (get_tokens text) as [e|ts]; [discriminate|].
  pose proof (parse_terminates (initial_consistent ts)).
  fold (initial ts). destruct (parse (initial ts)); simpl; congruence.
Qed.

(** ** Grouping of operators *)

(** C1 (the code groups the other way): on [a ^ b * c] and [a ^ b / c] the
    right operand of [^] is read with minimum precedence [3 - 1 = 2], which
    lets it take the following [*] or [/]; the result is
    [BinaryOp(a, '^', BinaryOp(b, '*', c))], not
    [BinaryOp(BinaryOp(a, '^', b), '*', c)]. *)
Theorem power_operand_takes_following_product :
  parse_text "2 ^ 3 * 4" =
    Returns (Some (ProgramNode
      (BinaryOpNode (NumberNode (PyInt 2)) "^"
         (BinaryOpNode (NumberNode (PyInt 3)) "*" (NumberNode (PyInt 4)))))) /\
  parse_text "2 ^ 3 * 4" <>
    Returns (Some (ProgramNode
      (BinaryOpNode
         (BinaryOpNode (NumberNode (PyInt 2)) "^" (NumberNode (PyInt 3)))
         "*" (NumberNode (PyInt 4))))) /\
  (forall a b c pow mul e p1 p2 p3 p4 p5 p6,
     parse_tokens
       [mkToken IDENTIFIER a p1; mkToken POWER pow p2; mkToken IDENTIFIER b p3;
        mkToken MULTIPLY mul p4; mkToken IDENTIFIER c p5; mkToken EOF e p6] =
     Returns (Some (ProgramNode
       (BinaryOpNode (IdentifierNode a) pow
          (BinaryOpNode (IdentifierNode b) mul (IdentifierNode c)))))) /\
  (forall a b c pow div e p1 p2 p3 p4 p5 p6,
     parse_tokens
       [mkToken IDENTIFIER a p1; mkToken POWER pow p2; mkToken IDENTIFIER b p3;
        mkToken DIVIDE div p4; mkToken IDENTIFIER c p5; mkToken EOF e p6] =
     Returns (Some (ProgramNode
       (BinaryOpNode (IdentifierNode a) pow
          (BinaryOpNode (IdentifierNode b) div (IdentifierNode c)))))).
Proof.
  split; [vm_compute; reflexivity|].
  split; [vm_compute; discriminate|].
  split; intros; reflexivity.
Qed.

(** C2: [2 - 3 - 4] groups to the left, [BinaryOp(BinaryOp(2,'-',3),'-',4)],
    and [2 ^ 3 ^ 2] to the right, [BinaryOp(2,'^',BinaryOp(3,'^',2))]; from
    the text and from the token sequence, whatever the positions. *)
Theorem same_precedence_chains_associate :
  parse_text "2 - 3 - 4" =
    Returns (Some (ProgramNode
      (BinaryOpNode
         (BinaryOpNode (NumberNode (PyInt 2)) "-" (NumberNode (PyInt 3)))
         "-" (NumberNode (PyInt 4))))) /\
  parse_text "2 ^ 3 ^ 2" =
    Returns (Some (ProgramNode
      (BinaryOpNode (NumberNode (PyInt 2)) "^"
         (BinaryOpNode (NumberNode (PyInt 3)) "^" (NumberNode (PyInt 2)))))) /\
  (forall e p1 p2 p3 p4 p5 p6,
     parse_tokens
       [mkToken INTEGER "2" p1; mkToken MINUS "-" p2; mkToken INTEGER "3" p3;
        mkToken MINUS "-" p4; mkToken INTEGER "4" p5; mkToken EOF e p6] =
     Returns (Some (ProgramNode
       (BinaryOpNode
          (BinaryOpNode (NumberNode (PyInt 2)) "-" (NumberNode (PyInt 3)))
          "-" (NumberNode (PyInt 4)))))) /\
  (forall e p1 p2 p3 p4 p5 p6,
     parse_tokens
       [mkToken INTEGER "2" p1; mkToken POWER "^" p2; mkToken INTEGER "3" p3;
        mkToken POWER "^" p4; mkToken INTEGER "2" p5; mkToken EOF e p6] =
     Returns (Some (ProgramNode
       (BinaryOpNode (NumberNode (PyInt 2)) "^"
          (BinaryOpNode (NumberNode (PyInt 3)) "^" (NumberNode (PyInt 2))))))).
Proof.
  split; [vm_compute; reflexivity|].
  split; [vm_compute; reflexivity|].
  split; intros; reflexivity.
Qed.


(** C10: a parser built from an empty token list returns [None] from
    [parse]: no program node and no exception. *)
Theorem parse_of_no_tokens_is_None :
  Parser_init None (Some []) = inr (initial []) /\
  parse (initial []) = Ok None (initial []) /\
  parse_tokens [] = Returns None.
Proof. repeat split. Qed.

(** ** The end of the input *)

(** Nothing inside [parse] catches an exception of [parse_program]. *)
Lemma parse_propagates self e s :
  tokens self <> [] ->
  parse_program (enough_fuel self) self = Raise e s ->
  parse self = Raise e s.
Proof.
  intros Hn H. unfold parse. destruct (tokens self); [congruence|].
  unfold bind. rewrite H. reflexivity.
Qed.

(** C7: once [parse_program] has returned, [parse] looks at the current
    token: a token other than [EOF] is a [SyntaxError] naming that token
    and its position, and no tree is returned; on [EOF] the tree is
    returned.  So [2 3] and [2 )] are rejected at the second token. *)
Theorem trailing_tokens_are_a_syntax_error :
  (forall self ast s t,
     tokens self <> [] ->
     parse_program (enough_fuel self) self = Ok ast s ->
     current_token s = Some t ->
     type t <> EOF ->
     parse self = Raise (SyntaxError (UnexpectedToken t) (position t)) s) /\
  (forall self ast s t,
     tokens self <> [] ->
     parse_program (enough_fuel self) self = Ok ast s ->
     current_token s = Some t ->
     type t = EOF ->
     parse self = Ok (Some ast) s) /\
  (forall a t rest p,
     type t <> EOF -> precedence (type t) = None ->
     parse_tokens (mkToken IDENTIFIER a p :: t :: rest) =
     Raises (SyntaxError (UnexpectedToken t) (position t))) /\
  parse_text "2 3" =
    Raises (SyntaxError (UnexpectedToken (mkToken INTEGER "3" 2)) 2) /\
  parse_text "2 )" =
    Raises (SyntaxError (UnexpectedToken (mkToken RPAREN ")" 2)) 2) /\
  parse_text "(2))" =
    Raises (SyntaxError (UnexpectedToken (mkToken RPAREN ")" 3)) 3).
Proof.
  split; [|split; [|split]].
  - intros self ast s t Hn Hp Ht Ht'. unfold parse.
    destruct (tokens self); [congruence|].
    unfold bind, attr_current_token. rewrite Hp, Ht.
    apply TokenType_eqb_neq in Ht'. rewrite Ht'. reflexivity.
  - intros self ast s t Hn Hp Ht Ht'. unfold parse.
    destruct (tokens self); [congruence|].
    unfold bind, attr_current_token. rewrite Hp, Ht, Ht'. reflexivity.
  - intros a [ty v' p'] rest p Hne Hprec. simpl in *.
    destruct ty; try discriminate Hprec; try congruence; reflexivity.
  - repeat split; vm_compute; reflexivity.
Qed.

Lemma trailing_tokens_are_a_syntax_error_witness :
  let two := mkToken INTEGER "2" 0 in
  let three := mkToken INTEGER "3" 2 in
  let eof := mkToken EOF "" 3 in
  parse (initial [two; three; eof]) =
    Raise (SyntaxError (UnexpectedToken three) 2)
      (mkParser [two; three; eof] 1 (Some three)) /\
  parse (initial [two; eof]) =
    Ok (Some (ProgramNode (NumberNode (PyInt 2))))
      (mkParser [two; eof] 1 (Some eof)) /\
  parse_tokens [mkToken IDENTIFIER "x" 0; three; eof] =
    Raises (SyntaxError (UnexpectedToken three) 2).
Proof.
  intros two three eof.
  destruct trailing_tokens_are_a_syntax_error as (Hbad & Hgood & Htok & _).
  split; [|split].
  - apply (Hbad (initial [two; three; eof]) (ProgramNode (NumberNode (PyInt 2)))
             (mkParser [two; three; eof] 1 (Some three)) three);
      [discriminate | reflexivity | reflexivity | discriminate].
  - apply (Hgood (initial [two; eof]) (ProgramNode (NumberNode (PyInt 2)))
             (mkParser [two; eof] 1 (Some eof)) eof);
      [discriminate | reflexivity | reflexivity | reflexivity].
  - apply (Htok "x"%string three [eof] 0%Z); [discriminate | reflexivity].
Defined.

(** ** Function calls *)

Lemma bind_advance {A} (k : unit -> M A) self :
  bind advance k self = k tt (advanced self).
Proof. reflexivity. Qed.

Lemma bind_attr {A} (k : Token -> M A) self t :
  current_token self = Some t -> bind attr_current_token k self = k t self.
Proof. intros H. unfold bind, attr_current_token. now rewrite H. Qed.

Lemma bind_Ok {A B} (m : M A) (k : A -> M B) self a s :
  m self = Ok a s -> bind m k self = k a s.
Proof. intros H. unfold bind. now rewrite H. Qed.

Lemma bind_Raise {A B} (m : M A) (k : A -> M B) self e s :
  m self = Raise e s -> bind m k self = Raise e s.
Proof. intros H. unfold bind. now rewrite H. Qed.

(** Run the straight-line head of a method body. *)
Ltac run :=
  repeat first
    [ rewrite bind_advance; cbv beta
    | match goal with
      | H : current_token ?s = Some ?t |- context [bind attr_current_token _ ?s] =>
          rewrite (bind_attr _ _ H); cbv beta
      end ].

Lemma parse_primary_function fuel self f :
  current_token self = Some f -> is_function_name (type f) = true ->
  parse_primary (S fuel) self = _parse_function_call fuel f self.
Proof.
  intros Hf Hn. rewrite parse_primary_eq. run.
  destruct (type f); try discriminate Hn; reflexivity.
Qed.

Lemma _parse_function_call_arguments fuel self f lp t0 :
  current_token (advanced self) = Some lp ->
  type lp = LPAREN ->
  current_token (advanced (advanced self)) = Some t0 ->
  _parse_function_call (S fuel) f self =
  (arguments <- call_arguments fuel t0 ;;
   t <- attr_current_token ;;
   if negb (TokenType_eqb (type t) RPAREN) then
     raise (SyntaxError ExpectedRParen (position t))
   else
     advance ;;;
     ret (FunctionCallNode (value f) arguments)) (advanced (advanced self)).
Proof.
  intros Hlp Tlp Ht0. rewrite _parse_function_call_eq. run.
  rewrite Tlp. cbn [TokenType_eqb negb]. run. reflexivity.
Qed.

(** An exception of the first primary is the exception of [parse]. *)
Lemma first_primary_error toks e s :
  toks <> [] ->
  (forall fuel, parse_primary (S (S fuel)) (initial toks) = Raise e s) ->
  parse_tokens toks = Raises e.
Proof.
  intros Hn H. unfold parse_tokens. rewrite Parser_init_tokens.
  rewrite (@parse_propagates (initial toks) e s); [reflexivity | assumption |].
  unfold enough_fuel, parse_program.
  change (8 + 4 * List.length (tokens (initial toks)))
    with (S (S (S (S (4 + 4 * List.length (tokens (initial toks))))))).
  rewrite parse_expression_eq, parse_binary_expression_eq.
  apply bind_Raise, bind_Raise, H.
Qed.

(** C6: a function name not followed by [(], a call whose arguments are
    not followed by [)], and a comma followed by [)] each raise a
    [SyntaxError] with the position of the offending token; the exception
    takes the place of any result. *)
Theorem malformed_calls_are_syntax_errors :
  (forall fuel self f t,
     current_token self = Some f -> is_function_name (type f) = true ->
     current_token (advanced self) = Some t ->
     type t <> LPAREN ->
     parse_primary (S (S fuel)) self =
     Raise (SyntaxError ExpectedLParenAfterFunctionName (position t))
       (advanced self)) /\
  (forall fuel self f lp t0 arguments s t,
     current_token self = Some f -> is_function_name (type f) = true ->
     current_token (advanced self) = Some lp -> type lp = LPAREN ->
     current_token (advanced (advanced self)) = Some t0 ->
     call_arguments fuel t0 (advanced (advanced self)) = Ok arguments s ->
     current_token s = Some t -> type t <> RPAREN ->
     parse_primary (S (S fuel)) self =
     Raise (SyntaxError ExpectedRParen (position t)) s) /\
  (forall fuel self arguments c t,
     current_token self = Some c -> type c = COMMA ->
     current_token (advanced self) = Some t -> type t = RPAREN ->
     arguments_while (4 + fuel) arguments self =
     Raise (SyntaxError (UnexpectedToken t) (position t)) (advanced self)) /\
  (forall f t rest,
     is_function_name (type f) = true -> type t <> LPAREN ->
     parse_tokens (f :: t :: rest) =
     Raises (SyntaxError ExpectedLParenAfterFunctionName (position t))) /\
  (forall f a l e p1 p2 p3,
     is_function_name (type f) = true ->
     parse_tokens [f; mkToken LPAREN l p1; mkToken IDENTIFIER a p2; mkToken EOF e p3] =
     Raises (SyntaxError ExpectedRParen p3)) /\
  (forall f a l c r e p1 p2 p3 p4 p5,
     is_function_name (type f) = true ->
     parse_tokens
       [f; mkToken LPAREN l p1; mkToken IDENTIFIER a p2; mkToken COMMA c p3;
        mkToken RPAREN r p4; mkToken EOF e p5] =
     Raises (SyntaxError (UnexpectedToken (mkToken RPAREN r p4)) p4)) /\
  (exists p, parse_text "sin(1" = Raises (SyntaxError ExpectedRParen p)) /\
  parse_text "sin 1" = Raises (SyntaxError ExpectedLParenAfterFunctionName 4) /\
  parse_text "sin(1,)" =
    Raises (SyntaxError (UnexpectedToken (mkToken RPAREN ")" 6)) 6).
Proof.
  assert (Hopen : forall fuel self f t,
     current_token self = Some f -> is_function_name (type f) = true ->
     current_token (advanced self) = Some t ->
     type t <> LPAREN ->
     parse_primary (S (S fuel)) self =
     Raise (SyntaxError ExpectedLParenAfterFunctionName (position t))
       (advanced self)).
  { intros fuel self f t Hf Hn Ht Hl.
    rewrite (parse_primary_function _ _ Hf Hn), _parse_function_call_eq. run.
    apply TokenType_eqb_neq in Hl. rewrite Hl. reflexivity. }
  split; [exact Hopen|].
  split; [|split; [|split; [|split; [|split]]]].
  - intros fuel self f lp t0 arguments s t Hf Hn Hlp Tlp Ht0 Hargs Ht Hr.
    rewrite (parse_primary_function _ _ Hf Hn).
    rewrite (_parse_function_call_arguments _ _ _ Hlp Tlp Ht0).
    rewrite (bind_Ok _ _ _ Hargs). run.
    apply TokenType_eqb_neq in Hr. rewrite Hr. reflexivity.
  - intros fuel self arguments c t Hc Tc Ht Tt.
    change (4 + fuel) with (S (S (S (S fuel)))).
    rewrite arguments_while_eq. run. rewrite Tc. cbn [TokenType_eqb negb].
    run. apply bind_Raise.
    rewrite parse_expression_eq, parse_binary_expression_eq. apply bind_Raise.
    rewrite parse_primary_eq. run. rewrite Tt. reflexivity.
  - intros f t rest Hn Hl.
    apply first_primary_error with (s := advanced (initial (f :: t :: rest)));
      [discriminate|].
    intros fuel. apply (Hopen fuel (initial (f :: t :: rest)) f t); auto.
  - intros [ty v p] a l e p1 p2 p3 Hn.
    destruct ty; try discriminate Hn; reflexivity.
  - intros [ty v p] a l c r e p1 p2 p3 p4 p5 Hn.
    destruct ty; try discriminate Hn; reflexivity.
  - split; [eexists; vm_compute; reflexivity|].
    split; vm_compute; reflexivity.
Qed.

Lemma malformed_calls_are_syntax_errors_witness :
  let sin := mkToken SIN "sin" 0 in
  let lp := mkToken LPAREN "(" 3 in
  let one := mkToken INTEGER "1" 4 in
  let comma := mkToken COMMA "," 5 in
  let rp := mkToken RPAREN ")" 6 in
  let eof5 := mkToken EOF "" 5 in
  let eof7 := mkToken EOF "" 7 in
  parse_primary 2 (initial [sin; one; eof5]) =
    Raise (SyntaxError ExpectedLParenAfterFunctionName 4)
      (mkParser [sin; one; eof5] 1 (Some one)) /\
  parse_primary 5 (initial [sin; lp; one; eof5]) =
    Raise (SyntaxError ExpectedRParen 5)
      (mkParser [sin; lp; one; eof5] 3 (Some eof5)) /\
  arguments_while 4 [NumberNode (PyInt 1)]
      (mkParser [sin; lp; one; comma; rp; eof7] 3 (Some comma)) =
    Raise (SyntaxError (UnexpectedToken rp) 6)
      (mkParser [sin; lp; one; comma; rp; eof7] 4 (Some rp)) /\
  parse_tokens [sin; one; eof5] =
    Raises (SyntaxError ExpectedLParenAfterFunctionName 4) /\
  parse_tokens [sin; lp; mkToken IDENTIFIER "x" 4; eof5] =
    Raises (SyntaxError ExpectedRParen 5) /\
  parse_tokens [sin; lp; mkToken IDENTIFIER "x" 4; comma; rp; eof7] =
    Raises (SyntaxError (UnexpectedToken rp) 6).
Proof.
  intros sin lp one comma rp eof5 eof7.
  destruct malformed_calls_are_syntax_errors
    as (Hopen & Hclose & Hcomma & Topen & Tclose & Tcomma & _).
  split; [|split; [|split; [|split; [|split]]]].
  - apply (Hopen 0 (initial [sin; one; eof5]) sin one);
      [reflexivity | reflexivity | reflexivity | discriminate].
  - apply (Hclose 3 (initial [sin; lp; one; eof5]) sin lp one
             [NumberNode (PyInt 1)] (mkParser [sin; lp; one; eof5] 3 (Some eof5))
             eof5);
      [reflexivity | reflexivity | reflexivity | reflexivity | reflexivity
      | reflexivity | reflexivity | discriminate].
  - apply (Hcomma 0 (mkParser [sin; lp; one; comma; rp; eof7] 3 (Some comma))
             [NumberNode (PyInt 1)] comma rp);
      [reflexivity | reflexivity | reflexivity | reflexivity].
  - apply (Topen sin one [eof5]); [reflexivity | discriminate].
  - apply (Tclose sin "x"%string "("%string ""%string 3%Z 4%Z 5%Z). reflexivity.
  - apply (Tcomma sin "x"%string "("%string ","%string ")"%string ""%string
             3%Z 4%Z 5%Z 6%Z 7%Z). reflexivity.
Defined.

(** ** What [parse] returns *)

Lemma EOF_is_last ts i t :
  ends_with_only_EOF ts = true ->
  nth_error ts i = Some t -> type t = EOF -> S i = List.length ts.
Proof.
  revert i. induction ts as [|a ts IH]; intros i Hw Hn Ht.
  - discriminate.
  - destruct ts as [|b ts].
    + destruct i as [|[|i]]; simpl in *; try discriminate; reflexivity.
    + change (ends_with_only_EOF (a :: b :: ts))
        with (negb (TokenType_eqb (type a) EOF) && ends_with_only_EOF (b :: ts))
        in Hw.
      apply andb_true_iff in Hw as (Ha & Hw).
      destruct i as [|i].
      * injection Hn as <-. rewrite Ht in Ha. discriminate.
      * simpl in Hn. pose proof (IH i Hw Hn Ht). simpl in *. lia.
Qed.

(** The shape of a successful [parse] over at least one token. *)
Lemma parse_returns self v s :
  tokens self <> [] -> parse self = Ok v s ->
  exists expression t,
    v = Some (ProgramNode expression) /\
    parse_expression (enough_fuel self) self = Ok expression s /\
    current_token s = Some t /\ type t = EOF.
Proof.
  intros Hn. unfold parse. destruct (tokens self) as [|t0 ts0]; [congruence|].
  unfold parse_program, bind, ret, raise, attr_current_token.
  destruct (parse_expression (enough_fuel self) self) as [expression s'| |];
    try discriminate.
  destruct (current_token s') as [t|] eqn:Ht; try discriminate.
  destruct (TokenType_eqb (type t) EOF) eqn:Te; simpl; try discriminate.
  intros H. injection H as <- <-. exists expression, t.
  apply TokenType_eqb_eq in Te. auto.
Qed.

Lemma result_Returns {A} (o : Outcome A) :
  o <> OutOfFuel -> (forall e, result o <> Raises e) ->
  exists a s, o = Ok a s.
Proof.
  destruct o as [a s|e s|]; intros Hf Hr.
  - eauto.
  - exfalso. apply (Hr e). reflexivity.
  - congruence.
Qed.

Lemma parse_counts toks expression s :
  ends_with_only_EOF toks = true ->
  parse (initial toks) = Ok (Some (ProgramNode expression)) s ->
  leaf_count (ProgramNode expression) = leaf_tokens toks /\
  internal_count (ProgramNode expression) < List.length toks.
Proof.
  intros Hw Hp.
  assert (Hn : tokens (initial toks) <> []).
  { simpl. intros ->. discriminate. }
  destruct (@parse_returns _ _ _ Hn Hp) as (e & t & He & Hrun & Ht & Te).
  injection He as <-.
  destruct (methods_count (enough_fuel (initial toks))) as (Hcount & _).
  specialize (Hcount (initial toks) (initial_consistent toks)).
  unfold counts_node, post in Hcount. rewrite Hrun in Hcount.
  destruct Hcount as (Hc & Htok & Hleaves & Hinner).
  simpl in Htok. unfold consistent in Hc. rewrite Ht, Htok in Hc.
  pose proof (@EOF_is_last _ _ _ Hw (eq_sym Hc) Te) as Hlast.
  unfold consumed_leaves in Hleaves. rewrite Htok in Hleaves.
  simpl in Hleaves, Hinner |- *.
  assert (Hall : leaf_tokens toks =
                 leaf_tokens (firstn (current_token_index s) toks)).
  { rewrite <- (firstn_all toks) at 1. rewrite <- Hlast.
    rewrite (firstn_succ _ _ (eq_sym Hc)), leaf_tokens_app.
    unfold leaf_tokens at 2, is_leaf_token. simpl. rewrite Te. simpl. lia. }
  unfold leaf_tokens in *. simpl in *. lia.
Qed.

Lemma valid_input_gives_counted_program_tokens :
  (forall toks, parse_tokens toks <> Diverges) /\
  (forall toks,
     ends_with_only_EOF toks = true ->
     (forall e, parse_tokens toks <> Raises e) ->
     exists expression,
       parse_tokens toks = Returns (Some (ProgramNode expression)) /\
       leaf_count (ProgramNode expression) = leaf_tokens toks /\
       internal_count (ProgramNode expression) < List.length toks).
Proof.
  split; [exact parse_tokens_terminates|].
  intros toks Hw Hr. unfold parse_tokens in *. rewrite Parser_init_tokens in *.
  destruct (result_Returns (parse_terminates (initial_consistent toks)) Hr)
    as (v & s & Hp).
  assert (Hn : tokens (initial toks) <> []).
  { simpl. intros ->. discriminate. }
  destruct (@parse_returns _ _ _ Hn Hp) as (e & t & -> & _).
  exists e. rewrite Hp. split; [reflexivity|].
  eapply parse_counts; eauto.
Qed.

(** ** Where [parse] stops *)

(** Over a token sequence that ends with its only [EOF], [parse] stops
    with the cursor on a token, with a [Program], a [SyntaxError] at the
    current token, or the [ValueError] of a numeric token whose text is no
    literal. *)
Lemma parse_stays_on_a_token toks :
  ends_with_only_EOF toks = true ->
  match parse (initial toks) with
  | Ok v s =>
      (exists expression, v = Some (ProgramNode expression)) /\
      current_token s <> None /\
      current_token_index s < List.length toks
  | Raise e s =>
      current_token s <> None /\
      current_token_index s < List.length toks /\
      e <> AttributeError /\
      ((exists m t, current_token s = Some t /\ e = SyntaxError m (position t)) \/
       (exists t, In t toks /\ (type t = INTEGER \/ type t = FLOAT) /\
                  number_value t = None /\ e = ValueError (value t))) /\
      ((forall t, In t toks -> type t = INTEGER \/ type t = FLOAT ->
                  number_value t <> None) ->
       exists m p, e = SyntaxError m p)
  | OutOfFuel => False
  end.
Proof.
  intros Hw.
  pose proof (initial_on_token _ Hw) as Ho.
  pose proof (parse_terminates (initial_consistent toks)) as Hterm.
  assert (Hn : tokens (initial toks) <> []).
  { simpl. intros ->. discriminate. }
  assert (Hcur : forall s, kept (initial toks) s ->
            current_token s <> None /\ current_token_index s < List.length toks).
  { intros s (Hs & Htok). destruct (on_token_current Hs) as (t & Ht).
    split; [congruence|]. destruct Hs as (_ & _ & Hi). now rewrite Htok in Hi. }
  assert (Herr : forall e s, kept_error (initial toks) e s ->
    current_token s <> None /\
    current_token_index s < List.length toks /\
    e <> AttributeError /\
    ((exists m t, current_token s = Some t /\ e = SyntaxError m (position t)) \/
     (exists t, In t toks /\ (type t = INTEGER \/ type t = FLOAT) /\
                number_value t = None /\ e = ValueError (value t))) /\
    ((forall t, In t toks -> type t = INTEGER \/ type t = FLOAT ->
                number_value t <> None) ->
     exists m p, e = SyntaxError m p)).
  { intros e s (Hk & He). destruct (Hcur s Hk) as (H1 & H2).
    assert (Htok : tokens s = toks) by apply Hk.
    unfold parser_error in He. rewrite Htok in He.
    repeat split; auto.
    - destruct He as [(m & t & _ & ->)|(t & _ & _ & _ & ->)]; discriminate.
    - intros Hall. destruct He as [(m & t & _ & ->)|(t & Hin & Hty & Hv & ->)].
      + eauto.
      + exfalso. apply (Hall t Hin Hty Hv). }
  destruct (methods_stay_on_token (enough_fuel (initial toks))) as (Hstay & _).
  specialize (Hstay (initial toks) Ho). unfold stays_on_token, post in Hstay.
  destruct (parse (initial toks)) as [v s|e s|] eqn:Hp; [| |congruence].
  - destruct (@parse_returns _ _ _ Hn Hp) as (x & t & -> & Hrun & Ht & Te).
    rewrite Hrun in Hstay. split; [eauto|]. apply Hcur, Hstay.
  - apply Herr. revert Hp. unfold parse. simpl tokens.
    destruct toks as [|t0 ts0]; [congruence|].
    unfold parse_program, bind, ret, raise, attr_current_token.
    destruct (parse_expression _ _) as [x s'|e' s'|]; try discriminate.
    + destruct (current_token s') as [t|] eqn:Ht.
      * destruct (negb _); intros H; inversion H; subst.
        split; [exact Hstay | left; eauto].
      * exfalso. destruct (on_token_current (proj1 Hstay)). congruence.
    + intros H; inversion H; subst. exact Hstay.
Qed.

(** C9 as stated fails: an [INTEGER] token whose text [int()] rejects, as
    another front end may build, makes [parse] raise [ValueError], which is
    neither an AST nor a [SyntaxError]. *)
Lemma parse_can_raise_ValueError :
  let toks := [mkToken INTEGER "0x1F" 0; mkToken EOF "" 4] in
  ends_with_only_EOF toks = true /\
  parse_tokens toks = Raises (ValueError "0x1F") /\
  ~ ((exists ast, parse_tokens toks = Returns ast) \/
     (exists m p, parse_tokens toks = Raises (SyntaxError m p))).
Proof.
  intros toks. split; [reflexivity|]. split; [reflexivity|].
  intros [(ast & H)|(m & p & H)]; vm_compute in H; discriminate.
Qed.

(** ** Leaf tokens *)

Lemma parse_primary_leaf fuel self t n :
  current_token self = Some t -> leaf_node t = Some n ->
  parse_primary (S fuel) self = Ok n (advanced self).
Proof.
  intros Ht Hn. rewrite parse_primary_eq. run.
  unfold leaf_node in Hn.
  destruct (type t); try discriminate Hn; run;
    try (destruct (number_value t); simpl in Hn; [|discriminate Hn]);
    injection Hn as <-; reflexivity.
Qed.

Lemma leaf_node_not_RPAREN t n :
  leaf_node t = Some n -> TokenType_eqb (type t) RPAREN = false.
Proof. unfold leaf_node. destruct (type t); simpl; congruence. Qed.

(** ** More fuel changes nothing *)

Lemma settles_refl {A} (o : Outcome A) : settles o o.
Proof. intros _. reflexivity. Qed.

Lemma settles_bind {A B} (m m' : M A) (k k' : A -> M B) self :
  settles (m self) (m' self) ->
  (forall a s, settles (k a s) (k' a s)) ->
  settles (bind m k self) (bind m' k' self).
Proof.
  unfold settles, bind. intros Hm Hk.
  destruct (m self) as [a s|e s|] eqn:E.
  - rewrite Hm by discriminate. apply Hk.
  - rewrite Hm by discriminate. reflexivity.
  - congruence.
Qed.

Ltac settle :=
  repeat first
    [ apply settles_refl
    | apply settles_bind; [ | intros ? ? ]
    | match goal with
      | |- settles ((if ?b then _ else _) _) _ => destruct b
      | |- settles ((match ?x with _ => _ end) _) _ => destruct x
      | H : forall self, settles (?f ?fuel self) _ |- settles (?f ?fuel _) _ =>
          apply H
      | H : forall self p, settles (?f ?fuel p self) _ |- settles (?f ?fuel _ _) _ =>
          apply H
      | H : forall self p l, settles (?f ?fuel p l self) _
        |- settles (?f ?fuel _ _ _) _ => apply H
      end ].

Lemma one_more_fuel fuel :
  (forall self, settles (parse_expression fuel self) (parse_expression (S fuel) self)) /\
  (forall self p, settles (parse_binary_expression fuel p self)
                    (parse_binary_expression (S fuel) p self)) /\
  (forall self p l, settles (binary_expression_while fuel p l self)
                      (binary_expression_while (S fuel) p l self)) /\
  (forall self, settles (parse_primary fuel self) (parse_primary (S fuel) self)) /\
  (forall self f, settles (_parse_function_call fuel f self)
                    (_parse_function_call (S fuel) f self)) /\
  (forall self args, settles (arguments_while fuel args self)
                       (arguments_while (S fuel) args self)) /\
  (forall self, settles (_parse_parenthesized_expression fuel self)
                  (_parse_parenthesized_expression (S fuel) self)).
Proof.
  induction fuel as [|fuel (IHe & IHb & IHw & IHp & IHf & IHa & IHg)].
  { repeat split; intros; intros H; exfalso; apply H; reflexivity. }
  repeat split; intros.
  - rewrite !parse_expression_eq. settle.
  - rewrite !parse_binary_expression_eq. settle.
  - rewrite !binary_expression_while_eq. settle.
  - rewrite !parse_primary_eq. settle.
  - rewrite !_parse_function_call_eq. settle.
  - rewrite !arguments_while_eq. settle.
  - rewrite !_parse_parenthesized_expression_eq. settle.
Qed.

(** Once [parse_program] has an outcome, any larger fuel gives the same
    one: the amount [enough_fuel] is not special. *)
Lemma parse_program_fuel_independent fuel fuel' self :
  fuel <= fuel' ->
  parse_program fuel self <> OutOfFuel ->
  parse_program fuel' self = parse_program fuel self.
Proof.
  induction 1 as [|fuel' Hle IH]; intros Hn; [reflexivity|].
  specialize (IH Hn). rewrite <- IH in Hn |- *.
  unfold parse_program in *.
  apply settles_bind; auto using settles_refl.
  apply (proj1 (one_more_fuel fuel')).
Qed.

(** ** The token sequences of the tokenizer *)

Lemma identifier_type_not_EOF lexeme : identifier_type lexeme <> EOF.
Proof.
  unfold identifier_type.
  repeat match goal with |- context [if ?b then _ else _] => destruct b end;
    discriminate.
Qed.

Lemma flush_not_EOF st : Forall not_EOF_token (flush st).
Proof.
  destruct st; simpl; repeat constructor; unfold not_EOF_token; simpl;
    try discriminate. apply identifier_type_not_EOF.
Qed.

Lemma begin_not_EOF c pos emitted st :
  begin c pos = inr (emitted, st) -> Forall not_EOF_token emitted.
Proof.
  unfold begin, single_character_token.
  repeat match goal with
         | |- context [if ?b then _ else _] => destruct b
         end;
    intros H; inversion H; subst; repeat constructor; discriminate.
Qed.

Lemma ends_with_only_EOF_app l ts :
  Forall not_EOF_token l -> ends_with_only_EOF ts = true ->
  ends_with_only_EOF (l ++ ts) = true.
Proof.
  induction 1 as [|a l Ha Hl IH]; intros Hts; [assumption|].
  specialize (IH Hts). simpl app.
  destruct (l ++ ts) as [|b r] eqn:E; [discriminate IH|].
  change (negb (TokenType_eqb (type a) EOF) && ends_with_only_EOF (b :: r) = true).
  rewrite IH. apply TokenType_eqb_neq in Ha. now rewrite Ha.
Qed.

Lemma scan_ends_with_only_EOF cs :
  forall st pos ts, scan st pos cs = inr ts -> ends_with_only_EOF ts = true.
Proof.
  induction cs as [|c cs IH]; intros st pos ts; simpl.
  - intros H. injection H as <-.
    apply ends_with_only_EOF_app; [apply flush_not_EOF | reflexivity].
  - destruct (extend st c) as [st'|]; [apply IH|].
    destruct (begin c pos) as [e|[emitted st']] eqn:Eb; [discriminate|].
    destruct (scan st' (pos + 1)%Z cs) as [e|ts'] eqn:Es; [discriminate|].
    intros H. injection H as <-.
    apply ends_with_only_EOF_app; [apply flush_not_EOF|].
    apply ends_with_only_EOF_app; [eapply begin_not_EOF; eauto|].
    eapply IH; eauto.
Qed.

(** The tokenizer's sequences end with their only [EOF]. *)
Lemma get_tokens_ends_with_only_EOF text ts :
  get_tokens text = inr ts -> ends_with_only_EOF ts = true.
Proof. apply scan_ends_with_only_EOF. Qed.

(** From a text: when [parse_text] raises nothing, its result is a
    [Program] with one leaf per leaf token of the text and fewer inner nodes
    than tokens. *)
Lemma parse_text_counts text :
  (forall e, parse_text text <> Raises e) ->
  exists ts expression,
    get_tokens text = inr ts /\
    parse_text text = Returns (Some (ProgramNode expression)) /\
    leaf_count (ProgramNode expression) = leaf_tokens ts /\
    internal_count (ProgramNode expression) < List.length ts.
Proof.
  intros Hr. unfold parse_text, Parser_init in *.
  destruct (get_tokens text) as [e|ts] eqn:Et.
  - exfalso. apply (Hr e). reflexivity.
  - pose proof (get_tokens_ends_with_only_EOF _ Et) as Hw.
    destruct (proj2 valid_input_gives_counted_program_tokens ts Hw Hr)
      as (x & Hp & Hc).
    exists ts, x. split; [reflexivity|]. split; [exact Hp | exact Hc].
Qed.

(** ** The parser accepts the grammar *)

Unset Implicit Arguments.

Lemma nth_error_skipn_hd (T : list Token) i : nth_error T i = hd_error (skipn i T).
Proof.
  revert T. induction i as [|i IH]; intros [|t T]; simpl; auto.
Qed.

Lemma skipn_current T i t x :
  skipn i T = t :: x -> current_token (at_index T i) = Some t.
Proof. intros H. simpl. rewrite nth_error_skipn_hd, H. reflexivity. Qed.

Lemma skipn_next (T : list Token) i t x :
  skipn i T = t :: x -> skipn (S i) T = x.
Proof.
  revert T. induction i as [|i IH]; intros [|a T]; simpl; try discriminate.
  - congruence.
  - destruct T; [destruct i; discriminate | apply IH].
Qed.

Lemma skipn_past (T : list Token) a :
  forall i x, skipn i T = a ++ x -> skipn (i + List.length a) T = x.
Proof.
  induction a as [|t a IH]; intros i x H; simpl in *.
  - now rewrite Nat.add_0_r.
  - rewrite Nat.add_succ_r. apply (IH (S i)). eapply skipn_next; eauto.
Qed.

Lemma precedence_positive ty p : precedence ty = Some p -> (1 <= p)%Z.
Proof. destruct ty; simpl; intros H; inversion H; lia. Qed.

Lemma stops_at_zero s : stops 0 s -> s = [].
Proof.
  intros [H|(op & p & e & _ & Hp & Hlt & _)]; [assumption|].
  apply precedence_positive in Hp. lia.
Qed.

Lemma is_primary_head p :
  is_primary p ->
  exists t x, p = t :: x /\ TokenType_eqb (type t) RPAREN = false.
Proof.
  destruct 1 as [t n Hn|f lp args rp Hf _ _ _|lp e rp Hl _ _|sign p Hs _|sign p Hs _];
    eexists; eexists; (split; [reflexivity|]).
  - eapply leaf_node_not_RPAREN; eauto.
  - destruct (type f); try discriminate Hf; reflexivity.
  - now rewrite Hl.
  - now rewrite Hs.
  - now rewrite Hs.
Qed.

Lemma is_expression_head e :
  is_expression e ->
  exists t x, e = t :: x /\ TokenType_eqb (type t) RPAREN = false.
Proof.
  destruct 1 as [p Hp|p op prec e Hp _ _];
    destruct (is_primary_head _ Hp) as (t & x & -> & Ht); simpl; eauto.
Qed.

Lemma more_arguments_follow more rp rest :
  is_more_arguments more -> type rp = RPAREN -> follows (more ++ rp :: rest).
Proof.
  intros [|c e more' Hc _ _] Hr; simpl.
  - exists rp, rest. now rewrite Hr.
  - eexists c, _. now rewrite Hc.
Qed.

Lemma stops_chain_tail m s : stops m s -> chain_tail s.
Proof.
  intros [H|(op & p & e & H1 & H2 & _ & H3)]; [left; auto|].
  right. exists op, p, e. auto.
Qed.

Ltac enough_fuel_for n :=
  exists n; intros [|?fuel] ?Hfuel; [lia|].

Lemma while_accepted_nil : while_accepted [].
Proof.
  intros m left. exists left, [], [].
  split; [reflexivity|]. split; [left; reflexivity|].
  intros T i rest Hs (t & rest' & -> & Hp). simpl in Hs.
  enough_fuel_for 1.
  rewrite binary_expression_while_eq, (bind_attr _ _ (skipn_current _ _ _ _ Hs)), Hp.
  simpl. rewrite Nat.add_0_r. reflexivity.
Qed.

Lemma more_accepted_nil : more_accepted [].
Proof.
  exists []. intros acc T i rp rest Hs Hr. simpl in Hs.
  enough_fuel_for 1.
  rewrite arguments_while_eq, (bind_attr _ _ (skipn_current _ _ _ _ Hs)), Hr.
  simpl. rewrite Nat.add_0_r, app_nil_r. reflexivity.
Qed.

Lemma while_accepted_step n :
  accepted_upto n ->
  forall w, List.length w <= S n -> chain_tail w -> while_accepted w.
Proof.
  intros IH w Hlen [->|(op & prec & e & -> & Hprec & He)].
  { apply while_accepted_nil. }
  intros m left. simpl in Hlen.
  destruct (m <=? prec)%Z eqn:Hm.
  - (* the operator is taken *)
    destruct (proj1 (proj2 (IH e ltac:(lia))) He
                (if TokenType_eqb (type op) POWER then (prec - 1)%Z else (prec + 1)%Z))
      as (right & e1 & s1 & -> & Hstop1 & Hright).
    rewrite length_app in Hlen.
    destruct (proj1 (proj2 (proj2 (IH s1 ltac:(lia)))) (stops_chain_tail _ _ Hstop1)
                m (BinaryOpNode left (value op) right))
      as (node & w1 & s & -> & Hstop & Hloop).
    exists node, (op :: e1 ++ w1), s.
    split; [simpl; now rewrite app_assoc|]. split; [assumption|].
    intros T i rest Hs Hfollow. simpl in Hs.
    pose proof (skipn_current _ _ _ _ Hs) as Hcur.
    pose proof (skipn_next _ _ _ _ Hs) as Hs1.
    destruct (Hright T (S i) rest Hs1 Hfollow) as (f1 & Hr).
    rewrite <- app_assoc in Hs1. pose proof (skipn_past _ _ _ _ Hs1) as Hs2.
    destruct (Hloop T _ rest Hs2 Hfollow) as (f2 & Hl).
    enough_fuel_for (S (f1 + f2)).
    rewrite binary_expression_while_eq, (bind_attr _ _ Hcur), Hprec, Hm.
    rewrite bind_advance.
    change (advanced (at_index T i)) with (at_index T (S i)).
    rewrite (bind_Ok _ _ _ (Hr fuel ltac:(lia))).
    rewrite (Hl fuel ltac:(lia)).
    replace (S i + List.length e1 + List.length w1)
      with (i + List.length (op :: e1 ++ w1))
      by (simpl; rewrite length_app; lia).
    reflexivity.
  - (* the operator is left to the caller *)
    exists left, [], (op :: e).
    split; [reflexivity|]. split.
    + right. exists op, prec, e. repeat split; auto. apply Z.leb_gt in Hm. lia.
    + intros T i rest Hs Hfollow. simpl in Hs.
      pose proof (skipn_current _ _ _ _ Hs) as Hcur.
      enough_fuel_for 1.
      rewrite binary_expression_while_eq, (bind_attr _ _ Hcur), Hprec, Hm.
      simpl. rewrite Nat.add_0_r. reflexivity.
Qed.

Lemma binary_accepted_step n :
  accepted_upto n ->
  (forall w, List.length w <= S n -> is_primary w -> primary_accepted w) ->
  forall w, List.length w <= S n -> is_expression w -> binary_accepted w.
Proof.
  intros IH Hprimary w Hlen Hw m.
  destruct Hw as [p Hp|p op prec e Hp Hprec He].
  - destruct (Hprimary p Hlen Hp) as (left & Hleft).
    destruct (while_accepted_nil m left) as (node & w1 & s & Hw & Hstop & Hloop).
    destruct w1; [|discriminate]. simpl in Hw. subst s.
    exists node, p, []. split; [now rewrite app_nil_r|]. split; [assumption|].
    intros T i rest Hs Hfollow.
    destruct (Hleft T i rest Hs) as (f1 & Hl).
    pose proof (skipn_past _ _ _ _ Hs) as Hs1.
    destruct (Hloop T _ rest Hs1 Hfollow) as (f2 & Hw).
    enough_fuel_for (S (f1 + f2)).
    rewrite parse_binary_expression_eq, (bind_Ok _ _ _ (Hl fuel ltac:(lia))).
    rewrite (Hw fuel ltac:(lia)). simpl. rewrite Nat.add_0_r. reflexivity.
  - rewrite length_app in Hlen. simpl in Hlen.
    destruct (Hprimary p ltac:(lia) Hp) as (left & Hleft).
    destruct (is_primary_head _ Hp) as (t & x & Ep & _).
    assert (Htail : chain_tail (op :: e)).
    { right. exists op, prec, e. auto. }
    assert (Hshort : List.length (op :: e) <= n).
    { subst p. simpl in *. lia. }
    destruct (proj1 (proj2 (proj2 (IH (op :: e) Hshort))) Htail m left)
      as (node & w1 & s & Hw & Hstop & Hloop).
    exists node, (p ++ w1), s.
    split; [rewrite Hw; now rewrite app_assoc|]. split; [assumption|].
    intros T i rest Hs Hfollow. rewrite <- app_assoc in Hs.
    destruct (Hleft T i _ Hs) as (f1 & Hl).
    pose proof (skipn_past _ _ _ _ Hs) as Hs1.
    change (op :: e ++ rest) with ((op :: e) ++ rest) in Hs1.
    destruct (Hloop T _ rest Hs1 Hfollow) as (f2 & Hwhile).
    enough_fuel_for (S (f1 + f2)).
    rewrite parse_binary_expression_eq, (bind_Ok _ _ _ (Hl fuel ltac:(lia))).
    rewrite (Hwhile fuel ltac:(lia)). rewrite length_app, Nat.add_assoc.
    reflexivity.
Qed.

(** An expression read with minimum precedence 0 is read to its end. *)
Lemma expression_accepted n w :
  accepted_upto n -> List.length w <= n -> is_expression w ->
  exists node, expression_node w node.
Proof.
  intros IH Hlen Hw.
  destruct (proj1 (proj2 (IH w Hlen)) Hw 0%Z)
    as (node & w1 & s & -> & Hstop & Hrun).
  apply stops_at_zero in Hstop. subst s.
  exists node. intros T i rest Hs Hfollow.
  destruct (Hrun T i rest Hs Hfollow) as (f & Hf).
  rewrite app_nil_r. enough_fuel_for (S f).
  rewrite parse_expression_eq. apply Hf. lia.
Qed.

Lemma more_accepted_step n :
  accepted_upto n ->
  forall w, List.length w <= S n -> is_more_arguments w -> more_accepted w.
Proof.
  intros IH w Hlen Hw. destruct Hw as [|c e more Hc He Hmore].
  { apply more_accepted_nil. }
  simpl in Hlen. rewrite length_app in Hlen.
  destruct (expression_accepted n e IH ltac:(lia) He) as (node & Hnode).
  destruct (proj2 (proj2 (proj2 (IH more ltac:(lia)))) Hmore) as (nodes & Hnodes).
  exists (node :: nodes). intros acc T i rp rest Hs Hr. simpl in Hs.
  pose proof (skipn_current _ _ _ _ Hs) as Hcur.
  pose proof (skipn_next _ _ _ _ Hs) as Hs1. rewrite <- app_assoc in Hs1.
  destruct (Hnode T (S i) _ Hs1 (more_arguments_follow _ _ _ Hmore Hr))
    as (f1 & Hrun).
  pose proof (skipn_past _ _ _ _ Hs1) as Hs2.
  destruct (Hnodes (acc ++ [node]) T _ rp rest Hs2 Hr) as (f2 & Hloop).
  enough_fuel_for (S (f1 + f2)).
  rewrite arguments_while_eq, (bind_attr _ _ Hcur), Hc. cbn [TokenType_eqb].
  rewrite bind_advance. change (advanced (at_index T i)) with (at_index T (S i)).
  rewrite (bind_Ok _ _ _ (Hrun fuel ltac:(lia))).
  rewrite (Hloop fuel ltac:(lia)). rewrite <- app_assoc. simpl.
  rewrite length_app.
  replace (S (i + List.length e + List.length more))
    with (i + S (List.length e + List.length more)) by lia.
  reflexivity.
Qed.

(** A call whose arguments, if any, have the trees [arguments]. *)
Lemma call_node f lp args rp arguments :
  is_function_name (type f) = true -> type lp = LPAREN -> type rp = RPAREN ->
  (args = [] /\ arguments = [] \/
   exists e more node nodes,
     args = e ++ more /\ arguments = node :: nodes /\
     is_expression e /\ is_more_arguments more /\
     expression_node e node /\ more_nodes more nodes) ->
  primary_node (f :: lp :: args ++ [rp]) (FunctionCallNode (value f) arguments).
Proof.
  intros Hf Hlp Hrp Hargs T i rest Hs. simpl in Hs.
  pose proof (skipn_current _ _ _ _ Hs) as Hcur.
  pose proof (skipn_next _ _ _ _ Hs) as Hs1.
  pose proof (skipn_current _ _ _ _ Hs1) as Hcur1.
  pose proof (skipn_next _ _ _ _ Hs1) as Hs2.
  rewrite <- app_assoc in Hs2. change ([rp] ++ rest) with (rp :: rest) in Hs2.
  pose proof (skipn_past _ _ _ _ Hs2) as Hs3.
  assert (Hcall : exists t0,
            current_token (at_index T (S (S i))) = Some t0 /\
            returns_at (fun fuel => call_arguments fuel t0) T (S (S i))
              arguments (S (S i) + List.length args)).
  { destruct Hargs as [(-> & ->)|(e & more & node & nodes & -> & -> & He & Hmore
                                   & Hnode & Hnodes)].
    - exists rp. split; [apply (skipn_current _ _ _ _ Hs2)|].
      exists 0. intros fuel _. unfold call_arguments. rewrite Hrp. simpl.
      rewrite Nat.add_0_r. reflexivity.
    - rewrite <- app_assoc in Hs2.
      destruct (is_expression_head _ He) as (t0 & x & Ee & Ht0).
      destruct (Hnode T (S (S i)) _ Hs2 (more_arguments_follow _ _ _ Hmore Hrp))
        as (f1 & Hrun).
      pose proof (skipn_past _ _ _ _ Hs2) as Hs4.
      destruct (Hnodes [node] T _ rp rest Hs4 Hrp) as (f2 & Hloop).
      exists t0. split.
      + rewrite Ee in Hs2. apply (skipn_current _ _ _ _ Hs2).
      + exists (f1 + f2). intros fuel Hfuel.
        unfold call_arguments. rewrite Ht0. cbn [negb].
        rewrite (bind_Ok _ _ _ (Hrun fuel ltac:(lia))).
        rewrite (Hloop fuel ltac:(lia)). rewrite length_app, Nat.add_assoc.
        reflexivity. }
  destruct Hcall as (t0 & Hcur2 & (f0 & Hrun)).
  enough_fuel_for (S (S f0)).
  rewrite (parse_primary_function fuel _ Hcur Hf).
  destruct fuel as [|fuel]; [lia|].
  rewrite (@_parse_function_call_arguments fuel (at_index T i) f lp t0 Hcur1 Hlp Hcur2).
  change (advanced (advanced (at_index T i))) with (at_index T (S (S i))).
  rewrite (bind_Ok _ _ _ (Hrun fuel ltac:(lia))).
  rewrite (bind_attr _ _ (skipn_current _ _ _ _ Hs3)), Hrp. cbn [TokenType_eqb negb].
  rewrite bind_advance. unfold ret. f_equal. unfold advanced, at_index. simpl.
  rewrite length_app. simpl.
  replace (i + S (S (List.length args + 1))) with (S (S (S (i + List.length args))))
    by lia.
  reflexivity.
Qed.

Lemma primary_accepted_step n :
  accepted_upto n ->
  forall w, List.length w <= S n -> is_primary w -> primary_accepted w.
Proof.
  intros IH w Hlen Hw.
  destruct Hw as [t node Hnode|f lp args rp Hf Hlp Hargs Hrp|lp e rp Hlp He Hrp
                 |sign p Hsign Hp|sign p Hsign Hp];
    simpl in Hlen.
  - (* a number or an identifier *)
    exists node. intros T i rest Hs. simpl in Hs.
    pose proof (skipn_current _ _ _ _ Hs) as Hcur.
    enough_fuel_for 1.
    rewrite (parse_primary_leaf fuel _ Hcur Hnode). simpl.
    rewrite Nat.add_1_r. reflexivity.
  - (* a call *)
    rewrite length_app in Hlen. simpl in Hlen.
    destruct Hargs as [|e more He Hmore].
    + exists (FunctionCallNode (value f) []).
      apply call_node; auto.
    + rewrite length_app in Hlen.
      destruct (expression_accepted n e IH ltac:(lia) He) as (node & Hnode).
      destruct (proj2 (proj2 (proj2 (IH more ltac:(lia)))) Hmore)
        as (nodes & Hnodes).
      exists (FunctionCallNode (value f) (node :: nodes)).
      apply call_node; auto.
      right. exists e, more, node, nodes. repeat split; auto.
  - (* a parenthesized expression *)
    rewrite length_app in Hlen. simpl in Hlen.
    destruct (expression_accepted n e IH ltac:(lia) He) as (node & Hnode).
    exists node. intros T i rest Hs. simpl in Hs.
    pose proof (skipn_current _ _ _ _ Hs) as Hcur.
    pose proof (skipn_next _ _ _ _ Hs) as Hs1.
    rewrite <- app_assoc in Hs1. change ([rp] ++ rest) with (rp :: rest) in Hs1.
    assert (Hfollow : follows (rp :: rest)).
    { exists rp, rest. now rewrite Hrp. }
    destruct (Hnode T (S i) _ Hs1 Hfollow) as (f & Hrun).
    pose proof (skipn_past _ _ _ _ Hs1) as Hs2.
    enough_fuel_for (S (S f)).
    rewrite parse_primary_eq, (bind_attr _ _ Hcur), Hlp.
    destruct fuel as [|fuel]; [lia|].
    rewrite _parse_parenthesized_expression_eq, bind_advance.
    change (advanced (at_index T i)) with (at_index T (S i)).
    rewrite (bind_Ok _ _ _ (Hrun fuel ltac:(lia))).
    rewrite (bind_attr _ _ (skipn_current _ _ _ _ Hs2)), Hrp. cbn [TokenType_eqb negb].
    rewrite bind_advance. unfold ret. f_equal. unfold advanced, at_index. simpl.
    rewrite length_app. simpl.
    replace (i + S (List.length e + 1)) with (S (S (i + List.length e))) by lia.
    reflexivity.
  - (* a minus sign *)
    destruct (proj1 (IH p ltac:(lia)) Hp) as (node & Hnode).
    exists (UnaryOpNode "-" node). intros T i rest Hs. simpl in Hs.
    pose proof (skipn_current _ _ _ _ Hs) as Hcur.
    pose proof (skipn_next _ _ _ _ Hs) as Hs1.
    destruct (Hnode T (S i) rest Hs1) as (f & Hrun).
    enough_fuel_for (S f).
    rewrite parse_primary_eq, (bind_attr _ _ Hcur), Hsign, bind_advance.
    change (advanced (at_index T i)) with (at_index T (S i)).
    rewrite (bind_Ok _ _ _ (Hrun fuel ltac:(lia))).
    simpl List.length. rewrite Nat.add_succ_r. reflexivity.
  - (* a plus sign *)
    destruct (proj1 (IH p ltac:(lia)) Hp) as (node & Hnode).
    exists node. intros T i rest Hs. simpl in Hs.
    pose proof (skipn_current _ _ _ _ Hs) as Hcur.
    pose proof (skipn_next _ _ _ _ Hs) as Hs1.
    destruct (Hnode T (S i) rest Hs1) as (f & Hrun).
    enough_fuel_for (S f).
    rewrite parse_primary_eq, (bind_attr _ _ Hcur), Hsign, bind_advance.
    change (advanced (at_index T i)) with (at_index T (S i)).
    rewrite (Hrun fuel ltac:(lia)).
    simpl List.length. rewrite Nat.add_succ_r. reflexivity.
Qed.

Lemma accepted n : accepted_upto n.
Proof.
  induction n as [|n IH]; intros w Hlen.
  - destruct w; [|simpl in Hlen; lia]. repeat split.
    + intros H. destruct (is_primary_head _ H) as (? & ? & ? & _). discriminate.
    + intros H. destruct (is_expression_head _ H) as (? & ? & ? & _). discriminate.
    + intros _. apply while_accepted_nil.
    + intros _. apply more_accepted_nil.
  - pose proof (primary_accepted_step n IH) as Hprimary.
    repeat split.
    + apply Hprimary; assumption.
    + apply (binary_accepted_step n IH Hprimary); assumption.
    + apply (while_accepted_step n IH); assumption.
    + apply (more_accepted_step n IH); assumption.
Qed.

(** Every primary, expression and argument tail of the grammar has a
    tree. *)
Lemma is_primary_node w : is_primary w -> exists node, primary_node w node.
Proof. intros H. exact (proj1 (accepted _ w (Nat.le_refl _)) H). Qed.

Lemma is_expression_node w : is_expression w -> exists node, expression_node w node.
Proof. intros H. exact (expression_accepted _ w (accepted _) (Nat.le_refl _) H). Qed.

Lemma is_more_arguments_nodes w :
  is_more_arguments w -> exists nodes, more_nodes w nodes.
Proof.
  intros H. exact (proj2 (proj2 (proj2 (accepted _ w (Nat.le_refl _)))) H).
Qed.

Scheme is_primary_mutual := Minimality for is_primary Sort Prop
  with is_expression_mutual := Minimality for is_expression Sort Prop
  with is_arguments_mutual := Minimality for is_arguments Sort Prop
  with is_more_arguments_mutual := Minimality for is_more_arguments Sort Prop.

Combined Scheme grammar_mutual from
  is_primary_mutual, is_expression_mutual, is_arguments_mutual,
  is_more_arguments_mutual.

Lemma leaf_node_not_EOF t n : leaf_node t = Some n -> not_EOF_token t.
Proof.
  unfold leaf_node, not_EOF_token. destruct (type t); simpl; congruence.
Qed.

Lemma grammar_has_no_EOF :
  (forall w, is_primary w -> Forall not_EOF_token w) /\
  (forall w, is_expression w -> Forall not_EOF_token w) /\
  (forall w, is_arguments w -> Forall not_EOF_token w) /\
  (forall w, is_more_arguments w -> Forall not_EOF_token w).
Proof.
  assert (Hty : forall (t : Token) ty, type t = ty -> ty <> EOF -> not_EOF_token t).
  { unfold not_EOF_token. intros t ty -> H. exact H. }
  apply grammar_mutual; intros;
    repeat first
      [ assumption
      | apply Forall_nil
      | apply Forall_cons
      | apply Forall_app; split
      | eapply leaf_node_not_EOF; eassumption
      | eapply Hty; [eassumption | discriminate] ].
  - destruct (type f) eqn:E; try discriminate; unfold not_EOF_token; rewrite E;
      discriminate.
  - intros E. rewrite E in *. discriminate.
Qed.

Lemma is_program_ends_with_only_EOF toks :
  is_program toks -> ends_with_only_EOF toks = true.
Proof.
  intros (e & eof & -> & He & Heof).
  apply ends_with_only_EOF_app.
  - apply (proj1 (proj2 grammar_has_no_EOF)), He.
  - simpl. now rewrite Heof.
Qed.

(** An expression followed by [EOF] is parsed to the [Program] of its
    tree. *)
Lemma expression_node_program e node eof :
  e <> [] -> expression_node e node -> type eof = EOF ->
  parse_tokens (e ++ [eof]) = Returns (Some (ProgramNode node)).
Proof.
  intros Hne Hnode Heof.
  set (toks := e ++ [eof]).
  assert (Hs : skipn 0 toks = e ++ [eof]) by reflexivity.
  assert (Hfollow : follows [eof]).
  { exists eof, []. now rewrite Heof. }
  destruct (Hnode toks 0 [eof] Hs Hfollow) as (f & Hrun).
  pose proof (skipn_current _ _ _ _ (skipn_past _ _ _ _ Hs)) as Hcur.
  simpl Nat.add in *.
  set (fuel := Nat.max f (enough_fuel (initial toks))).
  assert (Hbig : parse_program fuel (initial toks) =
                 Ok (ProgramNode node) (at_index toks (List.length e))).
  { unfold parse_program.
    rewrite (bind_Ok _ _ _ (Hrun fuel (Nat.le_max_l _ _))). reflexivity. }
  assert (Hprog : parse_program (enough_fuel (initial toks)) (initial toks) =
                  Ok (ProgramNode node) (at_index toks (List.length e))).
  { rewrite <- Hbig. symmetry. apply parse_program_fuel_independent.
    - apply Nat.le_max_r.
    - pose proof (parse_program_terminates (initial_consistent toks)) as H.
      unfold post in H. intros E. rewrite E in H. exact H. }
  unfold parse_tokens. rewrite Parser_init_tokens. unfold parse.
  change (tokens (initial toks)) with toks.
  destruct toks as [|t0 ts0] eqn:Et.
  { unfold toks in Et. destruct e; [congruence | discriminate]. }
  rewrite <- Et in *.
  rewrite (bind_Ok _ _ _ Hprog), (bind_attr _ _ Hcur), Heof. reflexivity.
Qed.

(** Every sequence of the grammar is parsed to a [Program]. *)
Lemma is_program_accepted toks :
  is_program toks ->
  exists expression, parse_tokens toks = Returns (Some (ProgramNode expression)).
Proof.
  intros (e & eof & -> & He & Heof).
  destruct (is_expression_node e He) as (node & Hnode).
  exists node. apply expression_node_program; auto.
  destruct (is_expression_head _ He) as (t & x & -> & _). discriminate.
Qed.

(** ** Trees of composed sequences *)

Lemma while_node_end m left : while_node m left [] [] left.
Proof.
  intros T i rest Hs (t & rest' & -> & Hp). simpl in Hs.
  enough_fuel_for 1.
  rewrite binary_expression_while_eq, (bind_attr _ _ (skipn_current _ _ _ _ Hs)), Hp.
  simpl. rewrite Nat.add_0_r. reflexivity.
Qed.

(** A primary alone is an expression for any minimum precedence. *)
Lemma binary_node_primary m p n : primary_node p n -> binary_node m p p n.
Proof.
  intros Hn T i rest Hs Hfollow.
  destruct (Hn T i rest Hs) as (f1 & H1).
  destruct (while_node_end m n T _ rest (skipn_past _ _ _ _ Hs) Hfollow) as (f2 & H2).
  enough_fuel_for (S (f1 + f2)).
  rewrite parse_binary_expression_eq, (bind_Ok _ _ _ (H1 fuel ltac:(lia))).
  rewrite (H2 fuel ltac:(lia)). simpl. rewrite Nat.add_0_r. reflexivity.
Qed.

(** [p op e] when [op] is taken and the call for the right operand reads
    all of [e]. *)
Lemma binary_node_operator m p n op prec e r :
  primary_node p n ->
  precedence (type op) = Some prec -> (m <= prec)%Z ->
  binary_node
    (if TokenType_eqb (type op) POWER then (prec - 1)%Z else (prec + 1)%Z) e e r ->
  binary_node m (p ++ op :: e) (p ++ op :: e) (BinaryOpNode n (value op) r).
Proof.
  intros Hn Hprec Hm Hr T i rest Hs Hfollow. rewrite <- app_assoc in Hs.
  destruct (Hn T i _ Hs) as (f1 & H1).
  pose proof (skipn_past _ _ _ _ Hs) as Hs1. simpl in Hs1.
  pose proof (skipn_current _ _ _ _ Hs1) as Hcur.
  pose proof (skipn_next _ _ _ _ Hs1) as Hs2.
  destruct (Hr T _ rest Hs2 Hfollow) as (f2 & H2).
  destruct (while_node_end m (BinaryOpNode n (value op) r) T _ rest
              (skipn_past _ _ _ _ Hs2) Hfollow) as (f3 & H3).
  enough_fuel_for (S (S (f1 + f2 + f3))).
  rewrite parse_binary_expression_eq, (bind_Ok _ _ _ (H1 fuel ltac:(lia))).
  destruct fuel as [|fuel]; [lia|].
  rewrite binary_expression_while_eq, (bind_attr _ _ Hcur), Hprec.
  apply Z.leb_le in Hm. rewrite Hm, bind_advance.
  change (advanced (at_index T (i + List.length p)))
    with (at_index T (S (i + List.length p))).
  rewrite (bind_Ok _ _ _ (H2 fuel ltac:(lia))).
  rewrite (H3 fuel ltac:(lia)). f_equal. f_equal.
  rewrite length_app. simpl. lia.
Qed.

Lemma expression_node_binary e n : binary_node 0 e e n -> expression_node e n.
Proof.
  intros H T i rest Hs Hfollow. destruct (H T i rest Hs Hfollow) as (f & Hf).
  enough_fuel_for (S f). rewrite parse_expression_eq. apply Hf. lia.
Qed.

Lemma minus_node sign p n :
  type sign = MINUS -> primary_node p n ->
  primary_node (sign :: p) (UnaryOpNode "-" n).
Proof.
  intros Hsign Hn T i rest Hs. simpl in Hs.
  pose proof (skipn_current _ _ _ _ Hs) as Hcur.
  destruct (Hn T (S i) rest (skipn_next _ _ _ _ Hs)) as (f & Hrun).
  enough_fuel_for (S f).
  rewrite parse_primary_eq, (bind_attr _ _ Hcur), Hsign, bind_advance.
  change (advanced (at_index T i)) with (at_index T (S i)).
  rewrite (bind_Ok _ _ _ (Hrun fuel ltac:(lia))).
  simpl List.length. rewrite Nat.add_succ_r. reflexivity.
Qed.

Lemma plus_node sign p n :
  type sign = PLUS -> primary_node p n -> primary_node (sign :: p) n.
Proof.
  intros Hsign Hn T i rest Hs. simpl in Hs.
  pose proof (skipn_current _ _ _ _ Hs) as Hcur.
  destruct (Hn T (S i) rest (skipn_next _ _ _ _ Hs)) as (f & Hrun).
  enough_fuel_for (S f).
  rewrite parse_primary_eq, (bind_attr _ _ Hcur), Hsign, bind_advance.
  change (advanced (at_index T i)) with (at_index T (S i)).
  rewrite (Hrun fuel ltac:(lia)).
  simpl List.length. rewrite Nat.add_succ_r. reflexivity.
Qed.

Lemma more_nodes_nil : more_nodes [] [].
Proof.
  intros acc T i rp rest Hs Hr. simpl in Hs.
  enough_fuel_for 1.
  rewrite arguments_while_eq, (bind_attr _ _ (skipn_current _ _ _ _ Hs)), Hr.
  simpl. rewrite Nat.add_0_r, app_nil_r. reflexivity.
Qed.

Lemma more_nodes_comma c e more node nodes :
  type c = COMMA -> is_more_arguments more ->
  expression_node e node -> more_nodes more nodes ->
  more_nodes (c :: e ++ more) (node :: nodes).
Proof.
  intros Hc Hmore Hnode Hnodes acc T i rp rest Hs Hr. simpl in Hs.
  pose proof (skipn_current _ _ _ _ Hs) as Hcur.
  pose proof (skipn_next _ _ _ _ Hs) as Hs1. rewrite <- app_assoc in Hs1.
  destruct (Hnode T (S i) _ Hs1 (more_arguments_follow _ _ _ Hmore Hr))
    as (f1 & Hrun).
  pose proof (skipn_past _ _ _ _ Hs1) as Hs2.
  destruct (Hnodes (acc ++ [node]) T _ rp rest Hs2 Hr) as (f2 & Hloop).
  enough_fuel_for (S (f1 + f2)).
  rewrite arguments_while_eq, (bind_attr _ _ Hcur), Hc. cbn [TokenType_eqb].
  rewrite bind_advance. change (advanced (at_index T i)) with (at_index T (S i)).
  rewrite (bind_Ok _ _ _ (Hrun fuel ltac:(lia))).
  rewrite (Hloop fuel ltac:(lia)). rewrite <- app_assoc. simpl.
  rewrite length_app.
  replace (S (i + List.length e + List.length more))
    with (i + S (List.length e + List.length more)) by lia.
  reflexivity.
Qed.

(** The tree of an expression does not depend on what surrounds it. *)
Lemma expression_node_unique e n n' :
  expression_node e n -> expression_node e n' -> n = n'.
Proof.
  intros H H'.
  set (eof := mkToken EOF "" 0).
  assert (Hfollow : follows [eof]) by (exists eof, []; auto).
  destruct (H (e ++ [eof]) 0 [eof] eq_refl Hfollow) as (f & Hf).
  destruct (H' (e ++ [eof]) 0 [eof] eq_refl Hfollow) as (f' & Hf').
  specialize (Hf (f + f') ltac:(lia)). specialize (Hf' (f + f') ltac:(lia)).
  congruence.
Qed.

(** On [a ^ b * c] and [a ^ b / c], for all primaries [a], [b], [c], the
    product is the right operand of the power. *)
Lemma power_operand_takes_product_of_primaries a b c na nb nc pow mul eof :
  primary_node a na -> primary_node b nb -> primary_node c nc ->
  type pow = POWER -> type mul = MULTIPLY \/ type mul = DIVIDE ->
  type eof = EOF ->
  parse_tokens (a ++ pow :: b ++ mul :: c ++ [eof]) =
  Returns (Some (ProgramNode
    (BinaryOpNode na (value pow) (BinaryOpNode nb (value mul) nc)))).
Proof.
  intros Ha Hb Hc Hpow Hmul Heof.
  replace (a ++ pow :: b ++ mul :: c ++ [eof])
    with ((a ++ pow :: b ++ mul :: c) ++ [eof])
    by (rewrite <- app_assoc; simpl; rewrite <- app_assoc; reflexivity).
  apply expression_node_program; [destruct a; discriminate | | assumption].
  apply expression_node_binary.
  apply binary_node_operator with (prec := 3%Z);
    [assumption | now rewrite Hpow | lia |].
  rewrite Hpow. cbn [TokenType_eqb].
  apply binary_node_operator with (prec := 2%Z); [assumption | | lia |].
  - destruct Hmul as [-> | ->]; reflexivity.
  - apply binary_node_primary. assumption.
Qed.

(** ** Valid inputs *)

Lemma parse_text_tokens text ts :
  get_tokens text = inr ts -> parse_text text = parse_tokens ts.
Proof. intros H. unfold parse_text, parse_tokens, Parser_init. now rewrite H. Qed.

Lemma long_literal_tokens :
  get_tokens (string_of_list_ascii (repeat "1"%char 4301)) =
  inr [mkToken INTEGER (string_of_list_ascii (repeat "1"%char 4301)) 0;
       mkToken EOF "" 4301].
Proof. vm_compute. reflexivity. Qed.

Lemma long_literal_ValueError :
  parse_tokens
    [mkToken INTEGER (string_of_list_ascii (repeat "1"%char 4301)) 0;
     mkToken EOF "" 4301] =
  Raises (ValueError (string_of_list_ascii (repeat "1"%char 4301))).
Proof. vm_compute. reflexivity. Qed.

(** C8 as stated fails: a run of 4301 digits is a numeric literal of the
    grammar and its tokens are [INTEGER EOF], but [int()] refuses a text of
    more than [int_max_str_digits] digits, so [parse] raises [ValueError]
    and returns no [Program]. *)
Lemma parse_rejects_a_long_integer_literal :
  let text := string_of_list_ascii (repeat "1"%char 4301) in
  let toks := [mkToken INTEGER text 0; mkToken EOF "" 4301] in
  get_tokens text = inr toks /\
  ends_with_only_EOF toks = true /\
  parse_tokens toks = Raises (ValueError text) /\
  parse_text text = Raises (ValueError text) /\
  ~ (exists expression, parse_tokens toks = Returns (Some (ProgramNode expression))).
Proof.
  split; [exact long_literal_tokens|]. split; [reflexivity|].
  split; [exact long_literal_ValueError|]. split.
  - rewrite (parse_text_tokens _ _ long_literal_tokens).
    exact long_literal_ValueError.
  - intros (expression & H). rewrite long_literal_ValueError in H. discriminate H.
Qed.

(** C8 (as the code has it): [parse] always stops.  On every token
    sequence of the grammar [program ::= expression EOF] whose [INTEGER]
    and [FLOAT] tokens carry a text that [int()] or [float()] reads (for
    [int()], of at most [int_max_str_digits] digits) it returns a [Program]
    whose tree has one leaf per [INTEGER], [FLOAT] or [IDENTIFIER] token
    and fewer inner nodes ([Program], [BinaryOp], [UnaryOp],
    [FunctionCall]) than there are tokens; and so it does on every token
    sequence ending with its only [EOF], and from every text, on which it
    raises no error.  (The recursion limit of the interpreter, which a
    deeply nested expression exceeds, is not modelled.) *)
Theorem valid_input_gives_counted_program :
  (forall toks, parse_tokens toks <> Diverges) /\
  (forall text, parse_text text <> Diverges) /\
  (forall toks,
     is_program toks ->
     exists expression,
       parse_tokens toks = Returns (Some (ProgramNode expression)) /\
       leaf_count (ProgramNode expression) = leaf_tokens toks /\
       internal_count (ProgramNode expression) < List.length toks) /\
  (forall toks,
     ends_with_only_EOF toks = true ->
     (forall e, parse_tokens toks <> Raises e) ->
     exists expression,
       parse_tokens toks = Returns (Some (ProgramNode expression)) /\
       leaf_count (ProgramNode expression) = leaf_tokens toks /\
       internal_count (ProgramNode expression) < List.length toks) /\
  (forall text,
     (forall e, parse_text text <> Raises e) ->
     exists ts expression,
       get_tokens text = inr ts /\
       parse_text text = Returns (Some (ProgramNode expression)) /\
       leaf_count (ProgramNode expression) = leaf_tokens ts /\
       internal_count (ProgramNode expression) < List.length ts).
Proof.
  split; [exact parse_tokens_terminates|].
  split; [exact parse_text_terminates|].
  split; [|split].
  - intros toks Hprog.
    destruct (is_program_accepted toks Hprog) as (x & Hx).
    destruct (proj2 valid_input_gives_counted_program_tokens toks
                (is_program_ends_with_only_EOF toks Hprog)) as (y & Hy & Hcount).
    { intros e He. rewrite Hx in He. discriminate. }
    exists y. split; [exact Hy | exact Hcount].
  - exact (proj2 valid_input_gives_counted_program_tokens).
  - exact parse_text_counts.
Qed.

Lemma valid_input_gives_counted_program_witness :
  let sin := mkToken SIN "sin" 0 in
  let lp := mkToken LPAREN "(" 3 in
  let minus := mkToken MINUS "-" 4 in
  let x := mkToken IDENTIFIER "x" 5 in
  let comma := mkToken COMMA "," 6 in
  let two := mkToken INTEGER "2" 8 in
  let times := mkToken MULTIPLY "*" 10 in
  let half := mkToken FLOAT "0.5" 12 in
  let rp := mkToken RPAREN ")" 15 in
  let eof := mkToken EOF "" 16 in
  let toks := [sin; lp; minus; x; comma; two; times; half; rp; eof] in
  (exists expression,
     parse_tokens toks = Returns (Some (ProgramNode expression)) /\
     leaf_count (ProgramNode expression) = 3 /\
     internal_count (ProgramNode expression) < 10) /\
  (exists expression,
     parse_tokens [minus; two; eof] = Returns (Some (ProgramNode expression)) /\
     leaf_count (ProgramNode expression) = 1 /\
     internal_count (ProgramNode expression) < 3) /\
  (exists ts expression,
     get_tokens "sin(-x, 2 * 0.5)" = inr ts /\
     parse_text "sin(-x, 2 * 0.5)" = Returns (Some (ProgramNode expression)) /\
     leaf_count (ProgramNode expression) = leaf_tokens ts /\
     internal_count (ProgramNode expression) < List.length ts).
Proof.
  intros sin lp minus x comma two times half rp eof toks.
  destruct valid_input_gives_counted_program as (_ & _ & Hgrammar & Htoks & Htext).
  split; [|split].
  - apply (Hgrammar toks).
    exists [sin; lp; minus; x; comma; two; times; half; rp], eof.
    split; [reflexivity|]. split; [|reflexivity].
    apply expression_primary.
    apply (@primary_call sin lp [minus; x; comma; two; times; half] rp);
      [reflexivity | reflexivity | | reflexivity].
    apply (@arguments_some [minus; x] [comma; two; times; half]).
    + apply expression_primary, primary_minus; [reflexivity|].
      apply (@primary_leaf x (IdentifierNode "x")). reflexivity.
    + apply (@more_arguments_comma comma [two; times; half] []);
        [reflexivity | | apply more_arguments_none].
      apply (@expression_binary [two] times 2%Z [half]).
      * apply (@primary_leaf two (NumberNode (PyInt 2))). reflexivity.
      * reflexivity.
      * apply expression_primary.
        apply (@primary_leaf half (NumberNode (PyFloat "0.5"))). reflexivity.
  - apply (Htoks [minus; two; eof]).
    + reflexivity.
    + intros e. vm_compute. discriminate.
  - apply (Htext "sin(-x, 2 * 0.5)"%string).
    intros e. vm_compute. discriminate.
Defined.

(** ** Unary signs *)

Lemma leaf_primary_node t n : leaf_node t = Some n -> primary_node [t] n.
Proof.
  intros Hn T i rest Hs. simpl in Hs.
  enough_fuel_for 1.
  rewrite (parse_primary_leaf fuel _ (skipn_current _ _ _ _ Hs) Hn). simpl.
  rewrite Nat.add_1_r. reflexivity.
Qed.

(** C4: on a leading [-], [parse_primary] passes the sign, parses one
    primary (not a binary expression) and wraps it in [UnaryOp('-', _)], so
    for all primaries [p], [q] and every binary operator [-p op q] is
    [BinaryOp(UnaryOp('-', p), op, q)], as in [-2^2] =
    [BinaryOp(UnaryOp('-',2),'^',2)]; on a leading [+] it passes the sign
    and returns the following primary as it is. *)
Theorem unary_sign_takes_one_primary :
  (forall fuel self t,
     current_token self = Some t -> type t = MINUS ->
     parse_primary (S fuel) self =
     (operand <- parse_primary fuel ;; ret (UnaryOpNode "-" operand))
       (advanced self)) /\
  (forall fuel self t,
     current_token self = Some t -> type t = PLUS ->
     parse_primary (S fuel) self = parse_primary fuel (advanced self)) /\
  (forall sign p np op prec q nq eof,
     type sign = MINUS -> primary_node p np -> primary_node q nq ->
     precedence (type op) = Some prec -> type eof = EOF ->
     parse_tokens (sign :: p ++ op :: q ++ [eof]) =
     Returns (Some (ProgramNode
       (BinaryOpNode (UnaryOpNode "-" np) (value op) nq)))) /\
  (forall sign p np eof,
     type sign = PLUS -> primary_node p np -> type eof = EOF ->
     parse_tokens (sign :: p ++ [eof]) = Returns (Some (ProgramNode np))) /\
  parse_text "-2^2" =
    Returns (Some (ProgramNode
      (BinaryOpNode (UnaryOpNode "-" (NumberNode (PyInt 2))) "^"
         (NumberNode (PyInt 2))))) /\
  parse_text "+2" = Returns (Some (ProgramNode (NumberNode (PyInt 2)))) /\
  parse_text "+x^2" =
    Returns (Some (ProgramNode
      (BinaryOpNode (IdentifierNode "x") "^" (NumberNode (PyInt 2))))).
Proof.
  split; [|split; [|split; [|split]]].
  - intros fuel self t Ht Hm. rewrite parse_primary_eq, (bind_attr _ _ Ht), Hm.
    reflexivity.
  - intros fuel self t Ht Hp. rewrite parse_primary_eq, (bind_attr _ _ Ht), Hp.
    reflexivity.
  - intros sign p np op prec q nq eof Hsign Hp Hq Hprec Heof.
    change (sign :: p ++ op :: q ++ [eof]) with ((sign :: p) ++ op :: q ++ [eof]).
    replace ((sign :: p) ++ op :: q ++ [eof])
      with (((sign :: p) ++ op :: q) ++ [eof])
      by (rewrite <- app_assoc; reflexivity).
    apply expression_node_program; [discriminate | | assumption].
    apply expression_node_binary.
    apply binary_node_operator with (prec := prec).
    + apply minus_node; assumption.
    + assumption.
    + apply precedence_positive in Hprec. lia.
    + apply binary_node_primary. assumption.
  - intros sign p np eof Hsign Hp Heof.
    change (sign :: p ++ [eof]) with ((sign :: p) ++ [eof]).
    apply expression_node_program; [discriminate | | assumption].
    apply expression_node_binary, binary_node_primary, plus_node; assumption.
  - repeat split; vm_compute; reflexivity.
Qed.

Lemma unary_sign_takes_one_primary_witness :
  let minus := mkToken MINUS "-" 0 in
  let plus := mkToken PLUS "+" 0 in
  let two := mkToken INTEGER "2" 1 in
  let x := mkToken IDENTIFIER "x" 1 in
  let power := mkToken POWER "^" 2 in
  let eof := mkToken EOF "" 4 in
  parse_primary 3 (initial [minus; two; eof]) =
    Ok (UnaryOpNode "-" (NumberNode (PyInt 2)))
       (mkParser [minus; two; eof] 2 (Some eof)) /\
  parse_primary 3 (initial [plus; two; eof]) =
    Ok (NumberNode (PyInt 2)) (mkParser [plus; two; eof] 2 (Some eof)) /\
  parse_tokens [minus; x; power; two; eof] =
    Returns (Some (ProgramNode
      (BinaryOpNode (UnaryOpNode "-" (IdentifierNode "x")) "^"
         (NumberNode (PyInt 2))))) /\
  parse_tokens [plus; x; eof] = Returns (Some (ProgramNode (IdentifierNode "x"))).
Proof.
  intros minus plus two x power eof.
  destruct unary_sign_takes_one_primary as (Hminus & Hplus & Hop & Hsame & _).
  split; [|split; [|split]].
  - rewrite (Hminus 2 (initial [minus; two; eof]) minus);
      [reflexivity | reflexivity | reflexivity].
  - rewrite (Hplus 2 (initial [plus; two; eof]) plus);
      [reflexivity | reflexivity | reflexivity].
  - apply (Hop minus [x] (IdentifierNode "x") power 3%Z [two] (NumberNode (PyInt 2)) eof);
      [ reflexivity
      | apply leaf_primary_node; reflexivity
      | apply leaf_primary_node; reflexivity
      | reflexivity
      | reflexivity ].
  - apply (Hsame plus [x] (IdentifierNode "x") eof);
      [ reflexivity | apply leaf_primary_node; reflexivity | reflexivity ].
Defined.

(** ** Arguments in the order of the source *)

Lemma more_arguments_of_list rest :
  Forall (fun ca => type (fst ca) = COMMA /\ is_expression (snd ca)) rest ->
  is_more_arguments (flat_map (fun ca : Token * list Token => fst ca :: snd ca) rest).
Proof.
  induction 1 as [|[c e] rest (Hc & He) _ IH]; simpl.
  - constructor.
  - apply more_arguments_comma; assumption.
Qed.

Lemma more_nodes_of_list rest nodes :
  Forall (fun ca => type (fst ca) = COMMA /\ is_expression (snd ca)) rest ->
  Forall2 (fun ca n => expression_node (snd ca) n) rest nodes ->
  more_nodes (flat_map (fun ca : Token * list Token => fst ca :: snd ca) rest) nodes.
Proof.
  intros Hrest Hnodes. revert Hrest.
  induction Hnodes as [|[c e] n rest nodes Hn _ IH]; intros Hrest; simpl.
  - apply more_nodes_nil.
  - inversion Hrest as [|? ? (Hc & He) Hrest']; subst.
    apply more_nodes_comma; auto. apply more_arguments_of_list; assumption.
Qed.

(** C5: a function name, [(], comma-separated expressions and [)] parse to
    [FunctionCall(name, arguments)] where the arguments are the trees of
    the expressions in the order of the source, however many there are;
    [log(8, 2)] gives [log] its two arguments and empty parentheses give
    the empty list. *)
Theorem calls_collect_their_arguments_in_order :
  (forall f l r e p1 p2 p3 e0 n0 rest nodes,
     is_function_name (type f) = true ->
     is_expression e0 -> expression_node e0 n0 ->
     Forall (fun ca => type (fst ca) = COMMA /\ is_expression (snd ca)) rest ->
     Forall2 (fun ca n => expression_node (snd ca) n) rest nodes ->
     parse_tokens
       (f :: mkToken LPAREN l p1 ::
        (e0 ++ flat_map (fun ca : Token * list Token => fst ca :: snd ca) rest) ++
        [mkToken RPAREN r p2; mkToken EOF e p3]) =
     Returns (Some (ProgramNode (FunctionCallNode (value f) (n0 :: nodes))))) /\
  (forall f l r e p1 p2 p3,
     is_function_name (type f) = true ->
     parse_tokens [f; mkToken LPAREN l p1; mkToken RPAREN r p2; mkToken EOF e p3] =
     Returns (Some (ProgramNode (FunctionCallNode (value f) [])))) /\
  parse_text "log(8, 2)" =
    Returns (Some (ProgramNode
      (FunctionCallNode "log" [NumberNode (PyInt 8); NumberNode (PyInt 2)]))) /\
  parse_text "sin()" = Returns (Some (ProgramNode (FunctionCallNode "sin" []))) /\
  parse_text "sin(x, 2, y)" =
    Returns (Some (ProgramNode
      (FunctionCallNode "sin"
         [IdentifierNode "x"; NumberNode (PyInt 2); IdentifierNode "y"]))).
Proof.
  split; [|split].
  - intros f l r e p1 p2 p3 e0 n0 rest nodes Hf He0 Hn0 Hrest Hnodes.
    set (lp := mkToken LPAREN l p1). set (rp := mkToken RPAREN r p2).
    set (eof := mkToken EOF e p3).
    set (args := e0 ++ flat_map (fun ca : Token * list Token => fst ca :: snd ca) rest).
    change (f :: lp :: args ++ [rp; eof]) with ((f :: lp :: args) ++ [rp] ++ [eof]).
    rewrite app_assoc.
    apply expression_node_program; [discriminate | | reflexivity].
    apply expression_node_binary, binary_node_primary.
    change ((f :: lp :: args) ++ [rp]) with (f :: lp :: args ++ [rp]).
    apply call_node; [assumption | reflexivity | reflexivity |].
    right. exists e0, (flat_map (fun ca : Token * list Token => fst ca :: snd ca) rest),
             n0, nodes.
    repeat split; auto.
    + apply more_arguments_of_list; assumption.
    + apply more_nodes_of_list; assumption.
  - intros [ty v p] l r e p1 p2 p3 Hf.
    destruct ty; try discriminate Hf; reflexivity.
  - repeat split; vm_compute; reflexivity.
Qed.

Lemma calls_collect_their_arguments_in_order_witness :
  let log := mkToken LOG "log" 0 in
  let comma := mkToken COMMA "," 5 in
  let eight := mkToken INTEGER "8" 4 in
  let two := mkToken INTEGER "2" 7 in
  let x := mkToken IDENTIFIER "x" 9 in
  parse_tokens
    (log :: mkToken LPAREN "(" 3 ::
     ([eight] ++
      flat_map (fun ca : Token * list Token => fst ca :: snd ca)
        [(comma, [two]); (comma, [x])]) ++
     [mkToken RPAREN ")" 10; mkToken EOF "" 11]) =
    Returns (Some (ProgramNode
      (FunctionCallNode "log"
         [NumberNode (PyInt 8); NumberNode (PyInt 2); IdentifierNode "x"]))) /\
  parse_tokens [log; mkToken LPAREN "(" 3; mkToken RPAREN ")" 4; mkToken EOF "" 5] =
    Returns (Some (ProgramNode (FunctionCallNode "log" []))).
Proof.
  intros log comma eight two x.
  destruct calls_collect_their_arguments_in_order as (Hargs & Hnone & _).
  assert (Hexp : forall t n, leaf_node t = Some n -> is_expression [t]).
  { intros t n H. apply expression_primary, (@primary_leaf t n), H. }
  assert (Hnode : forall t n, leaf_node t = Some n -> expression_node [t] n).
  { intros t n H.
    apply expression_node_binary, binary_node_primary, leaf_primary_node, H. }
  split.
  - apply (Hargs log "("%string ")"%string ""%string 3%Z 10%Z 11%Z
             [eight] (NumberNode (PyInt 8))
             [(comma, [two]); (comma, [x])]
             [NumberNode (PyInt 2); IdentifierNode "x"]).
    + reflexivity.
    + apply (Hexp eight (NumberNode (PyInt 8))). reflexivity.
    + apply (Hnode eight). reflexivity.
    + apply Forall_cons; [split; [reflexivity|]|].
      * apply (Hexp two (NumberNode (PyInt 2))). reflexivity.
      * apply Forall_cons; [split; [reflexivity|] | apply Forall_nil].
        apply (Hexp x (IdentifierNode "x")). reflexivity.
    + apply Forall2_cons; [apply (Hnode two); reflexivity|].
      apply Forall2_cons; [apply (Hnode x); reflexivity | apply Forall2_nil].
  - apply (Hnone log "("%string ")"%string ""%string 3%Z 4%Z 5%Z). reflexivity.
Defined.

(** ** The numbers of the tokenizer are literals *)

Lemma digit_not_space c : is_digit c = true -> is_py_space c = false.
Proof.
  unfold is_digit, is_py_space. set (n := nat_of_ascii c). intros H.
  apply andb_true_iff in H as (H1 & H2).
  apply Nat.leb_le in H1. apply Nat.leb_le in H2.
  apply orb_false_iff. split.
  - apply andb_false_iff. right. apply Nat.leb_gt. lia.
  - apply Nat.eqb_neq. lia.
Qed.

Lemma py_strip_no_space cs :
  Forall (fun c => is_py_space c = false) cs -> py_strip cs = cs.
Proof.
  intros H. unfold py_strip. destruct cs as [|c cs]; [reflexivity|].
  assert (Hd : drop_spaces (c :: cs) = c :: cs).
  { simpl. inversion H; subst. now rewrite H2. }
  rewrite Hd. apply Forall_rev in H.
  destruct (rev (c :: cs)) as [|x r] eqn:E.
  - apply (f_equal (@rev ascii)) in E. rewrite rev_involutive in E. discriminate.
  - simpl. inversion H; subst. rewrite H2.
    rewrite <- E. apply rev_involutive.
Qed.

Lemma signed_digits_of_digit c cs :
  is_digit c = true -> signed_digits (c :: cs) = py_digits 0 false (c :: cs).
Proof.
  destruct c as [[] [] [] [] [] [] [] []]; intros H;
    try discriminate H; reflexivity.
Qed.

Lemma skip_sign_of_digit c cs : is_digit c = true -> skip_sign (c :: cs) = c :: cs.
Proof.
  destruct c as [[] [] [] [] [] [] [] []]; intros H;
    try discriminate H; reflexivity.
Qed.

Lemma py_digits_of_digits cs :
  Forall (fun c => is_digit c = true) cs ->
  forall acc b, cs <> [] \/ b = true -> py_digits acc b cs <> None.
Proof.
  induction 1 as [|c cs Hc _ IH]; intros acc b Hb; simpl.
  - destruct Hb as [Hb| ->]; [congruence | discriminate].
  - unfold digit_value. rewrite Hc. apply IH. right. reflexivity.
Qed.

Lemma filter_digits cs :
  Forall (fun c => is_digit c = true) cs -> filter is_digit cs = cs.
Proof. induction 1 as [|c cs Hc _ IH]; simpl; [reflexivity | now rewrite Hc, IH]. Qed.

Lemma length_list_ascii_of_string s :
  List.length (list_ascii_of_string s) = String.length s.
Proof. induction s as [|c s IH]; simpl; [reflexivity | now rewrite IH]. Qed.

(** A run of at most [int_max_str_digits] digits is read by [int()]. *)
Lemma py_int_of_digits s :
  list_ascii_of_string s <> [] ->
  Forall (fun c => is_digit c = true) (list_ascii_of_string s) ->
  String.length s <= int_max_str_digits ->
  py_int s <> None.
Proof.
  intros Hne Hd Hlen. unfold py_int.
  rewrite py_strip_no_space
    by (eapply Forall_impl; [|exact Hd]; apply digit_not_space).
  rewrite (filter_digits _ Hd), length_list_ascii_of_string.
  apply Nat.leb_le in Hlen. rewrite Hlen.
  destruct (list_ascii_of_string s) as [|c cs]; [congruence|].
  inversion Hd; subst.
  rewrite signed_digits_of_digit by assumption.
  apply py_digits_of_digits; [assumption | left; discriminate].
Qed.

Lemma skip_digit_tail_digits cs :
  Forall (fun c => is_digit c = true) cs -> skip_digit_tail cs = [].
Proof. induction 1 as [|c cs Hc _ IH]; simpl; [reflexivity | now rewrite Hc]. Qed.

Lemma skip_digit_tail_point ds fs :
  Forall (fun c => is_digit c = true) ds ->
  skip_digit_tail (ds ++ "."%char :: fs) = "."%char :: fs.
Proof. induction 1 as [|c cs Hc _ IH]; simpl; [reflexivity | now rewrite Hc]. Qed.

Lemma digit_is_no_word d r :
  is_digit d = true ->
  String.eqb (String (ascii_lower d) r) "inf"
  || String.eqb (String (ascii_lower d) r) "infinity"
  || String.eqb (String (ascii_lower d) r) "nan" = false.
Proof.
  destruct d as [[] [] [] [] [] [] [] []]; intros H;
    try discriminate H; reflexivity.
Qed.

Lemma is_float_literal_of_digits s ds fs :
  list_ascii_of_string s = ds ++ "."%char :: fs ->
  ds <> [] ->
  Forall (fun c => is_digit c = true) ds ->
  Forall (fun c => is_digit c = true) fs ->
  is_float_literal s = true.
Proof.
  intros Hs Hne Hds Hfs. unfold is_float_literal. rewrite Hs.
  assert (Hsp : Forall (fun c => is_py_space c = false) (ds ++ "."%char :: fs)).
  { apply Forall_app. split.
    - eapply Forall_impl; [|exact Hds]. apply digit_not_space.
    - constructor; [reflexivity|].
      eapply Forall_impl; [|exact Hfs]. apply digit_not_space. }
  rewrite (py_strip_no_space _ Hsp).
  destruct ds as [|d ds]; [congruence|]. inversion Hds; subst.
  change ((d :: ds) ++ "."%char :: fs) with (d :: ds ++ "."%char :: fs).
  rewrite skip_sign_of_digit by assumption.
  cbn [map string_of_list_ascii]. rewrite digit_is_no_word by assumption.
  unfold float_number, digitpart. rewrite H1.
  rewrite skip_digit_tail_point by assumption.
  destruct fs as [|f fs]; [reflexivity|].
  inversion Hfs; subst. rewrite H3.
  rewrite skip_digit_tail_digits by assumption. reflexivity.
Qed.

Lemma list_ascii_of_snoc lexeme c :
  list_ascii_of_string (snoc lexeme c) = list_ascii_of_string lexeme ++ [c].
Proof.
  unfold snoc. induction lexeme as [|a l IH]; simpl; [reflexivity | now rewrite IH].
Qed.

Lemma flush_literal st : run_is_literal st -> Forall literal_token (flush st).
Proof.
  destruct st as [|start l|start l|start l]; simpl; intros H;
    repeat constructor; unfold number_value; simpl; try discriminate.
  - destruct H as (Hne & Hd). intros _ Hlen.
    pose proof (py_int_of_digits l Hne Hd Hlen). destruct (py_int l); simpl; congruence.
  - destruct H as (ds & fs & Hl & Hne & Hds & Hfs). intros _.
    unfold py_float. rewrite (is_float_literal_of_digits l ds fs Hl Hne Hds Hfs).
    discriminate.
  - unfold identifier_type;
      repeat match goal with |- context [if ?b then _ else _] => destruct b end;
      discriminate.
  - unfold identifier_type;
      repeat match goal with |- context [if ?b then _ else _] => destruct b end;
      discriminate.
Qed.

Lemma extend_literal st c st' :
  run_is_literal st -> extend st c = Some st' -> run_is_literal st'.
Proof.
  destruct st as [|start l|start l|start l]; simpl; intros H E; try discriminate.
  - destruct (is_digit c) eqn:Hc.
    + injection E as <-. simpl. rewrite list_ascii_of_snoc. destruct H as (Hne & Hd).
      split; [destruct (list_ascii_of_string l); discriminate|].
      apply Forall_app. split; [assumption | repeat constructor; assumption].
    + destruct (Ascii.eqb c ".") eqn:Hp; [|discriminate].
      injection E as <-. simpl. apply Ascii.eqb_eq in Hp. subst c.
      destruct H as (Hne & Hd).
      exists (list_ascii_of_string l), []. rewrite list_ascii_of_snoc. auto.
  - destruct (is_digit c) eqn:Hc; [|discriminate].
    injection E as <-. simpl. destruct H as (ds & fs & Hl & Hne & Hds & Hfs).
    exists ds, (fs ++ [c]). rewrite list_ascii_of_snoc, Hl, <- app_assoc.
    repeat split; auto.
    apply Forall_app. split; [assumption | repeat constructor; assumption].
  - destruct (is_identifier_part c); [|discriminate]. injection E as <-. exact I.
Qed.

Lemma begin_literal c pos emitted st :
  begin c pos = inr (emitted, st) ->
  Forall literal_token emitted /\ run_is_literal st.
Proof.
  unfold begin. destruct (is_lexer_space c).
  { intros H; inversion H; subst. split; [constructor | exact I]. }
  destruct (is_digit c) eqn:Hc.
  { intros H; inversion H; subst. split; [constructor|]. simpl.
    split; [discriminate | repeat constructor; assumption]. }
  destruct (is_identifier_start c).
  { intros H; inversion H; subst. split; [constructor | exact I]. }
  unfold single_character_token.
  repeat match goal with |- context [if ?b then _ else _] => destruct b end;
    intros H; inversion H; subst;
    (split; [|exact I]); repeat constructor; discriminate.
Qed.

Lemma scan_literals cs :
  forall st pos ts,
    run_is_literal st -> scan st pos cs = inr ts -> Forall literal_token ts.
Proof.
  induction cs as [|c cs IH]; intros st pos ts Hst; simpl.
  - intros H. injection H as <-. apply Forall_app. split.
    + apply flush_literal, Hst.
    + repeat constructor; discriminate.
  - destruct (extend st c) as [st'|] eqn:Ee.
    { apply IH. eapply extend_literal; eauto. }
    destruct (begin c pos) as [e|[emitted st']] eqn:Eb; [discriminate|].
    destruct (begin_literal _ _ _ _ Eb) as (Hem & Hst').
    destruct (scan st' (pos + 1)%Z cs) as [e|ts'] eqn:Es; [discriminate|].
    intros H. injection H as <-.
    apply Forall_app. split; [apply flush_literal, Hst|].
    apply Forall_app. split; [assumption|].
    eapply IH; eauto.
Qed.

Lemma get_tokens_literals text ts :
  get_tokens text = inr ts -> Forall literal_token ts.
Proof. apply scan_literals. exact I. Qed.

Lemma scan_raises_LexicalError cs :
  forall st pos e, scan st pos cs = inl e -> exists c p, e = LexicalError c p.
Proof.
  induction cs as [|c cs IH]; intros st pos e; simpl; [discriminate|].
  destruct (extend st c) as [st'|]; [apply IH|].
  destruct (begin c pos) as [e'|[emitted st']] eqn:Eb.
  - intros H. injection H as <-. revert Eb. unfold begin.
    repeat match goal with |- context [if ?b then _ else _] => destruct b end;
      try discriminate.
    destruct (single_character_token c); [discriminate|].
    intros H. injection H as <-. eauto.
  - destruct (scan st' (pos + 1)%Z cs) as [e'|ts] eqn:Es; [|discriminate].
    intros H. injection H as <-. eapply IH; eauto.
Qed.

(** ** The cursor never passes [EOF] *)

(** C9 (as the code has it): over a token sequence that ends with its only
    [EOF], [parse] stops with the cursor on a token (the cursor only moves
    forward, so it was on a token all along and [current_token] was never
    [None]); it returns a [Program], or raises a [SyntaxError] with the
    position of the current token, or the [ValueError] of [int()] or
    [float()] on a numeric token whose text they do not read.  It never
    raises the [AttributeError] of a missing token, and when [int()] and
    [float()] read the text of every numeric token the only exception is
    [SyntaxError].  From a text, [parse_text] returns a [Program] or raises
    the tokenizer's [LexicalError], a [SyntaxError], or the [ValueError] of
    [int()] on a run of more than [int_max_str_digits] digits.  (The
    recursion limit of the interpreter, which a deeply nested expression
    exceeds, is not modelled.) *)
Theorem parse_never_passes_EOF :
  (forall toks,
     ends_with_only_EOF toks = true ->
     match parse (initial toks) with
     | Ok v s =>
         (exists expression, v = Some (ProgramNode expression)) /\
         current_token s <> None /\
         current_token_index s < List.length toks
     | Raise e s =>
         current_token s <> None /\
         current_token_index s < List.length toks /\
         e <> AttributeError /\
         ((exists m t, current_token s = Some t /\ e = SyntaxError m (position t)) \/
          (exists t, In t toks /\ (type t = INTEGER \/ type t = FLOAT) /\
                     number_value t = None /\ e = ValueError (value t))) /\
         ((forall t, In t toks -> type t = INTEGER \/ type t = FLOAT ->
                     number_value t <> None) ->
          exists m p, e = SyntaxError m p)
     | OutOfFuel => False
     end) /\
  (forall text,
     match parse_text text with
     | Returns v => exists expression, v = Some (ProgramNode expression)
     | Raises e =>
         (exists c p, e = LexicalError c p) \/
         (exists m p, e = SyntaxError m p) \/
         (exists digits,
            e = ValueError digits /\ int_max_str_digits < String.length digits)
     | Diverges => False
     end).
Proof.
  split; [exact parse_stays_on_a_token|].
  intros text. unfold parse_text, Parser_init.
  destruct (get_tokens text) as [e|ts] eqn:Et.
  - left. eapply scan_raises_LexicalError; eauto.
  - pose proof (parse_stays_on_a_token ts (get_tokens_ends_with_only_EOF _ Et)) as H.
    pose proof (get_tokens_literals _ _ Et) as Hlit.
    fold (initial ts). destruct (parse (initial ts)) as [v s|e s|]; simpl.
    + apply H.
    + right. destruct H as (_ & _ & _ & [(m & t & _ & ->)|(t & Hin & Hty & Hv & ->)] & _).
      * left. eauto.
      * right. exists (value t). split; [reflexivity|].
        destruct (proj1 (Forall_forall _ _) Hlit t Hin) as (Hfloat & Hint).
        destruct Hty as [Hty|Hty]; [|exfalso; exact (Hfloat Hty Hv)].
        destruct (Nat.le_gt_cases (String.length (value t)) int_max_str_digits)
          as [Hle|Hgt]; [exfalso; exact (Hint Hty Hle Hv) | exact Hgt].
    + exact H.
Qed.

Lemma parse_never_passes_EOF_witness :
  let plus := mkToken PLUS "+" 2 in
  let eof := mkToken EOF "" 3 in
  let toks := [mkToken INTEGER "2" 0; plus; eof] in
  parse (initial toks) =
    Raise (SyntaxError (UnexpectedToken eof) 3) (mkParser toks 2 (Some eof)) /\
  ends_with_only_EOF toks = true /\
  current_token_index (mkParser toks 2 (Some eof)) < List.length toks.
Proof.
  intros plus eof toks.
  assert (Hw : ends_with_only_EOF toks = true) by reflexivity.
  pose proof (proj1 parse_never_passes_EOF toks Hw) as H.
  change (parse (initial toks))
    with (@Raise (option Node) (SyntaxError (UnexpectedToken eof) 3)
            (mkParser toks 2 (Some eof))) in H.
  split; [reflexivity|]. split; [exact Hw|]. apply H.
Defined.

(** ** Whatever follows [EOF] *)

Lemma parse_program_settled toks o :
  o <> OutOfFuel ->
  (exists fuel0, forall fuel, fuel0 <= fuel -> parse_program fuel (initial toks) = o) ->
  parse_program (enough_fuel (initial toks)) (initial toks) = o.
Proof.
  intros Ho (f & Hrun).
  rewrite <- (Hrun (Nat.max f (enough_fuel (initial toks))) (Nat.le_max_l _ _)).
  symmetry. apply parse_program_fuel_independent; [apply Nat.le_max_r|].
  pose proof (parse_program_terminates (initial_consistent toks)) as H.
  unfold post in H. intros E. rewrite E in H. exact H.
Qed.

(** An expression followed by [EOF] is parsed to the [Program] of its tree,
    whatever comes after the [EOF]. *)
Lemma expression_node_parse e node eof rest :
  expression_node e node -> type eof = EOF ->
  parse_tokens (e ++ eof :: rest) = Returns (Some (ProgramNode node)).
Proof.
  intros Hnode Heof.
  assert (Hs : skipn 0 (e ++ eof :: rest) = e ++ eof :: rest) by reflexivity.
  assert (Hfollow : follows (eof :: rest)).
  { exists eof, rest. now rewrite Heof. }
  destruct (Hnode _ 0 _ Hs Hfollow) as (f & Hrun).
  pose proof (skipn_current _ _ _ _ (skipn_past _ _ _ _ Hs)) as Hcur.
  simpl Nat.add in *.
  assert (Hprog : parse_program (enough_fuel (initial (e ++ eof :: rest)))
                    (initial (e ++ eof :: rest)) =
                  Ok (ProgramNode node) (at_index (e ++ eof :: rest) (List.length e))).
  { apply parse_program_settled; [discriminate|].
    exists f. intros fuel Hfuel. unfold parse_program.
    rewrite (bind_Ok _ _ _ (Hrun fuel Hfuel)). reflexivity. }
  unfold parse_tokens. rewrite Parser_init_tokens. unfold parse.
  change (tokens (initial (e ++ eof :: rest))) with (e ++ eof :: rest).
  destruct (e ++ eof :: rest) as [|t0 ts0] eqn:Et.
  { destruct e; discriminate. }
  rewrite <- Et in *.
  rewrite (bind_Ok _ _ _ Hprog), (bind_attr _ _ Hcur), Heof. reflexivity.
Qed.

Lemma expression_raises_parse toks e j :
  toks <> [] -> raises_at parse_expression toks 0 e j ->
  parse_tokens toks = Raises e.
Proof.
  intros Hn (f & Hrun).
  unfold parse_tokens. rewrite Parser_init_tokens.
  rewrite (@parse_propagates (initial toks) e (at_index toks j));
    [reflexivity | assumption |].
  apply parse_program_settled; [discriminate|].
  exists f. intros fuel Hfuel. unfold parse_program.
  apply bind_Raise. apply (Hrun fuel Hfuel).
Qed.

(** ** The loop of [parse_binary_expression], one operator at a time *)

(** An operator below the minimum precedence is left where it is. *)
Lemma while_node_stop m left op prec e :
  precedence (type op) = Some prec -> (prec < m)%Z ->
  while_node m left (op :: e) [] left.
Proof.
  intros Hprec Hm T i rest Hs _. simpl in Hs.
  enough_fuel_for 1.
  rewrite binary_expression_while_eq, (bind_attr _ _ (skipn_current _ _ _ _ Hs)), Hprec.
  apply Z.leb_gt in Hm. rewrite Hm. simpl. rewrite Nat.add_0_r. reflexivity.
Qed.

(** An operator of at least the minimum precedence is taken: the right
    operand is read with [next_min_precedence], and the loop goes on with
    the new [BinaryOp] in hand. *)
Lemma while_node_operator m left op prec e1 r c w1 node :
  precedence (type op) = Some prec -> (m <= prec)%Z ->
  binary_node (next_min_precedence op prec) (e1 ++ c) e1 r ->
  while_node m (BinaryOpNode left (value op) r) c w1 node ->
  while_node m left (op :: e1 ++ c) (op :: e1 ++ w1) node.
Proof.
  intros Hprec Hm Hright Hloop T i rest Hs Hfollow. simpl in Hs.
  pose proof (skipn_current _ _ _ _ Hs) as Hcur.
  pose proof (skipn_next _ _ _ _ Hs) as Hs1.
  destruct (Hright T (S i) rest Hs1 Hfollow) as (f1 & Hr).
  rewrite <- app_assoc in Hs1. pose proof (skipn_past _ _ _ _ Hs1) as Hs2.
  destruct (Hloop T _ rest Hs2 Hfollow) as (f2 & Hl).
  enough_fuel_for (S (f1 + f2)).
  rewrite binary_expression_while_eq, (bind_attr _ _ Hcur), Hprec.
  apply Z.leb_le in Hm. rewrite Hm, bind_advance.
  change (advanced (at_index T i)) with (at_index T (S i)).
  unfold next_min_precedence in Hr.
  rewrite (bind_Ok _ _ _ (Hr fuel ltac:(lia))).
  rewrite (Hl fuel ltac:(lia)).
  replace (S i + List.length e1 + List.length w1)
    with (i + List.length (op :: e1 ++ w1))
    by (simpl; rewrite length_app; lia).
  reflexivity.
Qed.

(** [parse_binary_expression]: a primary, then the loop. *)
Lemma binary_node_while m p n c w1 node :
  primary_node p n -> while_node m n c w1 node ->
  binary_node m (p ++ c) (p ++ w1) node.
Proof.
  intros Hn Hloop T i rest Hs Hfollow. rewrite <- app_assoc in Hs.
  destruct (Hn T i _ Hs) as (f1 & H1).
  destruct (Hloop T _ rest (skipn_past _ _ _ _ Hs) Hfollow) as (f2 & H2).
  enough_fuel_for (S (f1 + f2)).
  rewrite parse_binary_expression_eq, (bind_Ok _ _ _ (H1 fuel ltac:(lia))).
  rewrite (H2 fuel ltac:(lia)). rewrite length_app, Nat.add_assoc. reflexivity.
Qed.

(** A primary before an operator below the minimum precedence. *)
Lemma binary_node_stop m p n op prec e :
  primary_node p n -> precedence (type op) = Some prec -> (prec < m)%Z ->
  binary_node m (p ++ op :: e) p n.
Proof.
  intros Hn Hprec Hm.
  rewrite <- (app_nil_r p) at 2.
  apply binary_node_while with (n := n); [assumption|].
  apply while_node_stop with (prec := prec); assumption.
Qed.

Lemma chain_tokens_cons l chain :
  chain_tokens (l :: chain) = link_operator l :: link_operand l ++ chain_tokens chain.
Proof. reflexivity. Qed.

(** Operators of one precedence, none of them [^]: the loop takes them one
    after the other, each with the primary after it. *)
Lemma while_node_left_chain k chain :
  Forall (fun l => precedence (type (link_operator l)) = Some k /\
                   type (link_operator l) <> POWER /\
                   primary_node (link_operand l) (link_node l)) chain ->
  forall m left, (m <= k)%Z ->
    while_node m left (chain_tokens chain) (chain_tokens chain) (left_chain left chain).
Proof.
  induction 1 as [|l chain (Hprec & Hpow & Hn) Hchain IH]; intros m left Hm.
  { apply while_node_end. }
  rewrite chain_tokens_cons.
  apply while_node_operator with (prec := k) (r := link_node l);
    [assumption | assumption | | apply IH; assumption].
  unfold next_min_precedence.
  apply TokenType_eqb_neq in Hpow. rewrite Hpow.
  rewrite <- (app_nil_r (link_operand l)) at 2.
  apply binary_node_while with (n := link_node l); [assumption|].
  destruct Hchain as [|l' chain' (Hprec' & _) _].
  - apply while_node_end.
  - rewrite chain_tokens_cons.
    apply while_node_stop with (prec := k); [assumption | lia].
Qed.

(** A chain of [^]: each right operand takes the rest of the chain. *)
Lemma binary_node_right_chain chain :
  Forall (fun l => type (link_operator l) = POWER /\
                   primary_node (link_operand l) (link_node l)) chain ->
  forall m p n, (m <= 3)%Z -> primary_node p n ->
    binary_node m (p ++ chain_tokens chain) (p ++ chain_tokens chain)
      (right_chain n chain).
Proof.
  induction 1 as [|l chain (Hpow & Hn) Hchain IH]; intros m p n Hm Hp.
  { simpl. rewrite app_nil_r. apply binary_node_primary. assumption. }
  rewrite chain_tokens_cons. simpl right_chain.
  apply binary_node_operator with (prec := 3%Z);
    [assumption | now rewrite Hpow | assumption |].
  rewrite Hpow. cbn [TokenType_eqb].
  apply IH; [lia | assumption].
Qed.

Lemma signs_node signs p n :
  Forall is_sign signs -> primary_node p n ->
  primary_node (signs ++ p) (signed signs n).
Proof.
  intros Hsigns Hn. induction Hsigns as [|sign signs [Hs|Hs] _ IH]; simpl.
  - assumption.
  - rewrite Hs. cbn [TokenType_eqb]. apply minus_node; assumption.
  - rewrite Hs. cbn [TokenType_eqb]. apply plus_node; assumption.
Qed.

(** A parenthesized expression has the tree of the expression. *)
Lemma group_node lp e rp n :
  type lp = LPAREN -> expression_node e n -> type rp = RPAREN ->
  primary_node (lp :: e ++ [rp]) n.
Proof.
  intros Hlp Hnode Hrp T i rest Hs. simpl in Hs.
  pose proof (skipn_current _ _ _ _ Hs) as Hcur.
  pose proof (skipn_next _ _ _ _ Hs) as Hs1.
  rewrite <- app_assoc in Hs1. change ([rp] ++ rest) with (rp :: rest) in Hs1.
  assert (Hfollow : follows (rp :: rest)).
  { exists rp, rest. now rewrite Hrp. }
  destruct (Hnode T (S i) _ Hs1 Hfollow) as (f & Hrun).
  pose proof (skipn_past _ _ _ _ Hs1) as Hs2.
  enough_fuel_for (S (S f)).
  rewrite parse_primary_eq, (bind_attr _ _ Hcur), Hlp.
  destruct fuel as [|fuel]; [lia|].
  rewrite _parse_parenthesized_expression_eq, bind_advance.
  change (advanced (at_index T i)) with (at_index T (S i)).
  rewrite (bind_Ok _ _ _ (Hrun fuel ltac:(lia))).
  rewrite (bind_attr _ _ (skipn_current _ _ _ _ Hs2)), Hrp. cbn [TokenType_eqb negb].
  rewrite bind_advance. unfold ret. f_equal. unfold advanced, at_index. simpl.
  rewrite length_app. simpl.
  replace (i + S (List.length e + 1)) with (S (S (i + List.length e))) by lia.
  reflexivity.
Qed.

Lemma expression_node_primary p n : primary_node p n -> expression_node p n.
Proof. intros H. apply expression_node_binary, binary_node_primary, H. Qed.

Lemma expression_node_operator p n op prec q r :
  primary_node p n -> precedence (type op) = Some prec -> primary_node q r ->
  expression_node (p ++ op :: q) (BinaryOpNode n (value op) r).
Proof.
  intros Hp Hprec Hq. apply expression_node_binary.
  apply binary_node_operator with (prec := prec); [assumption | assumption | |].
  - apply precedence_positive in Hprec. lia.
  - apply binary_node_primary. assumption.
Qed.

Ltac same_tokens :=
  repeat (progress (simpl; rewrite <- ?app_assoc)); reflexivity.

(** ** Parentheses *)

(** X1: [_parse_parenthesized_expression] returns the tree of the
    expression between the parentheses and adds no node of its own: for
    every expression [e] of the grammar, [( e )] is parsed to the tree of
    [e]; and the parentheses decide the grouping whatever the operators
    are: [(a op1 b) op2 c] is [BinaryOp(BinaryOp(a,op1,b),op2,c)] and
    [a op1 (b op2 c)] is [BinaryOp(a,op1,BinaryOp(b,op2,c))].  (Each pair
    of parentheses is four more nested calls; the recursion limit of the
    interpreter, which a deeply nested expression exceeds, is not
    modelled.) *)
Theorem parentheses_group_without_a_node :
  (forall lp e rp eof,
     is_expression e -> type lp = LPAREN -> type rp = RPAREN -> type eof = EOF ->
     exists n,
       parse_tokens (e ++ [eof]) = Returns (Some (ProgramNode n)) /\
       parse_tokens (lp :: e ++ [rp; eof]) = Returns (Some (ProgramNode n))) /\
  (forall lp a na op1 p1 b nb rp op2 p2 c nc eof,
     primary_node a na -> primary_node b nb -> primary_node c nc ->
     precedence (type op1) = Some p1 -> precedence (type op2) = Some p2 ->
     type lp = LPAREN -> type rp = RPAREN -> type eof = EOF ->
     parse_tokens (lp :: a ++ op1 :: b ++ rp :: op2 :: c ++ [eof]) =
     Returns (Some (ProgramNode
       (BinaryOpNode (BinaryOpNode na (value op1) nb) (value op2) nc)))) /\
  (forall lp a na op1 p1 b nb rp op2 p2 c nc eof,
     primary_node a na -> primary_node b nb -> primary_node c nc ->
     precedence (type op1) = Some p1 -> precedence (type op2) = Some p2 ->
     type lp = LPAREN -> type rp = RPAREN -> type eof = EOF ->
     parse_tokens (a ++ op1 :: lp :: b ++ op2 :: c ++ [rp; eof]) =
     Returns (Some (ProgramNode
       (BinaryOpNode na (value op1) (BinaryOpNode nb (value op2) nc))))).
Proof.
  split; [|split].
  - intros lp e rp eof He Hlp Hrp Heof.
    destruct (is_expression_node e He) as (n & Hn).
    exists n. split; [apply expression_node_parse; assumption|].
    replace (lp :: e ++ [rp; eof]) with ((lp :: e ++ [rp]) ++ [eof]) by same_tokens.
    apply expression_node_parse; [|assumption].
    apply expression_node_primary, group_node; assumption.
  - intros lp a na op1 p1 b nb rp op2 p2 c nc eof Ha Hb Hc H1 H2 Hlp Hrp Heof.
    replace (lp :: a ++ op1 :: b ++ rp :: op2 :: c ++ [eof])
      with (((lp :: (a ++ op1 :: b) ++ [rp]) ++ op2 :: c) ++ [eof]) by same_tokens.
    apply expression_node_parse; [|assumption].
    apply expression_node_operator with (prec := p2); [|assumption|assumption].
    apply group_node; [assumption | | assumption].
    apply expression_node_operator with (prec := p1); assumption.
  - intros lp a na op1 p1 b nb rp op2 p2 c nc eof Ha Hb Hc H1 H2 Hlp Hrp Heof.
    replace (a ++ op1 :: lp :: b ++ op2 :: c ++ [rp; eof])
      with ((a ++ op1 :: (lp :: (b ++ op2 :: c) ++ [rp])) ++ [eof]) by same_tokens.
    apply expression_node_parse; [|assumption].
    apply expression_node_operator with (prec := p1); [assumption|assumption|].
    apply group_node; [assumption | | assumption].
    apply expression_node_operator with (prec := p2); assumption.
Qed.

Lemma parentheses_group_without_a_node_witness :
  let lp := mkToken LPAREN "(" 0 in
  let rp := mkToken RPAREN ")" 0 in
  let a := mkToken IDENTIFIER "a" 0 in
  let b := mkToken IDENTIFIER "b" 0 in
  let c := mkToken INTEGER "3" 0 in
  let plus := mkToken PLUS "+" 0 in
  let times := mkToken MULTIPLY "*" 0 in
  let power := mkToken POWER "^" 0 in
  let eof := mkToken EOF "" 0 in
  (exists n,
     parse_tokens [a; plus; b; eof] = Returns (Some (ProgramNode n)) /\
     parse_tokens [lp; a; plus; b; rp; eof] = Returns (Some (ProgramNode n))) /\
  parse_tokens [lp; a; plus; b; rp; times; c; eof] =
    Returns (Some (ProgramNode
      (BinaryOpNode (BinaryOpNode (IdentifierNode "a") "+" (IdentifierNode "b"))
         "*" (NumberNode (PyInt 3))))) /\
  parse_tokens [a; power; lp; b; power; c; rp; eof] =
    Returns (Some (ProgramNode
      (BinaryOpNode (IdentifierNode "a") "^"
         (BinaryOpNode (IdentifierNode "b") "^" (NumberNode (PyInt 3)))))).
Proof.
  intros lp rp a b c plus times power eof.
  destruct parentheses_group_without_a_node as (Hsame & Hleft & Hright).
  assert (Ha : primary_node [a] (IdentifierNode "a"))
    by (apply leaf_primary_node; reflexivity).
  assert (Hb : primary_node [b] (IdentifierNode "b"))
    by (apply leaf_primary_node; reflexivity).
  assert (Hc : primary_node [c] (NumberNode (PyInt 3)))
    by (apply leaf_primary_node; reflexivity).
  split; [|split].
  - apply (Hsame lp [a; plus; b] rp eof);
      [ | reflexivity | reflexivity | reflexivity ].
    apply (@expression_binary [a] plus 1%Z [b]);
      [ apply (@primary_leaf a (IdentifierNode "a")); reflexivity
      | reflexivity
      | apply expression_primary, (@primary_leaf b (IdentifierNode "b"));
        reflexivity ].
  - apply (Hleft lp [a] _ plus 1%Z [b] _ rp times 2%Z [c] _ eof Ha Hb Hc);
      reflexivity.
  - apply (Hright lp [a] _ power 3%Z [b] _ rp power 3%Z [c] _ eof Ha Hb Hc);
      reflexivity.
Defined.

(** ** Chains of binary operators *)

(** X2: operators of one precedence other than [^] group to the left,
    however many there are: for primaries [p0], ..., [pn] and operators
    [op1], ..., [opn] that are all [+] or [-], or all [*] or [/], the tree of
    [p0 op1 p1 ... opn pn] is
    [BinaryOp(... BinaryOp(BinaryOp(p0,op1,p1),op2,p2) ..., opn, pn)]. *)
Theorem equal_precedence_chain_groups_left :
  forall k p n chain eof,
    primary_node p n ->
    Forall (fun l => precedence (type (link_operator l)) = Some k /\
                     type (link_operator l) <> POWER /\
                     primary_node (link_operand l) (link_node l)) chain ->
    type eof = EOF ->
    parse_tokens (p ++ chain_tokens chain ++ [eof]) =
    Returns (Some (ProgramNode (left_chain n chain))).
Proof.
  intros k p n chain eof Hp Hchain Heof.
  rewrite app_assoc. apply expression_node_parse; [|assumption].
  apply expression_node_binary.
  apply binary_node_while with (n := n); [assumption|].
  destruct Hchain as [|l chain (Hprec & Hpow & Hn) Hchain].
  { apply while_node_end. }
  apply while_node_left_chain with (k := k).
  - constructor; auto.
  - apply precedence_positive in Hprec. lia.
Qed.

Lemma equal_precedence_chain_groups_left_witness :
  let a := mkToken IDENTIFIER "a" 0 in
  let b := mkToken IDENTIFIER "b" 2 in
  let c := mkToken IDENTIFIER "c" 4 in
  let d := mkToken IDENTIFIER "d" 6 in
  let minus := mkToken MINUS "-" 1 in
  let plus := mkToken PLUS "+" 3 in
  let eof := mkToken EOF "" 7 in
  parse_tokens [a; minus; b; plus; c; minus; d; eof] =
    Returns (Some (ProgramNode
      (BinaryOpNode
         (BinaryOpNode
            (BinaryOpNode (IdentifierNode "a") "-" (IdentifierNode "b"))
            "+" (IdentifierNode "c"))
         "-" (IdentifierNode "d")))).
Proof.
  intros a b c d minus plus eof.
  apply (equal_precedence_chain_groups_left 1%Z [a] (IdentifierNode "a")
           [mkLink minus [b] (IdentifierNode "b");
            mkLink plus [c] (IdentifierNode "c");
            mkLink minus [d] (IdentifierNode "d")] eof).
  - apply leaf_primary_node; reflexivity.
  - apply Forall_cons; [|apply Forall_cons; [|apply Forall_cons; [|apply Forall_nil]]];
      (split; [reflexivity|]; split; [discriminate|]; apply leaf_primary_node;
       reflexivity).
  - reflexivity.
Defined.

(** X3: [^] groups to the right, however many there are: for primaries
    [p0], ..., [pn] the tree of [p0 ^ p1 ^ ... ^ pn] is
    [BinaryOp(p0,'^',BinaryOp(p1,'^', ... BinaryOp(p(n-1),'^',pn)))].  (Each
    [^] is one more nested call; the recursion limit of the interpreter is
    not modelled.) *)
Theorem power_chain_groups_right :
  forall p n chain eof,
    primary_node p n ->
    Forall (fun l => type (link_operator l) = POWER /\
                     primary_node (link_operand l) (link_node l)) chain ->
    type eof = EOF ->
    parse_tokens (p ++ chain_tokens chain ++ [eof]) =
    Returns (Some (ProgramNode (right_chain n chain))).
Proof.
  intros p n chain eof Hp Hchain Heof.
  rewrite app_assoc. apply expression_node_parse; [|assumption].
  apply expression_node_binary.
  apply binary_node_right_chain; [assumption | lia | assumption].
Qed.

Lemma power_chain_groups_right_witness :
  let a := mkToken IDENTIFIER "a" 0 in
  let b := mkToken IDENTIFIER "b" 2 in
  let c := mkToken IDENTIFIER "c" 4 in
  let d := mkToken IDENTIFIER "d" 6 in
  let power := mkToken POWER "^" 1 in
  let eof := mkToken EOF "" 7 in
  parse_tokens [a; power; b; power; c; power; d; eof] =
    Returns (Some (ProgramNode
      (BinaryOpNode (IdentifierNode "a") "^"
         (BinaryOpNode (IdentifierNode "b") "^"
            (BinaryOpNode (IdentifierNode "c") "^" (IdentifierNode "d")))))).
Proof.
  intros a b c d power eof.
  apply (power_chain_groups_right [a] (IdentifierNode "a")
           [mkLink power [b] (IdentifierNode "b");
            mkLink power [c] (IdentifierNode "c");
            mkLink power [d] (IdentifierNode "d")] eof).
  - apply leaf_primary_node; reflexivity.
  - apply Forall_cons; [|apply Forall_cons; [|apply Forall_cons; [|apply Forall_nil]]];
      (split; [reflexivity|]; apply leaf_primary_node; reflexivity).
  - reflexivity.
Defined.

(** The tree of [a op1 b op2 c]. *)
Lemma two_operators_node a na op1 p1 b nb op2 p2 c nc :
  primary_node a na -> primary_node b nb -> primary_node c nc ->
  precedence (type op1) = Some p1 -> precedence (type op2) = Some p2 ->
  expression_node (a ++ op1 :: b ++ op2 :: c)
    (if (next_min_precedence op1 p1 <=? p2)%Z
     then BinaryOpNode na (value op1) (BinaryOpNode nb (value op2) nc)
     else BinaryOpNode (BinaryOpNode na (value op1) nb) (value op2) nc).
Proof.
  intros Ha Hb Hc H1 H2.
  apply expression_node_binary.
  pose proof (precedence_positive _ _ H1) as Hpos1.
  pose proof (precedence_positive _ _ H2) as Hpos2.
  destruct (next_min_precedence op1 p1 <=? p2)%Z eqn:Hnext.
  - apply binary_node_operator with (prec := p1); [assumption|assumption|lia|].
    apply binary_node_operator with (prec := p2); [assumption|assumption| |].
    + apply Z.leb_le in Hnext. exact Hnext.
    + apply binary_node_primary. assumption.
  - apply binary_node_while with (n := na); [assumption|].
    apply while_node_operator with (prec := p1) (r := nb) (c := op2 :: c)
                                   (w1 := op2 :: c);
      [assumption | lia | |].
    + apply binary_node_stop with (prec := p2); [assumption|assumption|].
      apply Z.leb_gt in Hnext. exact Hnext.
    + rewrite <- (app_nil_r c).
      apply while_node_operator with (prec := p2) (r := nc);
        [assumption | lia | | apply while_node_end].
      rewrite app_nil_r. apply binary_node_primary. assumption.
Qed.

(** X4: two operators between three primaries: the second operator goes
    into the right operand of the first exactly when its precedence is at
    least [next_min_precedence] of the first, that is, when it binds tighter
    than the first, or the first is [^] and the second is [*], [/] or [^];
    otherwise the first operation is the left operand of the second. *)
Theorem second_operator_joins_right_operand_or_not :
  forall a na op1 p1 b nb op2 p2 c nc eof,
    primary_node a na -> primary_node b nb -> primary_node c nc ->
    precedence (type op1) = Some p1 -> precedence (type op2) = Some p2 ->
    type eof = EOF ->
    parse_tokens (a ++ op1 :: b ++ op2 :: c ++ [eof]) =
    Returns (Some (ProgramNode
      (if (next_min_precedence op1 p1 <=? p2)%Z
       then BinaryOpNode na (value op1) (BinaryOpNode nb (value op2) nc)
       else BinaryOpNode (BinaryOpNode na (value op1) nb) (value op2) nc))) /\
    (next_min_precedence op1 p1 <=? p2)%Z =
    ((p1 <? p2)%Z || (TokenType_eqb (type op1) POWER && (2 <=? p2)%Z)).
Proof.
  intros a na op1 p1 b nb op2 p2 c nc eof Ha Hb Hc H1 H2 Heof.
  split.
  - replace (a ++ op1 :: b ++ op2 :: c ++ [eof])
      with ((a ++ op1 :: b ++ op2 :: c) ++ [eof]) by same_tokens.
    apply expression_node_parse; [|assumption].
    apply two_operators_node; assumption.
  - unfold next_min_precedence.
    destruct (type op1); try discriminate H1; injection H1 as <-;
      destruct (type op2); try discriminate H2; injection H2 as <-; reflexivity.
Qed.

Lemma second_operator_joins_right_operand_or_not_witness :
  let a := mkToken IDENTIFIER "a" 0 in
  let b := mkToken IDENTIFIER "b" 2 in
  let c := mkToken IDENTIFIER "c" 4 in
  let power := mkToken POWER "^" 1 in
  let plus := mkToken PLUS "+" 3 in
  let eof := mkToken EOF "" 5 in
  parse_tokens [a; power; b; plus; c; eof] =
    Returns (Some (ProgramNode
      (BinaryOpNode (BinaryOpNode (IdentifierNode "a") "^" (IdentifierNode "b"))
         "+" (IdentifierNode "c")))) /\
  parse_tokens [a; plus; b; power; c; eof] =
    Returns (Some (ProgramNode
      (BinaryOpNode (IdentifierNode "a") "+"
         (BinaryOpNode (IdentifierNode "b") "^" (IdentifierNode "c"))))).
Proof.
  intros a b c power plus eof.
  split.
  - apply (second_operator_joins_right_operand_or_not
             [a] (IdentifierNode "a") power 3%Z [b] (IdentifierNode "b")
             plus 1%Z [c] (IdentifierNode "c") eof);
      [ apply leaf_primary_node; reflexivity
      | apply leaf_primary_node; reflexivity
      | apply leaf_primary_node; reflexivity
      | reflexivity | reflexivity | reflexivity ].
  - apply (second_operator_joins_right_operand_or_not
             [a] (IdentifierNode "a") plus 1%Z [b] (IdentifierNode "b")
             power 3%Z [c] (IdentifierNode "c") eof);
      [ apply leaf_primary_node; reflexivity
      | apply leaf_primary_node; reflexivity
      | apply leaf_primary_node; reflexivity
      | reflexivity | reflexivity | reflexivity ].
Defined.

(** ** Chains of signs *)

(** X5: any number of leading signs: [parse_primary] calls itself once per
    sign, so [s1 ... sn p] is the tree of the primary [p] inside one
    [UnaryOp('-', _)] per [-], in the order of the signs, with nothing for
    a [+]; and the signs of an operand stay inside that operand of a binary
    operator.  (Each sign is one more nested call; the recursion limit of
    the interpreter is not modelled.) *)
Theorem each_minus_sign_wraps_the_primary :
  (forall signs p n eof,
     Forall is_sign signs -> primary_node p n -> type eof = EOF ->
     parse_tokens (signs ++ p ++ [eof]) =
     Returns (Some (ProgramNode (signed signs n)))) /\
  (forall signs p n op prec signs' q r eof,
     Forall is_sign signs -> primary_node p n ->
     precedence (type op) = Some prec ->
     Forall is_sign signs' -> primary_node q r -> type eof = EOF ->
     parse_tokens (signs ++ p ++ op :: signs' ++ q ++ [eof]) =
     Returns (Some (ProgramNode
       (BinaryOpNode (signed signs n) (value op) (signed signs' r))))).
Proof.
  split.
  - intros signs p n eof Hsigns Hp Heof.
    rewrite app_assoc. apply expression_node_parse; [|assumption].
    apply expression_node_primary, signs_node; assumption.
  - intros signs p n op prec signs' q r eof Hsigns Hp Hprec Hsigns' Hq Heof.
    replace (signs ++ p ++ op :: signs' ++ q ++ [eof])
      with (((signs ++ p) ++ op :: (signs' ++ q)) ++ [eof]) by same_tokens.
    apply expression_node_parse; [|assumption].
    apply expression_node_operator with (prec := prec);
      [apply signs_node | | apply signs_node]; assumption.
Qed.

Lemma each_minus_sign_wraps_the_primary_witness :
  let minus := mkToken MINUS "-" 0 in
  let plus := mkToken PLUS "+" 0 in
  let x := mkToken IDENTIFIER "x" 0 in
  let two := mkToken INTEGER "2" 0 in
  let power := mkToken POWER "^" 0 in
  let eof := mkToken EOF "" 0 in
  parse_tokens [minus; plus; minus; x; eof] =
    Returns (Some (ProgramNode
      (UnaryOpNode "-" (UnaryOpNode "-" (IdentifierNode "x"))))) /\
  parse_tokens [x; power; minus; two; eof] =
    Returns (Some (ProgramNode
      (BinaryOpNode (IdentifierNode "x") "^"
         (UnaryOpNode "-" (NumberNode (PyInt 2)))))).
Proof.
  intros minus plus x two power eof.
  destruct each_minus_sign_wraps_the_primary as (Hsigns & Hop).
  split.
  - apply (Hsigns [minus; plus; minus] [x] (IdentifierNode "x") eof);
      [ | apply leaf_primary_node; reflexivity | reflexivity ].
    apply Forall_cons; [left; reflexivity|].
    apply Forall_cons; [right; reflexivity|].
    apply Forall_cons; [left; reflexivity|]. apply Forall_nil.
  - apply (Hop [] [x] (IdentifierNode "x") power 3%Z [minus] [two]
             (NumberNode (PyInt 2)) eof);
      [ apply Forall_nil
      | apply leaf_primary_node; reflexivity
      | reflexivity
      | apply Forall_cons; [left; reflexivity | apply Forall_nil]
      | apply leaf_primary_node; reflexivity
      | reflexivity ].
Defined.

(** ** Errors where an operand or a [)] is expected *)

Lemma parse_primary_unexpected fuel self t :
  current_token self = Some t -> starts_primary (type t) = false ->
  parse_primary (S fuel) self =
  Raise (SyntaxError (UnexpectedToken t) (position t)) self.
Proof.
  intros Ht Hs. rewrite parse_primary_eq, (bind_attr _ _ Ht).
  destruct (type t); try discriminate Hs; reflexivity.
Qed.

Lemma primary_raises_binary m T i e j :
  raises_at parse_primary T i e j ->
  raises_at (fun fuel => parse_binary_expression fuel m) T i e j.
Proof.
  intros (f & Hrun). enough_fuel_for (S f).
  rewrite parse_binary_expression_eq. apply bind_Raise. apply Hrun. lia.
Qed.

Lemma binary_raises_expression T i e j :
  raises_at (fun fuel => parse_binary_expression fuel 0%Z) T i e j ->
  raises_at parse_expression T i e j.
Proof.
  intros (f & Hrun). enough_fuel_for (S f).
  rewrite parse_expression_eq. apply Hrun. lia.
Qed.

(** An exception of the expression after [(]. *)
Lemma group_then_raises lp rest T i e j :
  type lp = LPAREN -> skipn i T = lp :: rest ->
  raises_at parse_expression T (S i) e j ->
  raises_at parse_primary T i e j.
Proof.
  intros Hlp Hs (f & Hrun).
  enough_fuel_for (S (S f)).
  rewrite parse_primary_eq, (bind_attr _ _ (skipn_current _ _ _ _ Hs)), Hlp.
  destruct fuel as [|fuel]; [lia|].
  rewrite _parse_parenthesized_expression_eq, bind_advance.
  change (advanced (at_index T i)) with (at_index T (S i)).
  apply bind_Raise. apply Hrun. lia.
Qed.

Lemma skipn_length_app (a b : list Token) : skipn (List.length a) (a ++ b) = b.
Proof. induction a as [|t a IH]; simpl; auto. Qed.

(** An exception of the primary after signs. *)
Lemma signs_then_raises signs T ex j :
  Forall is_sign signs ->
  forall i tail, skipn i T = signs ++ tail ->
    raises_at parse_primary T (i + List.length signs) ex j ->
    raises_at parse_primary T i ex j.
Proof.
  induction 1 as [|sign signs Hsign _ IH]; intros i tail Hs Hr.
  - simpl in Hr. now rewrite Nat.add_0_r in Hr.
  - simpl in Hs. pose proof (skipn_current _ _ _ _ Hs) as Hcur.
    simpl List.length in Hr. rewrite Nat.add_succ_r in Hr.
    destruct (IH (S i) tail (skipn_next _ _ _ _ Hs) Hr) as (f & Hrun).
    enough_fuel_for (S f).
    rewrite parse_primary_eq, (bind_attr _ _ Hcur).
    destruct Hsign as [Hsign|Hsign]; rewrite Hsign, bind_advance;
      change (advanced (at_index T i)) with (at_index T (S i)).
    + apply bind_Raise. apply Hrun. lia.
    + apply Hrun. lia.
Qed.

Lemma while_stops_run T i op tail prec m left :
  skipn i T = op :: tail -> precedence (type op) = Some prec -> (prec < m)%Z ->
  returns_at (fun fuel => binary_expression_while fuel m left) T i left i.
Proof.
  intros Hs Hprec Hm. enough_fuel_for 1.
  rewrite binary_expression_while_eq, (bind_attr _ _ (skipn_current _ _ _ _ Hs)), Hprec.
  apply Z.leb_gt in Hm. rewrite Hm. reflexivity.
Qed.

Lemma while_takes_run T i op tail prec m left fuel :
  skipn i T = op :: tail -> precedence (type op) = Some prec -> (m <= prec)%Z ->
  binary_expression_while (S fuel) m left (at_index T i) =
  (right <- parse_binary_expression fuel (next_min_precedence op prec) ;;
   binary_expression_while fuel m (BinaryOpNode left (value op) right))
    (at_index T (S i)).
Proof.
  intros Hs Hprec Hm.
  rewrite binary_expression_while_eq, (bind_attr _ _ (skipn_current _ _ _ _ Hs)), Hprec.
  apply Z.leb_le in Hm. rewrite Hm, bind_advance. reflexivity.
Qed.

Lemma open_chain_head op prec c :
  precedence (type op) = Some prec -> open_chain op c ->
  exists op' prec' r,
    c = op' :: r /\ precedence (type op') = Some prec' /\
    (r = [] /\ op' = op \/ exists e', r = e' ++ [op] /\ is_expression e').
Proof.
  intros Hprec [->|(op' & prec' & e' & -> & Hp' & He')].
  - exists op, prec, []. auto.
  - exists op', prec', (e' ++ [op]). split; [reflexivity|]. split; [assumption|].
    right. exists e'. auto.
Qed.

(** The loop and [parse_binary_expression] over an expression, an operator
    and an operand on which [parse_primary] raises. *)
Lemma raise_passes n T ex j op prec :
  precedence (type op) = Some prec -> raise_passes_upto n T ex j op.
Proof.
  intros Hprec. induction n as [|n (IHb & IHw)].
  { split.
    - intros e i tail m Hlen He.
      destruct (is_expression_head _ He) as (t & x & -> & _). simpl in Hlen. lia.
    - intros c i tail m left Hlen Hc.
      destruct (open_chain_head op prec c Hprec Hc) as (op' & prec' & r & -> & _).
      simpl in Hlen. lia. }
  assert (Hw : forall c i tail m left,
            List.length c <= S n -> open_chain op c ->
            skipn i T = c ++ tail ->
            raises_at parse_primary T (i + List.length c) ex j ->
            raises_or_stops (fun fuel => binary_expression_while fuel m left)
              T ex j op m c i).
  { intros c i tail m left Hlen Hc Hs Hr.
    destruct (open_chain_head op prec c Hprec Hc) as (op' & prec' & r & -> & Hp' & Hr').
    simpl in Hs.
    destruct (Z.lt_ge_cases prec' m) as [Hlt|Hge].
    - right. exists left, [], (op' :: r).
      split; [reflexivity|]. split; [exact Hc|].
      split; [exists op', prec', r; auto|].
      rewrite Nat.add_0_r. apply (while_stops_run T i op' (r ++ tail) prec'); auto.
    - destruct Hr' as [(-> & ->)|(e' & -> & He')].
      + left. simpl in Hr.
        destruct (primary_raises_binary (next_min_precedence op prec') T (i + 1) ex j Hr)
          as (f & Hrun).
        enough_fuel_for (S f).
        rewrite (while_takes_run T i op tail prec' m left fuel Hs Hp' Hge).
        apply bind_Raise. replace (S i) with (i + 1) by lia. apply Hrun. lia.
      + simpl in Hlen. rewrite length_app in Hlen. simpl in Hlen.
        rewrite <- app_assoc in Hs. simpl in Hs.
        pose proof (skipn_next _ _ _ _ Hs) as Hs1.
        assert (Hr1 : raises_at parse_primary T (S i + List.length e' + 1) ex j).
        { replace (S i + List.length e' + 1)
            with (i + List.length (op' :: e' ++ [op]))
            by (simpl; rewrite length_app; simpl; lia).
          exact Hr. }
        destruct (IHb e' (S i) tail (next_min_precedence op' prec') ltac:(lia) He' Hs1 Hr1)
          as [(f & Hrun)|(node' & w1' & s' & Hsplit & Hchain & Hstop & (f & Hrun))].
        * left. enough_fuel_for (S f).
          rewrite (while_takes_run T i op' _ prec' m left fuel Hs Hp' Hge).
          apply bind_Raise. apply Hrun. lia.
        * assert (Hs2 : skipn (S i + List.length w1') T = s' ++ tail).
          { apply skipn_past. rewrite app_assoc, <- Hsplit, <- app_assoc. exact Hs1. }
          assert (Hsize : List.length e' + 1 = List.length w1' + List.length s').
          { rewrite <- !length_app, <- Hsplit. rewrite length_app. reflexivity. }
          assert (Hr2 : raises_at parse_primary T
                          (S i + List.length w1' + List.length s') ex j).
          { replace (S i + List.length w1' + List.length s')
              with (S i + List.length e' + 1) by lia.
            exact Hr1. }
          destruct (IHw s' (S i + List.length w1') tail m
                      (BinaryOpNode left (value op') node') ltac:(lia) Hchain Hs2 Hr2)
            as [(f2 & Hrun2)|(node & w1 & s & Es & Hchain2 & Hstop2 & (f2 & Hrun2))].
          -- left. enough_fuel_for (S (f + f2)).
             rewrite (while_takes_run T i op' _ prec' m left fuel Hs Hp' Hge).
             rewrite (bind_Ok _ _ _ (Hrun fuel ltac:(lia))).
             apply Hrun2. lia.
          -- right. exists node, (op' :: w1' ++ w1), s.
             split; [simpl; rewrite <- app_assoc, <- Es, <- Hsplit; reflexivity|].
             split; [assumption|]. split; [assumption|].
             enough_fuel_for (S (f + f2)).
             rewrite (while_takes_run T i op' _ prec' m left fuel Hs Hp' Hge).
             rewrite (bind_Ok _ _ _ (Hrun fuel ltac:(lia))).
             rewrite (Hrun2 fuel ltac:(lia)). f_equal. f_equal.
             simpl. rewrite length_app. lia. }
  split; [|exact Hw].
  intros e i tail m Hlen He Hs Hr.
  assert (Hsplit : exists p c,
            is_primary p /\ open_chain op c /\ e ++ [op] = p ++ c /\
            List.length c <= S n).
  { destruct He as [p Hp|p op1 prec1 e1 Hp Hprec1 He1].
    - exists p, [op]. repeat split; auto; [left; reflexivity|simpl; lia].
    - exists p, (op1 :: e1 ++ [op]).
      split; [assumption|]. split; [right; exists op1, prec1, e1; auto|].
      split; [rewrite <- app_assoc; reflexivity|].
      destruct (is_primary_head _ Hp) as (t & x & -> & _).
      simpl in *. rewrite !length_app in *. simpl in *. lia. }
  destruct Hsplit as (p & c & Hp & Hc & Ec & Hlenc).
  destruct (is_primary_node p Hp) as (n0 & Hn0).
  assert (Hs' : skipn i T = p ++ c ++ tail).
  { rewrite app_assoc, <- Ec, <- app_assoc. exact Hs. }
  destruct (Hn0 T i _ Hs') as (f1 & H1).
  assert (Hsize : List.length e + 1 = List.length p + List.length c).
  { rewrite <- !length_app, <- Ec. rewrite length_app. reflexivity. }
  assert (Hr' : raises_at parse_primary T (i + List.length p + List.length c) ex j).
  { replace (i + List.length p + List.length c) with (i + List.length e + 1) by lia.
    exact Hr. }
  destruct (Hw c (i + List.length p) tail m n0 Hlenc Hc (skipn_past _ _ _ _ Hs') Hr')
    as [(f2 & H2)|(node & w1 & s & Es & Hchain & Hstop & (f2 & H2))].
  - left. enough_fuel_for (S (f1 + f2)).
    rewrite parse_binary_expression_eq, (bind_Ok _ _ _ (H1 fuel ltac:(lia))).
    apply H2. lia.
  - right. exists node, (p ++ w1), s.
    split; [rewrite Ec, Es, app_assoc; reflexivity|].
    split; [assumption|]. split; [assumption|].
    enough_fuel_for (S (f1 + f2)).
    rewrite parse_binary_expression_eq, (bind_Ok _ _ _ (H1 fuel ltac:(lia))).
    rewrite (H2 fuel ltac:(lia)). f_equal. f_equal. rewrite length_app. lia.
Qed.

(** An exception of the operand after an expression and an operator. *)
Lemma operator_then_operand_raises e op prec T i tail ex j :
  is_expression e -> precedence (type op) = Some prec ->
  skipn i T = e ++ op :: tail ->
  raises_at parse_primary T (i + List.length e + 1) ex j ->
  raises_at (fun fuel => parse_binary_expression fuel 0%Z) T i ex j.
Proof.
  intros He Hprec Hs Hr.
  destruct (proj1 (raise_passes (List.length e) T ex j op prec Hprec)
              e i tail 0%Z (Nat.le_refl _) He Hs Hr)
    as [H|(node & w1 & s & _ & _ & (op' & prec' & r & _ & Hp' & Hlt) & _)];
    [exact H|].
  apply precedence_positive in Hp'. lia.
Qed.

(** An exception where an operand is expected is an exception of the
    expression. *)
Lemma operand_prefix_raises x T i tail ex j :
  operand_prefix x -> skipn i T = x ++ tail ->
  raises_at parse_primary T (i + List.length x) ex j ->
  raises_at parse_expression T i ex j.
Proof.
  intros Hx Hs Hr. apply binary_raises_expression.
  destruct Hx as [signs Hsigns|e op prec signs He Hprec Hsigns].
  - apply primary_raises_binary.
    apply (signs_then_raises signs T ex j Hsigns i tail); assumption.
  - rewrite <- app_assoc in Hs. simpl in Hs.
    apply (operator_then_operand_raises e op prec T i (signs ++ tail)); auto.
    apply (signs_then_raises signs T ex j Hsigns (i + List.length e + 1) tail).
    + replace (i + List.length e + 1) with (S (i + List.length e)) by lia.
      apply skipn_next with (t := op). apply skipn_past. exact Hs.
    + replace (i + List.length e + 1 + List.length signs)
        with (i + List.length (e ++ op :: signs))
        by (rewrite length_app; simpl; lia).
      exact Hr.
Qed.

(** An exception of the first argument of a call. *)
Lemma first_argument_raises f lp t0 tail T i ex j :
  is_function_name (type f) = true -> type lp = LPAREN -> type t0 <> RPAREN ->
  skipn i T = f :: lp :: t0 :: tail ->
  raises_at parse_expression T (S (S i)) ex j ->
  raises_at parse_primary T i ex j.
Proof.
  intros Hf Hlp Ht0 Hs (f0 & Hrun).
  pose proof (skipn_current _ _ _ _ Hs) as Hcur.
  pose proof (skipn_next _ _ _ _ Hs) as Hs1.
  pose proof (skipn_current _ _ _ _ Hs1) as Hcur1.
  pose proof (skipn_current _ _ _ _ (skipn_next _ _ _ _ Hs1)) as Hcur2.
  enough_fuel_for (S (S f0)).
  rewrite (parse_primary_function fuel _ Hcur Hf).
  destruct fuel as [|fuel]; [lia|].
  rewrite (@_parse_function_call_arguments fuel (at_index T i) f lp t0 Hcur1 Hlp Hcur2).
  change (advanced (advanced (at_index T i))) with (at_index T (S (S i))).
  apply bind_Raise. unfold call_arguments.
  apply TokenType_eqb_neq in Ht0. rewrite Ht0. cbn [negb].
  apply bind_Raise. apply Hrun. lia.
Qed.

Lemma argument_prefix_follows more tail :
  argument_prefix more -> follows (more ++ tail).
Proof.
  intros [c Hc|c e more' Hc _ _]; simpl; eexists c, _; now rewrite Hc.
Qed.

(** An exception of an argument after commas. *)
Lemma argument_prefix_raises more T ex j :
  argument_prefix more ->
  forall i tail acc, skipn i T = more ++ tail ->
    raises_at parse_expression T (i + List.length more) ex j ->
    raises_at (fun fuel => arguments_while fuel acc) T i ex j.
Proof.
  induction 1 as [c Hc|c e more Hc He Hmore IH]; intros i tail acc Hs Hr.
  - simpl in Hs. destruct Hr as (f & Hrun). enough_fuel_for (S f).
    rewrite arguments_while_eq, (bind_attr _ _ (skipn_current _ _ _ _ Hs)), Hc.
    cbn [TokenType_eqb]. rewrite bind_advance.
    change (advanced (at_index T i)) with (at_index T (S i)).
    apply bind_Raise. replace (S i) with (i + List.length [c]) by (simpl; lia).
    apply Hrun. lia.
  - simpl in Hs. pose proof (skipn_next _ _ _ _ Hs) as Hs1.
    rewrite <- app_assoc in Hs1.
    destruct (is_expression_node e He) as (n & Hn).
    destruct (Hn T (S i) _ Hs1 (argument_prefix_follows more tail Hmore))
      as (f1 & H1).
    pose proof (skipn_past _ _ _ _ Hs1) as Hs2.
    assert (Hr' : raises_at parse_expression T
                    (S i + List.length e + List.length more) ex j).
    { replace (S i + List.length e + List.length more)
        with (i + List.length (c :: e ++ more))
        by (simpl; rewrite length_app; lia).
      exact Hr. }
    destruct (IH (S i + List.length e) tail (acc ++ [n]) Hs2 Hr') as (f2 & H2).
    enough_fuel_for (S (f1 + f2)).
    rewrite arguments_while_eq, (bind_attr _ _ (skipn_current _ _ _ _ Hs)), Hc.
    cbn [TokenType_eqb]. rewrite bind_advance.
    change (advanced (at_index T i)) with (at_index T (S i)).
    rewrite (bind_Ok _ _ _ (H1 fuel ltac:(lia))). apply H2. lia.
Qed.

(** An exception of a later argument of a call. *)
Lemma later_argument_raises f lp e more tail T i ex j :
  is_function_name (type f) = true -> type lp = LPAREN ->
  is_expression e -> argument_prefix more ->
  skipn i T = f :: lp :: e ++ more ++ tail ->
  raises_at parse_expression T (S (S i) + List.length e + List.length more) ex j ->
  raises_at parse_primary T i ex j.
Proof.
  intros Hf Hlp He Hmore Hs Hr.
  pose proof (skipn_current _ _ _ _ Hs) as Hcur.
  pose proof (skipn_next _ _ _ _ Hs) as Hs1.
  pose proof (skipn_current _ _ _ _ Hs1) as Hcur1.
  pose proof (skipn_next _ _ _ _ Hs1) as Hs2.
  destruct (is_expression_head _ He) as (t0 & x0 & Ee & Ht0).
  assert (Hcur2 : current_token (at_index T (S (S i))) = Some t0).
  { rewrite Ee in Hs2. apply (skipn_current _ _ _ _ Hs2). }
  destruct (is_expression_node e He) as (n & Hn).
  destruct (Hn T (S (S i)) _ Hs2 (argument_prefix_follows more tail Hmore))
    as (f1 & H1).
  destruct (argument_prefix_raises more T ex j Hmore (S (S i) + List.length e) tail [n]
              (skipn_past _ _ _ _ Hs2) Hr) as (f2 & H2).
  enough_fuel_for (S (S (f1 + f2))).
  rewrite (parse_primary_function fuel _ Hcur Hf).
  destruct fuel as [|fuel]; [lia|].
  rewrite (@_parse_function_call_arguments fuel (at_index T i) f lp t0 Hcur1 Hlp Hcur2).
  change (advanced (advanced (at_index T i))) with (at_index T (S (S i))).
  apply bind_Raise. unfold call_arguments. rewrite Ht0. cbn [negb].
  rewrite (bind_Ok _ _ _ (H1 fuel ltac:(lia))). apply H2. lia.
Qed.

Lemma operand_prefix_not_closing x t tail :
  operand_prefix x -> (x = [] -> type t <> RPAREN) -> not_closing (x ++ t :: tail).
Proof.
  intros [signs Hsigns|e op prec signs He _ _] Ht.
  - destruct Hsigns as [|s signs Hs _].
    + exists t, tail. split; [reflexivity | apply Ht; reflexivity].
    + exists s, (signs ++ t :: tail). split; [reflexivity|].
      destruct Hs as [E|E]; rewrite E; discriminate.
  - destruct (is_expression_head _ He) as (h & r & -> & Hh).
    exists h, (r ++ op :: signs ++ t :: tail).
    split; [simpl; now rewrite <- app_assoc|].
    apply TokenType_eqb_neq. exact Hh.
Qed.

(** An exception of an expression, wherever it starts, is the exception of
    the whole input. *)
Lemma raise_reaches_the_top b pre :
  expression_start b pre ->
  forall tail ex j,
    (b = true -> not_closing tail) ->
    raises_at parse_expression (pre ++ tail) (List.length pre) ex j ->
    raises_at parse_expression (pre ++ tail) 0 ex j.
Proof.
  induction 1 as [|b pre x lp Hpre IH Hx Hlp|b pre x f lp Hpre IH Hx Hf Hlp
                 |b pre x f lp e more Hpre IH Hx Hf Hlp He Hmore];
    intros tail ex j Hb Hr.
  - exact Hr.
  - assert (ET : (pre ++ x ++ [lp]) ++ tail = pre ++ x ++ lp :: tail)
      by (rewrite <- !app_assoc; reflexivity).
    rewrite ET in *. rewrite !length_app in Hr. simpl in Hr.
    apply IH.
    + intros _. apply operand_prefix_not_closing; [assumption|].
      intros _. rewrite Hlp. discriminate.
    + apply (operand_prefix_raises x _ (List.length pre) (lp :: tail));
        [assumption | apply skipn_length_app |].
      apply (group_then_raises lp tail); [assumption | |].
      * apply skipn_past. apply skipn_length_app.
      * replace (S (List.length pre + List.length x))
          with (List.length pre + (List.length x + 1)) by lia.
        exact Hr.
  - assert (ET : (pre ++ x ++ [f; lp]) ++ tail = pre ++ x ++ f :: lp :: tail)
      by (rewrite <- !app_assoc; reflexivity).
    rewrite ET in *. rewrite !length_app in Hr. simpl in Hr.
    destruct (Hb eq_refl) as (t0 & r0 & -> & Ht0).
    apply IH.
    + intros _. apply operand_prefix_not_closing; [assumption|].
      intros _. destruct (type f); try discriminate Hf; discriminate.
    + apply (operand_prefix_raises x _ (List.length pre) (f :: lp :: t0 :: r0));
        [assumption | apply skipn_length_app |].
      apply (first_argument_raises f lp t0 r0); [assumption | assumption | assumption | |].
      * apply skipn_past. apply skipn_length_app.
      * replace (S (S (List.length pre + List.length x)))
          with (List.length pre + (List.length x + 2)) by lia.
        exact Hr.
  - assert (ET : (pre ++ x ++ f :: lp :: e ++ more) ++ tail =
                 pre ++ x ++ f :: lp :: e ++ more ++ tail)
      by (rewrite <- !app_assoc; simpl; rewrite <- !app_assoc; reflexivity).
    rewrite ET in *. rewrite !length_app in Hr. simpl in Hr.
    rewrite length_app in Hr.
    apply IH.
    + intros _. apply operand_prefix_not_closing; [assumption|].
      intros _. destruct (type f); try discriminate Hf; discriminate.
    + apply (operand_prefix_raises x _ (List.length pre)
               (f :: lp :: e ++ more ++ tail));
        [assumption | apply skipn_length_app |].
      apply (later_argument_raises f lp e more tail); auto.
      * apply skipn_past. apply skipn_length_app.
      * replace (S (S (List.length pre + List.length x)) + List.length e
                 + List.length more)
          with (List.length pre
                + (List.length x + S (S (List.length e + List.length more))))
          by lia.
        exact Hr.
Qed.

(** X6: where an operand is expected, a token that starts no primary (an
    operator other than a sign, [)], [,] or [EOF]) raises the [SyntaxError]
    of [parse_primary] naming that token and its position.  An operand is
    expected at the start of an expression, that is, at the start of the
    input, after the [(] of a group, after the [(] of a call and after a
    comma between its arguments, at any depth, and there after any number
    of signs, or after an expression of the grammar, a binary operator and
    any number of signs; the one exception is a [)] right after the [(] of
    a call, which closes the empty argument list.  So the empty text,
    [2 +], [a + b * )], [()] and [sin(x, (2 + ))] are rejected at that
    token.  (The recursion limit of the interpreter, which bounds the
    number of signs and the depth, is not modelled.) *)
Theorem missing_operand_is_a_syntax_error :
  forall b pre x t rest,
    expression_start b pre -> operand_prefix x ->
    starts_primary (type t) = false ->
    (b = true -> x = [] -> type t <> RPAREN) ->
    parse_tokens (pre ++ x ++ t :: rest) =
    Raises (SyntaxError (UnexpectedToken t) (position t)).
Proof.
  intros b pre x t rest Hpre Hx Ht Hclose.
  apply expression_raises_parse with (j := List.length pre + List.length x).
  { intros E. apply app_eq_nil in E as (_ & E). apply app_eq_nil in E as (_ & E).
    discriminate. }
  apply raise_reaches_the_top with (b := b); [assumption | |].
  { intros Eb. apply operand_prefix_not_closing; auto. }
  apply (operand_prefix_raises x _ (List.length pre) (t :: rest));
    [assumption | apply skipn_length_app |].
  enough_fuel_for 1. apply parse_primary_unexpected; [|assumption].
  apply skipn_current with (x := rest). apply skipn_past. apply skipn_length_app.
Qed.

Lemma missing_operand_is_a_syntax_error_witness :
  let a := mkToken IDENTIFIER "a" 0 in
  let two := mkToken INTEGER "2" 0 in
  let plus := mkToken PLUS "+" 1 in
  let minus := mkToken MINUS "-" 2 in
  let times := mkToken MULTIPLY "*" 3 in
  let sin := mkToken SIN "sin" 0 in
  let lp := mkToken LPAREN "(" 4 in
  let comma := mkToken COMMA "," 5 in
  let rp := mkToken RPAREN ")" 6 in
  let eof := mkToken EOF "" 7 in
  parse_tokens [eof] = Raises (SyntaxError (UnexpectedToken eof) 7) /\
  parse_tokens [two; plus; minus; eof] =
    Raises (SyntaxError (UnexpectedToken eof) 7) /\
  parse_tokens [a; plus; two; times; rp; eof] =
    Raises (SyntaxError (UnexpectedToken rp) 6) /\
  parse_tokens [lp; rp; eof] = Raises (SyntaxError (UnexpectedToken rp) 6) /\
  parse_tokens [sin; lp; a; comma; lp; two; plus; rp; rp; eof] =
    Raises (SyntaxError (UnexpectedToken rp) 6) /\
  parse_tokens [sin; lp; comma; a; rp; eof] =
    Raises (SyntaxError (UnexpectedToken comma) 5).
Proof.
  intros a two plus minus times sin lp comma rp eof.
  assert (Ha : is_primary [a])
    by (apply (@primary_leaf a (IdentifierNode "a")); reflexivity).
  assert (Htwo : is_primary [two])
    by (apply (@primary_leaf two (NumberNode (PyInt 2))); reflexivity).
  assert (Hnone : operand_prefix []) by (apply prefix_signs, Forall_nil).
  split; [|split; [|split; [|split; [|split]]]].
  - apply (missing_operand_is_a_syntax_error false [] [] eof []);
      [ apply start_input | exact Hnone | reflexivity | discriminate ].
  - apply (missing_operand_is_a_syntax_error false [] ([two] ++ plus :: [minus]) eof []);
      [ apply start_input | | reflexivity | discriminate ].
    apply (@prefix_operator [two] plus 1%Z [minus]);
      [ apply expression_primary, Htwo | reflexivity
      | apply Forall_cons; [left; reflexivity | apply Forall_nil] ].
  - apply (missing_operand_is_a_syntax_error false []
             (([a] ++ plus :: [two]) ++ times :: []) rp [eof]);
      [ apply start_input | | reflexivity | discriminate ].
    apply (@prefix_operator ([a] ++ plus :: [two]) times 2%Z []);
      [ | reflexivity | apply Forall_nil ].
    apply (@expression_binary [a] plus 1%Z [two]);
      [ exact Ha | reflexivity | apply expression_primary, Htwo ].
  - apply (missing_operand_is_a_syntax_error false ([] ++ [] ++ [lp]) [] rp [eof]);
      [ | exact Hnone | reflexivity | discriminate ].
    apply (@start_group false [] [] lp);
      [ apply start_input | exact Hnone | reflexivity ].
  - apply (missing_operand_is_a_syntax_error false
             (([] ++ [] ++ sin :: lp :: [a] ++ [comma]) ++ [] ++ [lp])
             ([two] ++ plus :: []) rp [rp; eof]);
      [ | | reflexivity | discriminate ].
    + apply (@start_group false ([] ++ [] ++ sin :: lp :: [a] ++ [comma]) [] lp);
        [ | exact Hnone | reflexivity ].
      apply (@start_argument false [] [] sin lp [a] [comma]);
        [ apply start_input | exact Hnone | reflexivity | reflexivity
        | apply expression_primary, Ha | apply prefix_comma; reflexivity ].
    + apply (@prefix_operator [two] plus 1%Z []);
        [ apply expression_primary, Htwo | reflexivity | apply Forall_nil ].
  - apply (missing_operand_is_a_syntax_error true ([] ++ [] ++ [sin; lp]) []
             comma [a; rp; eof]);
      [ | exact Hnone | reflexivity | discriminate ].
    apply (@start_first_argument false [] [] sin lp);
      [ apply start_input | exact Hnone | reflexivity | reflexivity ].
Defined.

(** An exception for a group that is not closed. *)
Lemma unclosed_group_raises lp e t rest T i :
  type lp = LPAREN -> is_expression e ->
  precedence (type t) = None -> type t <> RPAREN ->
  skipn i T = lp :: e ++ t :: rest ->
  raises_at parse_primary T i (SyntaxError ExpectedRParen (position t))
    (S i + List.length e).
Proof.
  intros Hlp He Hprec Ht Hs.
  destruct (is_expression_node e He) as (n & Hn).
  pose proof (skipn_current _ _ _ _ Hs) as Hcur.
  pose proof (skipn_next _ _ _ _ Hs) as Hs1.
  assert (Hfollow : follows (t :: rest)) by (exists t, rest; auto).
  destruct (Hn T (S i) _ Hs1 Hfollow) as (f & Hrun).
  pose proof (skipn_current _ _ _ _ (skipn_past _ _ _ _ Hs1)) as Hcur1.
  enough_fuel_for (S (S f)).
  rewrite parse_primary_eq, (bind_attr _ _ Hcur), Hlp.
  destruct fuel as [|fuel]; [lia|].
  rewrite _parse_parenthesized_expression_eq, bind_advance.
  change (advanced (at_index T i)) with (at_index T (S i)).
  rewrite (bind_Ok _ _ _ (Hrun fuel ltac:(lia))).
  rewrite (bind_attr _ _ Hcur1).
  apply TokenType_eqb_neq in Ht. rewrite Ht. reflexivity.
Qed.

(** X7: a group that is not closed: where an operand is expected (see X6),
    [(] and an expression of the grammar followed by a token that is
    neither [)] nor a binary operator ([EOF], [,], a number, a name, [(])
    raise the [SyntaxError] of [_parse_parenthesized_expression],
    [Expected ')'], with the position of that token.  So [(2], [a * (b]
    and [sin((x, 1)] are rejected.  (The recursion limit of the
    interpreter is not modelled.) *)
Theorem unclosed_parenthesis_is_a_syntax_error :
  forall b pre x lp e t rest,
    expression_start b pre -> operand_prefix x ->
    type lp = LPAREN -> is_expression e ->
    precedence (type t) = None -> type t <> RPAREN ->
    parse_tokens (pre ++ x ++ lp :: e ++ t :: rest) =
    Raises (SyntaxError ExpectedRParen (position t)).
Proof.
  intros b pre x lp e t rest Hpre Hx Hlp He Hprec Ht.
  apply expression_raises_parse
    with (j := S (List.length pre + List.length x) + List.length e).
  { intros E. apply app_eq_nil in E as (_ & E). apply app_eq_nil in E as (_ & E).
    discriminate. }
  apply raise_reaches_the_top with (b := b); [assumption | |].
  { intros _. apply operand_prefix_not_closing; [assumption|].
    intros _. rewrite Hlp. discriminate. }
  apply (operand_prefix_raises x _ (List.length pre) (lp :: e ++ t :: rest));
    [assumption | apply skipn_length_app |].
  apply (unclosed_group_raises lp e t rest); auto.
  apply skipn_past. apply skipn_length_app.
Qed.

Lemma unclosed_parenthesis_is_a_syntax_error_witness :
  let a := mkToken IDENTIFIER "a" 0 in
  let b := mkToken IDENTIFIER "b" 3 in
  let two := mkToken INTEGER "2" 1 in
  let times := mkToken MULTIPLY "*" 1 in
  let sin := mkToken SIN "sin" 0 in
  let lp := mkToken LPAREN "(" 2 in
  let comma := mkToken COMMA "," 5 in
  let eof := mkToken EOF "" 9 in
  parse_tokens [lp; two; eof] = Raises (SyntaxError ExpectedRParen 9) /\
  parse_tokens [a; times; lp; b; eof] = Raises (SyntaxError ExpectedRParen 9) /\
  parse_tokens [sin; lp; lp; a; comma; two; eof] =
    Raises (SyntaxError ExpectedRParen 5).
Proof.
  intros a b two times sin lp comma eof.
  assert (Ha : is_expression [a])
    by (apply expression_primary, (@primary_leaf a (IdentifierNode "a")); reflexivity).
  assert (Hb : is_expression [b])
    by (apply expression_primary, (@primary_leaf b (IdentifierNode "b")); reflexivity).
  assert (Htwo : is_expression [two])
    by (apply expression_primary, (@primary_leaf two (NumberNode (PyInt 2)));
        reflexivity).
  assert (Hnone : operand_prefix []) by (apply prefix_signs, Forall_nil).
  split; [|split].
  - apply (unclosed_parenthesis_is_a_syntax_error false [] [] lp [two] eof []);
      [ apply start_input | exact Hnone | reflexivity | exact Htwo | reflexivity
      | discriminate ].
  - apply (unclosed_parenthesis_is_a_syntax_error false [] ([a] ++ times :: [])
             lp [b] eof []);
      [ apply start_input | | reflexivity | exact Hb | reflexivity | discriminate ].
    apply (@prefix_operator [a] times 2%Z []);
      [ exact Ha | reflexivity | apply Forall_nil ].
  - apply (unclosed_parenthesis_is_a_syntax_error true ([] ++ [] ++ [sin; lp]) []
             lp [a] comma [two; eof]);
      [ | exact Hnone | reflexivity | exact Ha | reflexivity | discriminate ].
    apply (@start_first_argument false [] [] sin lp);
      [ apply start_input | exact Hnone | reflexivity | reflexivity ].
Defined.

(** ** One pass over the tokens *)

Ltac pass :=
  unfold passed, moved, within in *;
  repeat match goal with
         | H : _ /\ _ |- _ => destruct H
         end;
  repeat match goal with
         | H : current_token (advanced ?s) = Some _ |- _ =>
             pose proof (current_in_bounds (consistent_advanced s) H); clear H
         | H : current_token ?s = Some _, C : consistent ?s |- _ =>
             pose proof (current_in_bounds C H); clear H
         | H : current_token _ = None |- _ => clear H
         end;
  simpl in *;
  repeat match goal with
         | H : tokens _ = _ |- _ => rewrite H in *
         end;
  repeat split;
  first [ assumption | apply consistent_advanced | reflexivity | lia ].

Ltac invoke H :=
  eapply post_conseq;
  [ eapply H | cbv beta; intros ? ? ? | cbv beta; intros ? ? ? ].

Lemma methods_pass fuel :
  (forall self, within self -> one_pass true (parse_expression fuel) self) /\
  (forall self p, within self ->
     one_pass true (parse_binary_expression fuel p) self) /\
  (forall self p l, within self ->
     one_pass false (binary_expression_while fuel p l) self) /\
  (forall self, within self -> one_pass true (parse_primary fuel) self) /\
  (forall self f t, within self -> current_token self = Some t ->
     one_pass true (_parse_function_call fuel f) self) /\
  (forall self args, within self ->
     one_pass false (arguments_while fuel args) self) /\
  (forall self t, within self -> current_token self = Some t ->
     one_pass true (_parse_parenthesized_expression fuel) self).
Proof.
  unfold one_pass.
  induction fuel as [|fuel (IHe & IHb & IHw & IHp & IHf & IHa & IHg)].
  { repeat split; intros; exact I. }
  repeat split.
  - intros self Hw. rewrite parse_expression_eq.
    invoke IHb; [ assumption | | ]; auto.
  - intros self p Hw. rewrite parse_binary_expression_eq.
    step. invoke IHp; [ assumption | | assumption ].
    invoke IHw; [ pass | pass | pass ].
  - intros self p l Hw. rewrite binary_expression_while_eq.
    step; [|pass].
    step; [|step; pass].
    step; [|step; pass].
    step. step.
    invoke IHb; [ pass | | pass ].
    invoke IHw; [ pass | pass | pass ].
  - intros self Hw. rewrite parse_primary_eq.
    step; [|pass].
    step; repeat step; try solve [pass].
    + invoke IHp; [ pass | pass | pass ].
    + invoke IHp; [ pass | | pass ]. step. pass.
    + invoke (IHg self t); [ assumption | assumption | | ]; auto.
    + invoke (IHf self t t); [ assumption | assumption | | ]; auto.
    + invoke (IHf self t t); [ assumption | assumption | | ]; auto.
    + invoke (IHf self t t); [ assumption | assumption | | ]; auto.
    + invoke (IHf self t t); [ assumption | assumption | | ]; auto.
  - intros self f t Hw Ht. rewrite _parse_function_call_eq.
    step. step; [|pass]. step; [step; pass|].
    step. step; [|pass].
    step.
    assert (Hargs : forall (Q : list Node -> Parser -> Prop),
      (forall args s, passed false (advanced (advanced self)) s -> Q args s) ->
      post True
        (if negb (TokenType_eqb (type t1) RPAREN)
         then argument <- parse_expression fuel;; arguments_while fuel [argument]
         else ret []) (advanced (advanced self)) Q
        (fun _ s => passed false (advanced (advanced self)) s)).
    { intros Q HQ. step.
      - step. invoke IHe; [ pass | | pass ].
        invoke IHa; [ pass | apply HQ; pass | pass ].
      - step. apply HQ. pass. }
    eapply post_conseq; [ apply Hargs; intros args s Hm; exact Hm | | ];
      cbv beta; [ intros args s Hm | intros e s Hm; pass ].
    step; [|pass]. step; [step; pass|].
    step. step. pass.
  - intros self args Hw. rewrite arguments_while_eq.
    step; [|pass].
    step; [|step; pass].
    step. step.
    invoke IHe; [ pass | | pass ].
    invoke IHa; [ pass | pass | pass ].
  - intros self t Hw Ht. rewrite _parse_parenthesized_expression_eq.
    step. step.
    invoke IHe; [ pass | | pass ].
    step; [|pass]. step; [step; pass|].
    step. step. pass.
Qed.

Lemma parse_program_passes self :
  within self -> one_pass true (parse_program (enough_fuel self)) self.
Proof.
  intros Hw. unfold one_pass, parse_program. step.
  destruct (methods_pass (enough_fuel self)) as (He & _).
  invoke He; [ assumption | | assumption ].
  step. assumption.
Qed.

(** X8: the parser goes over its tokens once, from left to right: from any
    parser whose [current_token] is the token at [current_token_index] (or
    [None] at the end), [parse] and [parse_expression] stop, returning or
    raising, with the token list unchanged, [current_token] again the token
    at the index, and the index not moved back and at most the length of the
    list; a [parse_expression] that returns has passed at least one
    token. *)
Theorem the_cursor_only_moves_forward :
  (forall self,
     consistent self ->
     current_token_index self <= List.length (tokens self) ->
     match parse self with
     | Ok _ s | Raise _ s =>
         tokens s = tokens self /\
         current_token s = nth_error (tokens self) (current_token_index s) /\
         current_token_index self <= current_token_index s /\
         current_token_index s <= List.length (tokens self)
     | OutOfFuel => False
     end) /\
  (forall fuel self,
     consistent self ->
     current_token_index self <= List.length (tokens self) ->
     match parse_expression fuel self with
     | Ok _ s =>
         tokens s = tokens self /\
         current_token s = nth_error (tokens self) (current_token_index s) /\
         current_token_index self < current_token_index s /\
         current_token_index s <= List.length (tokens self)
     | Raise _ s =>
         tokens s = tokens self /\
         current_token s = nth_error (tokens self) (current_token_index s) /\
         current_token_index self <= current_token_index s /\
         current_token_index s <= List.length (tokens self)
     | OutOfFuel => True
     end).
Proof.
  assert (Hpassed : forall b self s,
            passed b self s ->
            tokens s = tokens self /\
            current_token s = nth_error (tokens self) (current_token_index s) /\
            current_token_index self <= current_token_index s /\
            current_token_index s <= List.length (tokens self)).
  { intros b self s ((Hc & Htok & Hi) & Hlen). unfold consistent in Hc.
    rewrite Htok in Hc. repeat split; auto. destruct b; lia. }
  split.
  - intros self Hc Hi.
    assert (Hw : within self) by (split; assumption).
    pose proof (parse_terminates Hc) as Hterm.
    pose proof (parse_program_passes self Hw) as Hprog.
    unfold one_pass, post in Hprog.
    unfold parse in *. destruct (tokens self) as [|t0 ts0] eqn:Et.
    { unfold consistent in Hc. rewrite Et in Hc. repeat split; auto. }
    rewrite <- Et in *.
    unfold bind, attr_current_token, ret, raise in *.
    destruct (parse_program (enough_fuel self) self) as [ast s|e s|];
      [ | eapply Hpassed; eassumption | congruence ].
    destruct (current_token s) as [t|]; [destruct (negb _)|];
      eapply Hpassed; eassumption.
  - intros fuel self Hc Hi.
    assert (Hw : within self) by (split; assumption).
    destruct (methods_pass fuel) as (He & _).
    specialize (He self Hw). unfold one_pass, post in He.
    destruct (parse_expression fuel self) as [ast s|e s|]; [| |exact I].
    + destruct He as ((Hc' & Htok & Hlt) & Hlen). unfold consistent in Hc'.
      rewrite Htok in Hc'. repeat split; auto.
    + eapply Hpassed; eassumption.
Qed.

Lemma the_cursor_only_moves_forward_witness :
  let two := mkToken INTEGER "2" 0 in
  let plus := mkToken PLUS "+" 1 in
  let rp := mkToken RPAREN ")" 1 in
  let self := mkParser [two; plus] 1 (Some plus) in
  (parse self = Raise AttributeError (mkParser [two; plus] 2 None) /\
   1 <= 2 <= List.length [two; plus]) /\
  (parse_expression 3 (initial [two; rp]) =
     Ok (NumberNode (PyInt 2)) (mkParser [two; rp] 1 (Some rp)) /\
   0 < 1 /\ 1 <= List.length [two; rp]).
Proof.
  intros two plus rp self.
  destruct the_cursor_only_moves_forward as (Hparse & Hexpression).
  split.
  - assert (Hc : consistent self) by reflexivity.
    assert (Hi : current_token_index self <= List.length (tokens self))
      by (simpl; lia).
    pose proof (Hparse self Hc Hi) as H.
    change (parse self)
      with (@Raise (option Node) AttributeError (mkParser [two; plus] 2 None)) in H.
    split; [reflexivity|]. split; apply H.
  - assert (Hc : consistent (initial [two; rp])) by reflexivity.
    assert (Hi : current_token_index (initial [two; rp]) <=
                 List.length (tokens (initial [two; rp]))) by (simpl; lia).
    pose proof (Hexpression 3 (initial [two; rp]) Hc Hi) as H.
    change (parse_expression 3 (initial [two; rp]))
      with (Ok (NumberNode (PyInt 2)) (mkParser [two; rp] 1 (Some rp))) in H.
    split; [reflexivity|]. split; apply H.
Defined.

(** ** A second [parse] *)

(** X9: [parse] does not move the cursor back to the start: once it has
    returned a tree, the cursor is left on [EOF], and calling [parse] again
    on the same parser object raises the [SyntaxError] of [parse_primary]
    for that [EOF] token instead of returning the tree again. *)
Theorem a_second_parse_raises_at_EOF :
  forall toks ast s,
    parse (initial toks) = Ok (Some ast) s ->
    exists eof,
      current_token s = Some eof /\ type eof = EOF /\
      parse s = Raise (SyntaxError (UnexpectedToken eof) (position eof)) s.
Proof.
  intros toks ast s Hp.
  assert (Hn : tokens (initial toks) <> []).
  { intros E. unfold parse in Hp. rewrite E in Hp. discriminate. }
  destruct (@parse_returns _ _ _ Hn Hp) as (x & eof & _ & Hrun & Hcur & Heof).
  exists eof. split; [assumption|]. split; [assumption|].
  destruct (methods_pass (enough_fuel (initial toks))) as (He & _).
  assert (Hw : within (initial toks)).
  { split; [apply initial_consistent | simpl; lia]. }
  specialize (He _ Hw). unfold one_pass, post in He. rewrite Hrun in He.
  destruct He as ((_ & Htok & _) & _).
  apply parse_propagates; [congruence|].
  unfold parse_program, enough_fuel.
  change (8 + 4 * List.length (tokens s))
    with (S (S (S (S (4 + 4 * List.length (tokens s)))))).
  rewrite parse_expression_eq, parse_binary_expression_eq.
  apply bind_Raise, bind_Raise.
  apply parse_primary_unexpected; [assumption|]. now rewrite Heof.
Qed.

Lemma a_second_parse_raises_at_EOF_witness :
  let two := mkToken INTEGER "2" 0 in
  let eof := mkToken EOF "" 1 in
  let s := mkParser [two; eof] 1 (Some eof) in
  parse (initial [two; eof]) = Ok (Some (ProgramNode (NumberNode (PyInt 2)))) s /\
  exists t,
    current_token s = Some t /\ type t = EOF /\
    parse s = Raise (SyntaxError (UnexpectedToken t) (position t)) s.
Proof.
  intros two eof s.
  assert (H : parse (initial [two; eof]) =
              Ok (Some (ProgramNode (NumberNode (PyInt 2)))) s) by reflexivity.
  split; [exact H|].
  exact (a_second_parse_raises_at_EOF [two; eof] _ s H).
Defined.

(** ** The same run over more tokens *)

Section MoreTokens.
Variable more : list Token.

Lemma extends_ret {A} (a : A) : extends more (ret a).
Proof. intros s s' H. simpl. eauto. Qed.

Lemma extends_raise {A} e : extends more (@raise A e).
Proof. intros s s' H. unfold raise. destruct e; simpl; eauto. Qed.

Lemma extends_advance : extends more advance.
Proof.
  intros s s' (Hc & Hc' & Htok & Hi). simpl. exists (advanced s').
  split; [reflexivity|].
  repeat split; simpl; auto.
Qed.

Lemma extends_attr : extends more attr_current_token.
Proof.
  intros s s' H. unfold attr_current_token.
  destruct (current_token s) as [t|] eqn:Ht; simpl; [|exact I].
  exists s'. split; [|assumption].
  destruct H as (Hc & Hc' & Htok & Hi).
  assert (Ht' : current_token s' = Some t).
  { unfold consistent in *. rewrite Hc', Htok, Hi, nth_error_app1.
    - now rewrite <- Hc.
    - apply nth_error_Some. rewrite <- Hc, Ht. discriminate. }
  now rewrite Ht'.
Qed.

Lemma extends_bind {A B} (m : M A) (k : A -> M B) :
  extends more m -> (forall a, extends more (k a)) -> extends more (bind m k).
Proof.
  intros Hm Hk s s' H. specialize (Hm s s' H). unfold bind.
  destruct (m s) as [a s1|e s1|]; simpl in *.
  - destruct Hm as (s1' & -> & H1). apply Hk, H1.
  - destruct e; auto; destruct Hm as (s1' & -> & H1); simpl; eauto.
  - exact I.
Qed.

Lemma extends_OutOfFuel {A} : extends more (fun _ => @OutOfFuel A).
Proof. intros s s' _. exact I. Qed.

Ltac extend :=
  repeat first
    [ apply extends_ret
    | apply extends_raise
    | apply extends_advance
    | apply extends_attr
    | assumption
    | match goal with
      | H : forall p, extends _ (?f ?fuel p) |- extends _ (?f ?fuel _) => apply H
      | H : forall p l, extends _ (?f ?fuel p l) |- extends _ (?f ?fuel _ _) =>
          apply H
      end
    | apply extends_bind; [ | intros ? ]
    | match goal with
      | |- extends _ (if ?b then _ else _) => destruct b
      | |- extends _ (match ?x with _ => _ end) => destruct x
      end ].

Lemma methods_extend fuel :
  extends more (parse_expression fuel) /\
  (forall p, extends more (parse_binary_expression fuel p)) /\
  (forall p l, extends more (binary_expression_while fuel p l)) /\
  extends more (parse_primary fuel) /\
  (forall f, extends more (_parse_function_call fuel f)) /\
  (forall args, extends more (arguments_while fuel args)) /\
  extends more (_parse_parenthesized_expression fuel).
Proof.
  induction fuel as [|fuel (IHe & IHb & IHw & IHp & IHf & IHa & IHg)].
  { repeat split; intros; apply extends_OutOfFuel. }
  repeat split; intros.
  - rewrite parse_expression_eq. extend.
  - rewrite parse_binary_expression_eq. extend.
  - rewrite binary_expression_while_eq. extend.
  - rewrite parse_primary_eq. extend.
  - rewrite _parse_function_call_eq. extend.
  - rewrite arguments_while_eq. extend.
  - rewrite _parse_parenthesized_expression_eq. extend.
Qed.

Lemma initial_extended toks : extended more (initial toks) (initial (toks ++ more)).
Proof. repeat split. Qed.

(** [parse] over [toks] and over [toks ++ more]. *)
Lemma parse_extends toks :
  toks <> [] ->
  same_unless_past_end more (parse (initial toks)) (parse (initial (toks ++ more))).
Proof.
  intros Hn.
  pose (fuel := enough_fuel (initial (toks ++ more))).
  assert (Hle : enough_fuel (initial toks) <= fuel).
  { unfold fuel, enough_fuel. simpl. rewrite length_app. lia. }
  assert (Hshort : parse_program fuel (initial toks) =
                   parse_program (enough_fuel (initial toks)) (initial toks)).
  { apply parse_program_fuel_independent; [assumption|].
    pose proof (parse_program_terminates (initial_consistent toks)) as H.
    unfold post in H. intros E. rewrite E in H. exact H. }
  assert (Hsim : extends more
            (ast <- parse_program fuel ;;
             t <- attr_current_token ;;
             if negb (TokenType_eqb (type t) EOF) then
               raise (SyntaxError (UnexpectedToken t) (position t))
             else ret (Some ast))).
  { unfold parse_program. destruct (methods_extend fuel) as (He & _). extend. }
  specialize (Hsim _ _ (initial_extended toks)).
  unfold parse. simpl tokens.
  destruct toks as [|t0 ts0]; [congruence|].
  change ((t0 :: ts0) ++ more) with (t0 :: (ts0 ++ more)) in *.
  cbv iota. fold fuel.
  unfold bind at 1. rewrite <- Hshort.
  exact Hsim.
Qed.

End MoreTokens.

Lemma parse_tokens_extended toks more :
  toks <> [] -> parse_tokens toks <> Raises AttributeError ->
  parse_tokens (toks ++ more) = parse_tokens toks.
Proof.
  intros Hn Ha. unfold parse_tokens in *. rewrite !Parser_init_tokens in *.
  pose proof (parse_extends more toks Hn) as H.
  pose proof (parse_terminates (initial_consistent toks)) as Hterm.
  destruct (parse (initial toks)) as [v s|e s|]; simpl in *.
  - destruct H as (s' & -> & _). reflexivity.
  - destruct e; try congruence; destruct H as (s' & -> & _); reflexivity.
  - congruence.
Qed.

(** X10: the parser reads no token beyond the one it stops on: when [parse]
    over a token list returns, or raises anything but the [AttributeError]
    of a missing token, it does the same with any tokens added at the end
    of the list; so whatever comes after the [EOF] that ends a token list
    changes neither the tree nor the error. *)
Theorem tokens_after_the_stop_are_not_read :
  (forall toks more,
     toks <> [] -> parse_tokens toks <> Raises AttributeError ->
     parse_tokens (toks ++ more) = parse_tokens toks) /\
  (forall toks more,
     ends_with_only_EOF toks = true ->
     parse_tokens (toks ++ more) = parse_tokens toks).
Proof.
  split; [exact parse_tokens_extended|].
  intros toks more Hw. apply parse_tokens_extended.
  - intros ->. discriminate.
  - pose proof (parse_stays_on_a_token toks Hw) as H.
    unfold parse_tokens. rewrite Parser_init_tokens.
    destruct (parse (initial toks)) as [v s|e s|]; simpl; try discriminate.
    destruct H as (_ & _ & He & _). congruence.
Qed.

Lemma tokens_after_the_stop_are_not_read_witness :
  let two := mkToken INTEGER "2" 0 in
  let rp := mkToken RPAREN ")" 1 in
  let eof := mkToken EOF "" 2 in
  parse_tokens ([two; rp] ++ [two; eof]) = parse_tokens [two; rp] /\
  parse_tokens ([two; eof] ++ [rp; eof]) = parse_tokens [two; eof].
Proof.
  intros two rp eof.
  destruct tokens_after_the_stop_are_not_read as (Hstop & Heof).
  split.
  - apply (Hstop [two; rp] [two; eof]); discriminate.
  - apply (Heof [two; eof] [rp; eof]). reflexivity.
Defined.

(** ** Token lists without [EOF] *)

Lemma parse_returns_on_EOF toks v s :
  toks <> [] -> parse (initial toks) = Ok v s ->
  exists t, In t toks /\ type t = EOF.
Proof.
  intros Hn Hp.
  destruct (@parse_returns (initial toks) v s Hn Hp)
    as (x & eof & _ & Hrun & Hcur & Heof).
  exists eof. split; [|assumption].
  destruct (methods_pass (enough_fuel (initial toks))) as (He & _).
  assert (Hw : within (initial toks)).
  { split; [apply initial_consistent | simpl; lia]. }
  specialize (He _ Hw). unfold one_pass, post in He. rewrite Hrun in He.
  destruct He as ((Hc & Htok & _) & _).
  unfold consistent in Hc. rewrite Hcur, Htok in Hc.
  eapply nth_error_In. symmetry. exact Hc.
Qed.

Lemma no_EOF_raises toks :
  toks <> [] -> Forall not_EOF_token toks -> exists e, parse_tokens toks = Raises e.
Proof.
  intros Hn Hall. unfold parse_tokens. rewrite Parser_init_tokens.
  pose proof (parse_terminates (initial_consistent toks)) as Hterm.
  destruct (parse (initial toks)) as [v s|e s|] eqn:Hp; simpl.
  - destruct (parse_returns_on_EOF toks v s Hn Hp) as (t & Hin & Ht).
    exfalso. exact (proj1 (Forall_forall _ _) Hall t Hin Ht).
  - eauto.
  - congruence.
Qed.

(** X11: a token list without an [EOF] token never gives a tree: [parse]
    raises.  When the list followed by an [EOF] token is accepted, and so
    for every expression of the grammar, what it raises without the [EOF]
    is the [AttributeError] of reading [self.current_token.type] when
    [advance] has set [current_token] to [None], not a [SyntaxError].  (The
    recursion limit of the interpreter, which a deeply nested expression
    exceeds, is not modelled.) *)
Theorem without_EOF_parse_raises :
  (forall toks,
     toks <> [] -> Forall not_EOF_token toks ->
     exists e, parse_tokens toks = Raises e) /\
  (forall toks eof v,
     toks <> [] -> Forall not_EOF_token toks ->
     parse_tokens (toks ++ [eof]) = Returns v ->
     parse_tokens toks = Raises AttributeError) /\
  (forall e, is_expression e -> parse_tokens e = Raises AttributeError).
Proof.
  assert (Hdrop : forall toks eof v,
     toks <> [] -> Forall not_EOF_token toks ->
     parse_tokens (toks ++ [eof]) = Returns v ->
     parse_tokens toks = Raises AttributeError).
  { intros toks eof v Hn Hall Hret.
    destruct (no_EOF_raises toks Hn Hall) as (e & He).
    destruct e; try assumption;
      rewrite (parse_tokens_extended toks [eof] Hn) in Hret;
      rewrite He in *; discriminate. }
  split; [exact no_EOF_raises|]. split; [exact Hdrop|].
  intros e He.
  destruct (is_expression_node e He) as (n & Hn).
  apply (Hdrop e (mkToken EOF "" 0) (Some (ProgramNode n))).
  - destruct (is_expression_head _ He) as (t & x & -> & _). discriminate.
  - apply (proj1 (proj2 grammar_has_no_EOF)), He.
  - apply expression_node_parse; [assumption | reflexivity].
Qed.

Lemma without_EOF_parse_raises_witness :
  let two := mkToken INTEGER "2" 0 in
  let plus := mkToken PLUS "+" 1 in
  let three := mkToken INTEGER "3" 2 in
  let rp := mkToken RPAREN ")" 1 in
  (exists e, parse_tokens [two; rp] = Raises e) /\
  parse_tokens [two] = Raises AttributeError /\
  parse_tokens [two; plus; three] = Raises AttributeError.
Proof.
  intros two plus three rp.
  destruct without_EOF_parse_raises as (Hraises & Hdrop & Hgrammar).
  split; [|split].
  - apply (Hraises [two; rp]); [discriminate|].
    apply Forall_cons; [discriminate|].
    apply Forall_cons; [discriminate | apply Forall_nil].
  - apply (Hdrop [two] (mkToken EOF "" 1)
             (Some (ProgramNode (NumberNode (PyInt 2)))));
      [ discriminate
      | apply Forall_cons; [discriminate | apply Forall_nil]
      | reflexivity ].
  - apply (Hgrammar [two; plus; three]).
    apply (@expression_binary [two] plus 1%Z [three]);
      [ apply (@primary_leaf two (NumberNode (PyInt 2))); reflexivity
      | reflexivity
      | apply expression_primary, (@primary_leaf three (NumberNode (PyInt 3)));
        reflexivity ].
Defined.

(** ** What the parser accepts is in the grammar *)

Lemma reads_nil self : consistent self -> reads [] self self.
Proof. intros H. repeat split; auto. Qed.

Lemma skipn_at_current self t :
  consistent self -> current_token self = Some t ->
  skipn (current_token_index self) (tokens self) =
  t :: skipn (S (current_token_index self)) (tokens self).
Proof.
  unfold consistent. intros Hc Ht. rewrite Ht in Hc. symmetry in Hc.
  revert Hc. generalize (current_token_index self), (tokens self).
  intros i T. revert T. induction i as [|i IH]; intros [|a T] H; simpl in *;
    try discriminate.
  - congruence.
  - destruct T as [|b T]; [destruct i; discriminate|]. apply IH, H.
Qed.

Lemma reads_advanced self t :
  consistent self -> current_token self = Some t -> reads [t] self (advanced self).
Proof.
  intros Hc Ht. split; [apply consistent_advanced|]. split; [reflexivity|].
  apply skipn_at_current; assumption.
Qed.

Lemma reads_app w1 w2 s1 s2 s3 :
  reads w1 s1 s2 -> reads w2 s2 s3 -> reads (w1 ++ w2) s1 s3.
Proof.
  intros (_ & E1 & H1) (Hc & E2 & H2). split; [assumption|].
  split; [congruence|]. rewrite E1 in H2. rewrite H1, H2, app_assoc. reflexivity.
Qed.

Lemma reads_consistent w s1 s2 : reads w s1 s2 -> consistent s2.
Proof. intros (H & _). exact H. Qed.

Lemma expression_app x op prec y :
  is_expression x -> precedence (type op) = Some prec -> is_expression y ->
  is_expression (x ++ op :: y).
Proof.
  intros Hx Hprec Hy. revert x Hx.
  apply (is_expression_mutual
           (fun _ => True)
           (fun x => is_expression (x ++ op :: y))
           (fun _ => True) (fun _ => True)); auto.
  - intros p Hp _. apply expression_binary with (prec := prec); assumption.
  - intros p op0 prec0 e Hp _ Hprec0 He IH. rewrite <- app_assoc. simpl.
    apply expression_binary with (prec := prec0); assumption.
Qed.

Lemma expression_chain_tail x c :
  is_expression x -> chain_tail c -> is_expression (x ++ c).
Proof.
  intros Hx [->|(op & prec & e & -> & Hprec & He)].
  - now rewrite app_nil_r.
  - apply expression_app with (prec := prec); assumption.
Qed.

Lemma methods_read_the_grammar fuel :
  (forall self, consistent self ->
     reads_only is_expression (parse_expression fuel) self) /\
  (forall self p, consistent self ->
     reads_only is_expression (parse_binary_expression fuel p) self) /\
  (forall self p l, consistent self ->
     reads_only chain_tail (binary_expression_while fuel p l) self) /\
  (forall self, consistent self ->
     reads_only is_primary (parse_primary fuel) self) /\
  (forall self f, consistent self -> current_token self = Some f ->
     is_function_name (type f) = true ->
     reads_only is_primary (_parse_function_call fuel f) self) /\
  (forall self args, consistent self ->
     reads_only is_more_arguments (arguments_while fuel args) self) /\
  (forall self lp, consistent self -> current_token self = Some lp ->
     type lp = LPAREN ->
     reads_only is_primary (_parse_parenthesized_expression fuel) self).
Proof.
  unfold reads_only.
  induction fuel as [|fuel (IHe & IHb & IHw & IHp & IHf & IHa & IHg)].
  { repeat split; intros; exact I. }
  repeat split.
  - intros self Hc. rewrite parse_expression_eq.
    invoke IHb; [ assumption | | ]; auto.
  - intros self p Hc. rewrite parse_binary_expression_eq.
    step. invoke IHp; [ assumption | | exact I ].
    destruct H as (w1 & H1 & P1).
    invoke IHw; [ eapply reads_consistent; eassumption | | exact I ].
    destruct H as (w2 & H2 & P2).
    exists (w1 ++ w2). split; [eapply reads_app; eassumption|].
    apply expression_chain_tail; [apply expression_primary|]; assumption.
  - intros self p l Hc. rewrite binary_expression_while_eq.
    assert (Hnone : exists w, reads w self self /\ chain_tail w).
    { exists []. split; [apply reads_nil; assumption | left; reflexivity]. }
    step; [|exact I].
    step; [|step; exact Hnone].
    step; [|step; exact Hnone].
    step. step.
    invoke IHb; [ apply consistent_advanced | | exact I ].
    destruct H0 as (w1 & H1 & P1).
    invoke IHw; [ eapply reads_consistent; eassumption | | exact I ].
    destruct H0 as (w2 & H2 & P2).
    exists ([t] ++ w1 ++ w2). split.
    + eapply reads_app; [apply reads_advanced; eassumption|].
      eapply reads_app; eassumption.
    + right. exists t, z, (w1 ++ w2). repeat split; auto.
      apply expression_chain_tail; assumption.
  - intros self Hc. rewrite parse_primary_eq.
    step; [|exact I].
    assert (Hleaf : forall n, leaf_node t = Some n ->
              exists w, reads w self (advanced self) /\ is_primary w).
    { intros n Hn. exists [t]. split; [apply reads_advanced; assumption|].
      apply primary_leaf with (n := n). assumption. }
    step; repeat step; try exact I.
    + apply (Hleaf (NumberNode p)). unfold leaf_node. rewrite Heqt0, Heqo.
      reflexivity.
    + apply (Hleaf (NumberNode p)). unfold leaf_node. rewrite Heqt0, Heqo.
      reflexivity.
    + apply (Hleaf (IdentifierNode (value t))). unfold leaf_node. rewrite Heqt0.
      reflexivity.
    + invoke IHp; [ apply consistent_advanced | | exact I ].
      destruct H0 as (w & Hr & Pw).
      exists ([t] ++ w). split.
      * eapply reads_app; [apply reads_advanced; eassumption | eassumption].
      * apply primary_plus; assumption.
    + invoke IHp; [ apply consistent_advanced | | exact I ].
      destruct H0 as (w & Hr & Pw). step.
      exists ([t] ++ w). split.
      * eapply reads_app; [apply reads_advanced; eassumption | eassumption].
      * apply primary_minus; assumption.
    + invoke (IHg self t); [ assumption | assumption | assumption | | ]; auto.
    + invoke (IHf self t); [ assumption | assumption | now rewrite Heqt0 | | ]; auto.
    + invoke (IHf self t); [ assumption | assumption | now rewrite Heqt0 | | ]; auto.
    + invoke (IHf self t); [ assumption | assumption | now rewrite Heqt0 | | ]; auto.
    + invoke (IHf self t); [ assumption | assumption | now rewrite Heqt0 | | ]; auto.
  - intros self f Hc Hf Hname. rewrite _parse_function_call_eq.
    step. step; [|exact I]. rename t into lp. step; [step; exact I|].
    step. step; [|exact I]. rename t into t0.
    step.
    assert (Hargs : forall (Q : list Node -> Parser -> Prop),
      (forall args s w, reads w (advanced (advanced self)) s -> is_arguments w ->
                        Q args s) ->
      post True
        (if negb (TokenType_eqb (type t0) RPAREN)
         then argument <- parse_expression fuel;; arguments_while fuel [argument]
         else ret []) (advanced (advanced self)) Q (fun _ _ => True)).
    { intros Q HQ. step.
      - step. invoke IHe; [ apply consistent_advanced | | exact I ].
        destruct H1 as (w1 & H1 & P1).
        invoke IHa; [ eapply reads_consistent; eassumption | | exact I ].
        destruct H2 as (w2 & H2 & P2).
        apply (HQ a0 s0 (w1 ++ w2)); [eapply reads_app; eassumption|].
        apply arguments_some; assumption.
      - step. apply (HQ [] _ []); [apply reads_nil, consistent_advanced|].
        apply arguments_none. }
    apply Hargs. intros args s w Hr Pw.
    step; [|exact I]. rename t into rp. step; [step; exact I|].
    step. step.
    exists ([f] ++ [lp] ++ w ++ [rp]). split.
    + eapply reads_app; [apply reads_advanced; eassumption|].
      eapply reads_app;
        [apply reads_advanced; [apply consistent_advanced | eassumption]|].
      eapply reads_app; [eassumption|].
      apply reads_advanced; [eapply reads_consistent; eassumption | assumption].
    + apply (@primary_call f lp w rp); auto.
      * apply TokenType_eqb_eq. now destruct (TokenType_eqb (type lp) LPAREN).
      * apply TokenType_eqb_eq. now destruct (TokenType_eqb (type rp) RPAREN).
  - intros self args Hc. rewrite arguments_while_eq.
    step; [|exact I].
    step.
    + step. step.
      invoke IHe; [ apply consistent_advanced | | exact I ].
      destruct H0 as (w1 & H1 & P1).
      invoke IHa; [ eapply reads_consistent; eassumption | | exact I ].
      destruct H0 as (w2 & H2 & P2).
      exists ([t] ++ w1 ++ w2). split.
      * eapply reads_app; [apply reads_advanced; eassumption|].
        eapply reads_app; eassumption.
      * apply (@more_arguments_comma t w1 w2); auto. now apply TokenType_eqb_eq.
    + step. exists []. split; [apply reads_nil; assumption|].
      apply more_arguments_none.
  - intros self lp Hc Hlp Tlp. rewrite _parse_parenthesized_expression_eq.
    step. step.
    invoke IHe; [ apply consistent_advanced | | exact I ].
    destruct H as (w & Hr & Pw).
    step; [|exact I]. rename t into rp. step; [step; exact I|].
    step. step.
    exists ([lp] ++ w ++ [rp]). split.
    + eapply reads_app; [apply reads_advanced; eassumption|].
      eapply reads_app; [eassumption|].
      apply reads_advanced; [eapply reads_consistent; eassumption | assumption].
    + apply (@primary_group lp w rp); auto.
      apply TokenType_eqb_eq. now destruct (TokenType_eqb (type rp) RPAREN).
Qed.

Lemma parse_returns_in_the_grammar toks v :
  parse_tokens toks = Returns (Some v) ->
  exists e eof rest n,
    toks = e ++ eof :: rest /\ is_expression e /\ type eof = EOF /\
    v = ProgramNode n.
Proof.
  unfold parse_tokens. rewrite Parser_init_tokens.
  destruct (parse (initial toks)) as [v' s|e s|] eqn:Hp; simpl; try discriminate.
  intros H. injection H as ->.
  assert (Hn : tokens (initial toks) <> []).
  { intros E. unfold parse in Hp. rewrite E in Hp. discriminate. }
  destruct (@parse_returns _ _ _ Hn Hp) as (x & eof & Hv & Hrun & Hcur & Heof).
  injection Hv as ->.
  destruct (methods_read_the_grammar (enough_fuel (initial toks))) as (He & _).
  specialize (He _ (initial_consistent toks)).
  unfold reads_only, post in He. rewrite Hrun in He.
  destruct He as (w & (Hc & Htok & Hw) & Pw). simpl in Htok, Hw.
  exists w, eof, (skipn (S (current_token_index s)) toks), x.
  repeat split; auto.
  rewrite Hw at 1. f_equal. rewrite <- Htok.
  apply skipn_at_current; assumption.
Qed.

Lemma only_EOF_ends e eof rest :
  ends_with_only_EOF (e ++ eof :: rest) = true -> type eof = EOF -> rest = [].
Proof.
  intros Hw Heof.
  assert (Hnth : nth_error (e ++ eof :: rest) (List.length e) = Some eof).
  { rewrite nth_error_app2, Nat.sub_diag by lia. reflexivity. }
  pose proof (@EOF_is_last _ _ _ Hw Hnth Heof) as Hlast.
  rewrite length_app in Hlast. simpl in Hlast.
  destruct rest; [reflexivity | simpl in Hlast; lia].
Qed.

(** X12: [parse] returns a tree exactly on the grammar
    [program ::= expression EOF] of the specification, where a number is an
    [INTEGER] or [FLOAT] token whose text [int()] or [float()] reads (for
    [int()], of at most [int_max_str_digits] digits): when it returns a
    tree, the tokens up to the one it stops on are an expression of the
    grammar, that token is [EOF], and the tree is a [Program]; every
    expression of the grammar followed by [EOF] gives a [Program]; so on a
    token list that ends with its only [EOF], [parse] returns if and only
    if the list is a program of the grammar, and raises otherwise.  (The
    recursion limit of the interpreter, which bounds the nesting of an
    expression, is not modelled.) *)
Theorem parse_returns_exactly_on_the_grammar :
  (forall toks v,
     parse_tokens toks = Returns (Some v) ->
     exists e eof rest n,
       toks = e ++ eof :: rest /\ is_expression e /\ type eof = EOF /\
       v = ProgramNode n) /\
  (forall e eof rest,
     is_expression e -> type eof = EOF ->
     exists n, parse_tokens (e ++ eof :: rest) = Returns (Some (ProgramNode n))) /\
  (forall toks,
     ends_with_only_EOF toks = true ->
     ((exists v, parse_tokens toks = Returns v) <-> is_program toks) /\
     (~ is_program toks -> exists e, parse_tokens toks = Raises e)).
Proof.
  split; [exact parse_returns_in_the_grammar|]. split.
  - intros e eof rest He Heof.
    destruct (is_expression_node e He) as (n & Hn).
    exists n. apply expression_node_parse; assumption.
  - intros toks Hw.
    assert (Hiff : (exists v, parse_tokens toks = Returns v) -> is_program toks).
    { intros (v & Hv).
      assert (Hsome : exists ast, v = Some ast).
      { pose proof (parse_stays_on_a_token toks Hw) as H.
        unfold parse_tokens in Hv. rewrite Parser_init_tokens in Hv.
        destruct (parse (initial toks)) as [v' s|e s|]; simpl in Hv;
          try discriminate.
        injection Hv as ->. destruct H as ((x & ->) & _). eauto. }
      destruct Hsome as (ast & ->).
      destruct (parse_returns_in_the_grammar toks ast Hv)
        as (e & eof & rest & n & -> & He & Heof & _).
      rewrite (only_EOF_ends e eof rest Hw Heof).
      exists e, eof. auto. }
    split; [split; [exact Hiff|]|].
    + intros Hprog. destruct (is_program_accepted toks Hprog) as (x & Hx). eauto.
    + intros Hnot. pose proof (parse_tokens_terminates toks) as Hterm.
      destruct (parse_tokens toks) as [v|e|] eqn:Hp.
      * exfalso. apply Hnot, Hiff. eauto.
      * eauto.
      * congruence.
Qed.

Lemma parse_returns_exactly_on_the_grammar_witness :
  let two := mkToken INTEGER "2" 0 in
  let plus := mkToken PLUS "+" 1 in
  let x := mkToken IDENTIFIER "x" 2 in
  let eof := mkToken EOF "" 3 in
  (exists e eof' rest n,
     [two; plus; x; eof] = e ++ eof' :: rest /\ is_expression e /\
     type eof' = EOF /\
     ProgramNode (BinaryOpNode (NumberNode (PyInt 2)) "+" (IdentifierNode "x")) =
     ProgramNode n) /\
  (exists n, parse_tokens ([x] ++ eof :: [two]) = Returns (Some (ProgramNode n))) /\
  is_program [two; plus; x; eof] /\
  (exists v, parse_tokens [x; eof] = Returns v) /\
  (exists e, parse_tokens [eof] = Raises e).
Proof.
  intros two plus x eof.
  destruct parse_returns_exactly_on_the_grammar as (Hsound & Hcomplete & Hiff).
  assert (Hx : is_expression [x]).
  { apply expression_primary, (@primary_leaf x (IdentifierNode "x")). reflexivity. }
  split; [|split; [|split; [|split]]].
  - apply (Hsound [two; plus; x; eof]). reflexivity.
  - apply (Hcomplete [x] eof [two]); [exact Hx | reflexivity].
  - apply (proj1 (proj1 (Hiff [two; plus; x; eof] eq_refl))).
    eexists. reflexivity.
  - apply (proj2 (proj1 (Hiff [x; eof] eq_refl))).
    exists [x], eof. split; [reflexivity|]. split; [exact Hx | reflexivity].
  - apply (proj2 (Hiff [eof] eq_refl)).
    intros (e & eof' & E & He & _).
    destruct (is_expression_head _ He) as (t & r & -> & _).
    destruct r; discriminate E.
Defined.

(** ** [get_precedence] *)

Lemma get_precedence_Some ty :
  (0 < get_precedence ty)%Z -> precedence ty = Some (get_precedence ty).
Proof.
  unfold get_precedence. destruct (precedence ty); [reflexivity | lia].
Qed.

(** X13: [get_precedence], which the parsing methods do not call, gives 0
    on every token type outside the table and the table's 1, 2 or 3 on the
    five operators, and it orders the operators as the parser groups them,
    but for [^] on the left: between three primaries an operator of higher
    [get_precedence] than the one before it goes into the right operand of
    that one, and an operator of equal or lower [get_precedence] takes the
    operation before it as its left operand unless the operator before it
    is [^]. *)
Theorem get_precedence_orders_the_operators :
  (forall ty, get_precedence ty = 0%Z <-> precedence ty = None) /\
  (forall ty, (0 <= get_precedence ty <= 3)%Z) /\
  (forall a na op1 b nb op2 c nc eof,
     primary_node a na -> primary_node b nb -> primary_node c nc ->
     (0 < get_precedence (type op1))%Z ->
     (get_precedence (type op1) < get_precedence (type op2))%Z ->
     type eof = EOF ->
     parse_tokens (a ++ op1 :: b ++ op2 :: c ++ [eof]) =
     Returns (Some (ProgramNode
       (BinaryOpNode na (value op1) (BinaryOpNode nb (value op2) nc))))) /\
  (forall a na op1 b nb op2 c nc eof,
     primary_node a na -> primary_node b nb -> primary_node c nc ->
     (0 < get_precedence (type op2))%Z ->
     (get_precedence (type op2) <= get_precedence (type op1))%Z ->
     type op1 <> POWER ->
     type eof = EOF ->
     parse_tokens (a ++ op1 :: b ++ op2 :: c ++ [eof]) =
     Returns (Some (ProgramNode
       (BinaryOpNode (BinaryOpNode na (value op1) nb) (value op2) nc)))).
Proof.
  split; [|split; [|split]].
  - intros ty. unfold get_precedence.
    destruct (precedence ty) as [p|] eqn:E.
    + apply precedence_positive in E. split; [lia | discriminate].
    + split; reflexivity.
  - intros ty. destruct ty; unfold get_precedence; simpl; lia.
  - intros a na op1 b nb op2 c nc eof Ha Hb Hc H1 H2 Heof.
    pose proof (get_precedence_Some _ H1) as P1.
    pose proof (get_precedence_Some (type op2) ltac:(lia)) as P2.
    replace (a ++ op1 :: b ++ op2 :: c ++ [eof])
      with ((a ++ op1 :: b ++ op2 :: c) ++ [eof]) by same_tokens.
    apply expression_node_parse; [|assumption].
    pose proof (two_operators_node a na op1 _ b nb op2 _ c nc Ha Hb Hc P1 P2) as H.
    replace (next_min_precedence op1 (get_precedence (type op1))
             <=? get_precedence (type op2))%Z with true in H; [exact H|].
    symmetry. apply Z.leb_le. unfold next_min_precedence.
    destruct (TokenType_eqb (type op1) POWER); lia.
  - intros a na op1 b nb op2 c nc eof Ha Hb Hc H2 H1 Hpow Heof.
    pose proof (get_precedence_Some (type op1) ltac:(lia)) as P1.
    pose proof (get_precedence_Some _ H2) as P2.
    replace (a ++ op1 :: b ++ op2 :: c ++ [eof])
      with ((a ++ op1 :: b ++ op2 :: c) ++ [eof]) by same_tokens.
    apply expression_node_parse; [|assumption].
    pose proof (two_operators_node a na op1 _ b nb op2 _ c nc Ha Hb Hc P1 P2) as H.
    replace (next_min_precedence op1 (get_precedence (type op1))
             <=? get_precedence (type op2))%Z with false in H; [exact H|].
    symmetry. apply Z.leb_gt. unfold next_min_precedence.
    apply TokenType_eqb_neq in Hpow. rewrite Hpow. lia.
Qed.

Lemma get_precedence_orders_the_operators_witness :
  let a := mkToken IDENTIFIER "a" 0 in
  let b := mkToken IDENTIFIER "b" 2 in
  let c := mkToken IDENTIFIER "c" 4 in
  let minus := mkToken MINUS "-" 1 in
  let divide := mkToken DIVIDE "/" 3 in
  let eof := mkToken EOF "" 5 in
  parse_tokens [a; minus; b; divide; c; eof] =
    Returns (Some (ProgramNode
      (BinaryOpNode (IdentifierNode "a") "-"
         (BinaryOpNode (IdentifierNode "b") "/" (IdentifierNode "c"))))) /\
  parse_tokens [a; divide; b; minus; c; eof] =
    Returns (Some (ProgramNode
      (BinaryOpNode (BinaryOpNode (IdentifierNode "a") "/" (IdentifierNode "b"))
         "-" (IdentifierNode "c")))).
Proof.
  intros a b c minus divide eof.
  destruct get_precedence_orders_the_operators as (_ & _ & Hright & Hleft).
  split.
  - apply (Hright [a] (IdentifierNode "a") minus [b] (IdentifierNode "b")
             divide [c] (IdentifierNode "c") eof);
      [ apply leaf_primary_node; reflexivity
      | apply leaf_primary_node; reflexivity
      | apply leaf_primary_node; reflexivity
      | reflexivity | reflexivity | reflexivity ].
  - apply (Hleft [a] (IdentifierNode "a") divide [b] (IdentifierNode "b")
             minus [c] (IdentifierNode "c") eof);
      [ apply leaf_primary_node; reflexivity
      | apply leaf_primary_node; reflexivity
      | apply leaf_primary_node; reflexivity
      | reflexivity | discriminate | discriminate | reflexivity ].
Defined.

(** ** The same tokens at other positions *)

Lemma same_text_nth (l l' : list Token) :
  Forall2 same_text l l' ->
  forall i,
    match nth_error l i, nth_error l' i with
    | Some t, Some t' => same_text t t'
    | None, None => True
    | _, _ => False
    end.
Proof.
  induction 1 as [|t t' l l' Ht _ IH]; intros [|i]; simpl; auto. apply IH.
Qed.

Lemma repositioned_current s s' :
  repositioned s s' ->
  match current_token s, current_token s' with
  | Some t, Some t' => same_text t t'
  | None, None => True
  | _, _ => False
  end.
Proof.
  intros (Hc & Hc' & Htok & Hi). unfold consistent in *.
  rewrite Hc, Hc', Hi. apply same_text_nth, Htok.
Qed.

Lemma repositioned_advanced s s' :
  repositioned s s' -> repositioned (advanced s) (advanced s').
Proof.
  intros (Hc & Hc' & Htok & Hi). repeat split; simpl; auto.
Qed.

Lemma number_value_same_text t t' : same_text t t' -> number_value t' = number_value t.
Proof. intros (Hty & Hv). unfold number_value. now rewrite Hty, Hv. Qed.

Lemma same_outcome_bind {A B} (RA : A -> A -> Prop) (RB : B -> B -> Prop)
    (m m' : M A) (k k' : A -> M B) s s' :
  same_outcome RA (m s) (m' s') ->
  (forall a a' s1 s1', RA a a' -> repositioned s1 s1' ->
     same_outcome RB (k a s1) (k' a' s1')) ->
  same_outcome RB (bind m k s) (bind m' k' s').
Proof.
  unfold bind. intros Hm Hk.
  destruct (m s) as [a s1|e s1|], (m' s') as [a' s1'|e' s1'|]; simpl in *;
    try contradiction; auto.
  destruct Hm. apply Hk; assumption.
Qed.

Lemma same_outcome_attr {A} (R : A -> A -> Prop) (k k' : Token -> M A) s s' :
  repositioned s s' ->
  (forall t t', current_token s = Some t -> current_token s' = Some t' ->
     type t' = type t -> value t' = value t ->
     same_outcome R (k t s) (k' t' s')) ->
  same_outcome R (bind attr_current_token k s) (bind attr_current_token k' s').
Proof.
  intros H Hk. pose proof (repositioned_current s s' H) as Hcur.
  unfold bind, attr_current_token.
  destruct (current_token s) as [t|] eqn:Ht, (current_token s') as [t'|] eqn:Ht';
    try contradiction.
  - destruct Hcur. apply Hk; auto.
  - simpl. auto.
Qed.

Lemma same_outcome_SyntaxError {A} (R : A -> A -> Prop) m m' t t' s s' :
  repositioned s s' -> current_token s = Some t -> current_token s' = Some t' ->
  same_message m m' ->
  same_outcome R (raise (SyntaxError m (position t)) s)
    (raise (SyntaxError m' (position t')) s').
Proof.
  intros H Ht Ht' Hm. simpl. split; [|assumption]. split; [assumption|].
  exists t, t'. auto.
Qed.

Ltac reposition :=
  repeat first
    [ assumption
    | rewrite !bind_advance
    | apply repositioned_advanced
    | match goal with
      | |- same_outcome _ (bind attr_current_token _ _) (bind attr_current_token _ _) =>
          apply same_outcome_attr;
          [ | let E1 := fresh "Ety" in let E2 := fresh "Eval" in
              intros ? ? ? ? E1 E2; rewrite ?E1, ?E2 ]
      | |- same_outcome _ (ret _ _) (ret _ _) => split; [reflexivity|]
      | |- same_outcome _ (raise (ValueError _) _) (raise (ValueError _) _) =>
          split; [reflexivity|]
      | |- same_outcome _ (raise (SyntaxError _ _) _) (raise (SyntaxError _ _) _) =>
          eapply same_outcome_SyntaxError;
          [ | eassumption | eassumption | simpl; auto; split; congruence ]
      | |- same_outcome _ ((if ?b then _ else _) _) _ => destruct b eqn:?
      | |- same_outcome _ ((match ?x with _ => _ end) _) _ => destruct x eqn:?
      | H : forall s s', repositioned s s' -> same_outcome _ (?f ?fuel s) _
        |- same_outcome _ (?f ?fuel _) _ => apply H
      | H : forall p s s', repositioned s s' -> same_outcome _ (?f ?fuel p s) _
        |- same_outcome _ (?f ?fuel _ _) _ => apply H
      | H : forall p l s s', repositioned s s' -> same_outcome _ (?f ?fuel p l s) _
        |- same_outcome _ (?f ?fuel _ _ _) _ => apply H
      | H : forall f f' s s', _ -> _ -> repositioned s s' ->
                              same_outcome _ (_parse_function_call ?fuel f s) _
        |- same_outcome _ (_parse_function_call ?fuel _ _) _ => apply H
      | |- same_outcome _ (bind _ _ _) (bind _ _ _) =>
          apply same_outcome_bind with (RA := eq); [ | intros ? ? ? ? <- ? ]
      end ].

Lemma methods_reposition fuel :
  (forall s s', repositioned s s' ->
     same_outcome eq (parse_expression fuel s) (parse_expression fuel s')) /\
  (forall p s s', repositioned s s' ->
     same_outcome eq (parse_binary_expression fuel p s)
       (parse_binary_expression fuel p s')) /\
  (forall p l s s', repositioned s s' ->
     same_outcome eq (binary_expression_while fuel p l s)
       (binary_expression_while fuel p l s')) /\
  (forall s s', repositioned s s' ->
     same_outcome eq (parse_primary fuel s) (parse_primary fuel s')) /\
  (forall f f' s s', type f' = type f -> value f' = value f -> repositioned s s' ->
     same_outcome eq (_parse_function_call fuel f s)
       (_parse_function_call fuel f' s')) /\
  (forall args s s', repositioned s s' ->
     same_outcome eq (arguments_while fuel args s) (arguments_while fuel args s')) /\
  (forall s s', repositioned s s' ->
     same_outcome eq (_parse_parenthesized_expression fuel s)
       (_parse_parenthesized_expression fuel s')).
Proof.
  induction fuel as [|fuel (IHe & IHb & IHw & IHp & IHf & IHa & IHg)].
  { repeat split; intros; exact I. }
  repeat split.
  - intros s s' H. rewrite !parse_expression_eq. reposition.
  - intros p s s' H. rewrite !parse_binary_expression_eq. reposition.
  - intros p l s s' H. rewrite !binary_expression_while_eq. reposition.
  - intros s s' H. rewrite !parse_primary_eq.
    apply same_outcome_attr; [assumption|].
    intros t t' Ht Ht' Ety Eval.
    rewrite Ety, Eval, (number_value_same_text t t') by (split; congruence).
    reposition; congruence.
  - intros f f' s s' Hty Hval H. rewrite !_parse_function_call_eq, Hval. reposition.
  - intros args s s' H. rewrite !arguments_while_eq. reposition.
  - intros s s' H. rewrite !_parse_parenthesized_expression_eq. reposition.
Qed.

Lemma parse_repositioned toks toks' :
  Forall2 same_text toks toks' ->
  same_outcome eq (parse (initial toks)) (parse (initial toks')).
Proof.
  intros H.
  assert (Hinit : repositioned (initial toks) (initial toks')).
  { repeat split. exact H. }
  assert (Hfuel : enough_fuel (initial toks') = enough_fuel (initial toks)).
  { unfold enough_fuel. simpl. now rewrite (Forall2_length H). }
  unfold parse. rewrite Hfuel. simpl tokens.
  destruct H as [|t t' l l' Ht Hl].
  { split; [reflexivity | assumption]. }
  destruct (methods_reposition (enough_fuel (initial (t :: l)))) as (IHe & _).
  unfold parse_program. reposition.
Qed.

Lemma parse_raises_on_its_tokens toks e s :
  parse (initial toks) = Raise e s -> consistent s /\ tokens s = toks.
Proof.
  assert (Hw : within (initial toks)).
  { split; [apply initial_consistent | simpl; lia]. }
  pose proof (parse_program_passes _ Hw) as Hprog.
  unfold one_pass, post in Hprog.
  unfold parse. simpl tokens. destruct toks as [|t0 ts0]; [discriminate|].
  unfold bind, attr_current_token, ret, raise in *.
  destruct (parse_program _ _) as [ast s1|e1 s1|]; try discriminate.
  - destruct (current_token s1); [destruct (negb _)|]; intros E; inversion E;
      subst; split; apply Hprog.
  - intros E; inversion E; subst; split; apply Hprog.
Qed.

(** X14: the parser reads the position of a token only to report an error:
    two token lists with the same types and values, token by token, give
    the same tree; when one gives a [SyntaxError], the other gives the
    [SyntaxError] with the same message, each with the position of its own
    token at one and the same index; and any other exception is the same
    for both. *)
Theorem positions_only_show_in_errors :
  forall toks toks',
    Forall2 same_text toks toks' ->
    (forall v, parse_tokens toks = Returns v -> parse_tokens toks' = Returns v) /\
    (forall m p,
       parse_tokens toks = Raises (SyntaxError m p) ->
       exists m' p' i t t',
         parse_tokens toks' = Raises (SyntaxError m' p') /\ same_message m m' /\
         nth_error toks i = Some t /\ nth_error toks' i = Some t' /\
         p = position t /\ p' = position t') /\
    (forall e,
       (forall m p, e <> SyntaxError m p) ->
       parse_tokens toks = Raises e -> parse_tokens toks' = Raises e).
Proof.
  intros toks toks' H.
  pose proof (parse_repositioned toks toks' H) as Hsame.
  pose proof (parse_raises_on_its_tokens toks) as Hkeep.
  pose proof (parse_raises_on_its_tokens toks') as Hkeep'.
  unfold parse_tokens. rewrite !Parser_init_tokens.
  destruct (parse (initial toks)) as [v s|e s|],
           (parse (initial toks')) as [v' s'|e' s'|];
    simpl in *; try contradiction;
    (split; [|split]); try discriminate.
  - intros v0 E. injection E as <-. destruct Hsame as (-> & _). reflexivity.
  - intros m p E. injection E as ->.
    destruct Hsame as (He & _ & _ & _ & Hi).
    destruct e' as [m' p'| | |]; simpl in He; try contradiction.
    destruct He as (Hm & t & t' & Ht & Ht' & -> & ->).
    destruct (Hkeep _ _ eq_refl) as (Hc & Htok).
    destruct (Hkeep' _ _ eq_refl) as (Hc' & Htok').
    unfold consistent in Hc, Hc'. rewrite Ht, Htok in Hc. rewrite Ht', Htok', Hi in Hc'.
    exists m', (position t'), (current_token_index s), t, t'.
    repeat split; auto.
  - intros e0 Hno E. injection E as ->. destruct Hsame as (He & _).
    destruct e0 as [m p| | |]; [exfalso; exact (Hno m p eq_refl)| | |];
      destruct e'; simpl in He; try contradiction; congruence.
Qed.

Lemma positions_only_show_in_errors_witness :
  let toks :=
    [mkToken INTEGER "2" 0; mkToken PLUS "+" 1; mkToken IDENTIFIER "x" 2;
     mkToken EOF "" 3] in
  let toks' :=
    [mkToken INTEGER "2" 10; mkToken PLUS "+" 20; mkToken IDENTIFIER "x" 30;
     mkToken EOF "" 40] in
  let bad := [mkToken INTEGER "2" 0; mkToken RPAREN ")" 1; mkToken EOF "" 2] in
  let bad' := [mkToken INTEGER "2" 5; mkToken RPAREN ")" 7; mkToken EOF "" 9] in
  parse_tokens toks' =
    Returns (Some (ProgramNode
      (BinaryOpNode (NumberNode (PyInt 2)) "+" (IdentifierNode "x")))) /\
  (exists m' p' i t t',
     parse_tokens bad' = Raises (SyntaxError m' p') /\
     same_message (UnexpectedToken (mkToken RPAREN ")" 1)) m' /\
     nth_error bad i = Some t /\ nth_error bad' i = Some t' /\
     1%Z = position t /\ p' = position t').
Proof.
  intros toks toks' bad bad'.
  split.
  - assert (H : Forall2 same_text toks toks').
    { apply Forall2_cons; [split; reflexivity|].
      apply Forall2_cons; [split; reflexivity|].
      apply Forall2_cons; [split; reflexivity|].
      apply Forall2_cons; [split; reflexivity|]. apply Forall2_nil. }
    apply (proj1 (positions_only_show_in_errors toks toks' H)). reflexivity.
  - assert (H : Forall2 same_text bad bad').
    { apply Forall2_cons; [split; reflexivity|].
      apply Forall2_cons; [split; reflexivity|].
      apply Forall2_cons; [split; reflexivity|]. apply Forall2_nil. }
    apply (proj1 (proj2 (positions_only_show_in_errors bad bad' H))). reflexivity.
Defined.

(** ** The operands of a tree, from left to right *)

Lemma fringe_call name arguments :
  fringe (FunctionCallNode name arguments) = fringe_list arguments.
Proof.
  induction arguments as [|a ns IH]; [reflexivity|].
  simpl in *. now rewrite IH.
Qed.

Lemma operands_app a b : operands (a ++ b) = operands a ++ operands b.
Proof. apply flat_map_app. Qed.

Lemma operands_leaf t n : leaf_node t = Some n -> operands [t] = [n].
Proof. intros H. unfold operands. simpl. now rewrite H. Qed.

Lemma operands_other t : leaf_node t = None -> operands [t] = [].
Proof. intros H. unfold operands. simpl. now rewrite H. Qed.

Lemma operands_type t ty :
  type t = ty -> is_leaf_token (mkToken ty "" 0) = false -> operands [t] = [].
Proof.
  intros <- H. apply operands_other. unfold leaf_node.
  unfold is_leaf_token in H. simpl in H. destruct (type t); try discriminate H;
    reflexivity.
Qed.

Lemma operands_operator t z : precedence (type t) = Some z -> operands [t] = [].
Proof.
  intros H. apply operands_other. unfold leaf_node.
  destruct (type t); try discriminate H; reflexivity.
Qed.

Lemma operands_function t : is_function_name (type t) = true -> operands [t] = [].
Proof.
  intros H. apply operands_other. unfold leaf_node.
  destruct (type t); try discriminate H; reflexivity.
Qed.

Lemma methods_keep_order fuel :
  (forall self, consistent self -> keeps_order [] (parse_expression fuel) self) /\
  (forall self p, consistent self ->
     keeps_order [] (parse_binary_expression fuel p) self) /\
  (forall self p l, consistent self ->
     keeps_order (fringe l) (binary_expression_while fuel p l) self) /\
  (forall self, consistent self -> keeps_order [] (parse_primary fuel) self) /\
  (forall self f, consistent self -> current_token self = Some f ->
     is_function_name (type f) = true ->
     keeps_order [] (_parse_function_call fuel f) self) /\
  (forall self args, consistent self ->
     post True (arguments_while fuel args) self
       (fun args' s =>
          exists w, reads w self s /\
                    fringe_list args' = fringe_list args ++ operands w)
       (fun _ _ => True)) /\
  (forall self lp, consistent self -> current_token self = Some lp ->
     type lp = LPAREN ->
     keeps_order [] (_parse_parenthesized_expression fuel) self).
Proof.
  unfold keeps_order.
  induction fuel as [|fuel (IHe & IHb & IHw & IHp & IHf & IHa & IHg)].
  { repeat split; intros; exact I. }
  repeat split.
  - intros self Hc. rewrite parse_expression_eq.
    invoke IHb; [ assumption | | ]; auto.
  - intros self p Hc. rewrite parse_binary_expression_eq.
    step. invoke IHp; [ assumption | | exact I ].
    destruct H as (w1 & H1 & F1).
    invoke IHw; [ eapply reads_consistent; eassumption | | exact I ].
    destruct H as (w2 & H2 & F2).
    exists (w1 ++ w2). split; [eapply reads_app; eassumption|].
    rewrite F2, F1, operands_app. reflexivity.
  - intros self p l Hc. rewrite binary_expression_while_eq.
    assert (Hnone : exists w, reads w self self /\ fringe l = fringe l ++ operands w).
    { exists []. split; [apply reads_nil; assumption|].
      simpl. now rewrite app_nil_r. }
    step; [|exact I].
    step; [|step; exact Hnone].
    step; [|step; exact Hnone].
    step. step.
    invoke IHb; [ apply consistent_advanced | | exact I ].
    destruct H0 as (w1 & H1 & F1).
    invoke IHw; [ eapply reads_consistent; eassumption | | exact I ].
    destruct H0 as (w2 & H2 & F2).
    exists ([t] ++ w1 ++ w2). split.
    + eapply reads_app; [apply reads_advanced; eassumption|].
      eapply reads_app; eassumption.
    + rewrite F2. simpl fringe. rewrite F1.
      rewrite !operands_app, (operands_operator t z) by assumption.
      simpl. now rewrite app_assoc.
  - intros self Hc. rewrite parse_primary_eq.
    step; [|exact I].
    assert (Hleaf : forall n, leaf_node t = Some n -> fringe n = [n] ->
              exists w, reads w self (advanced self) /\ fringe n = [] ++ operands w).
    { intros n Hn Hf. exists [t]. split; [apply reads_advanced; assumption|].
      rewrite (operands_leaf t n Hn). exact Hf. }
    assert (Hsign : forall a s,
              type t = PLUS \/ type t = MINUS ->
              (exists w, reads w (advanced self) s /\ fringe a = [] ++ operands w) ->
              exists w, reads w self s /\ fringe a = [] ++ operands w).
    { intros a s Hty (w & Hr & Fw). exists ([t] ++ w). split.
      - eapply reads_app; [apply reads_advanced; eassumption | eassumption].
      - rewrite Fw, operands_app, (operands_operator t 1%Z); [reflexivity|].
        destruct Hty as [-> | ->]; reflexivity. }
    step; repeat step; try exact I.
    + apply (Hleaf (NumberNode p)); [|reflexivity].
      unfold leaf_node. rewrite Heqt0, Heqo. reflexivity.
    + apply (Hleaf (NumberNode p)); [|reflexivity].
      unfold leaf_node. rewrite Heqt0, Heqo. reflexivity.
    + apply (Hleaf (IdentifierNode (value t))); [|reflexivity].
      unfold leaf_node. rewrite Heqt0. reflexivity.
    + invoke IHp; [ apply consistent_advanced | | exact I ].
      apply Hsign; auto.
    + invoke IHp; [ apply consistent_advanced | | exact I ].
      step. apply (Hsign (UnaryOpNode "-" a) s); auto.
    + invoke (IHg self t); [ assumption | assumption | assumption | | ]; auto.
    + invoke (IHf self t); [ assumption | assumption | now rewrite Heqt0 | | ]; auto.
    + invoke (IHf self t); [ assumption | assumption | now rewrite Heqt0 | | ]; auto.
    + invoke (IHf self t); [ assumption | assumption | now rewrite Heqt0 | | ]; auto.
    + invoke (IHf self t); [ assumption | assumption | now rewrite Heqt0 | | ]; auto.
  - intros self f Hc Hf Hname. rewrite _parse_function_call_eq.
    step. step; [|exact I]. rename t into lp. step; [step; exact I|].
    step. step; [|exact I]. rename t into t0.
    step.
    assert (Hargs : forall (Q : list Node -> Parser -> Prop),
      (forall args s w, reads w (advanced (advanced self)) s ->
                        fringe_list args = operands w -> Q args s) ->
      post True
        (if negb (TokenType_eqb (type t0) RPAREN)
         then argument <- parse_expression fuel;; arguments_while fuel [argument]
         else ret []) (advanced (advanced self)) Q (fun _ _ => True)).
    { intros Q HQ. step.
      - step. invoke IHe; [ apply consistent_advanced | | exact I ].
        destruct H1 as (w1 & H1 & F1).
        invoke IHa; [ eapply reads_consistent; eassumption | | exact I ].
        destruct H2 as (w2 & H2 & F2).
        apply (HQ a0 s0 (w1 ++ w2)); [eapply reads_app; eassumption|].
        rewrite F2, operands_app. unfold fringe_list at 1. simpl.
        rewrite app_nil_r, F1. reflexivity.
      - step. apply (HQ [] _ []); [apply reads_nil, consistent_advanced|].
        reflexivity. }
    apply Hargs. intros args s w Hr Fw.
    step; [|exact I]. rename t into rp. step; [step; exact I|].
    step. step.
    exists ([f] ++ [lp] ++ w ++ [rp]). split.
    + eapply reads_app; [apply reads_advanced; eassumption|].
      eapply reads_app;
        [apply reads_advanced; [apply consistent_advanced | eassumption]|].
      eapply reads_app; [eassumption|].
      apply reads_advanced; [eapply reads_consistent; eassumption | assumption].
    + rewrite fringe_call, Fw, !operands_app.
      rewrite (operands_function f Hname).
      rewrite (operands_type lp LPAREN), (operands_type rp RPAREN);
        [ simpl; now rewrite app_nil_r | | reflexivity | | reflexivity ].
      * apply TokenType_eqb_eq. now destruct (TokenType_eqb (type rp) RPAREN).
      * apply TokenType_eqb_eq. now destruct (TokenType_eqb (type lp) LPAREN).
  - intros self args Hc. rewrite arguments_while_eq.
    step; [|exact I].
    step.
    + step. step.
      invoke IHe; [ apply consistent_advanced | | exact I ].
      destruct H0 as (w1 & H1 & F1).
      invoke IHa; [ eapply reads_consistent; eassumption | | exact I ].
      destruct H0 as (w2 & H2 & F2).
      exists ([t] ++ w1 ++ w2). split.
      * eapply reads_app; [apply reads_advanced; eassumption|].
        eapply reads_app; eassumption.
      * rewrite F2, !operands_app, (operands_type t COMMA)
          by first [now apply TokenType_eqb_eq | reflexivity].
        unfold fringe_list. rewrite flat_map_app. simpl. rewrite F1. simpl.
        rewrite ?app_nil_r, <- ?app_assoc. reflexivity.
    + step. exists []. split; [apply reads_nil; assumption|].
      simpl. now rewrite app_nil_r.
  - intros self lp Hc Hlp Tlp. rewrite _parse_parenthesized_expression_eq.
    step. step.
    invoke IHe; [ apply consistent_advanced | | exact I ].
    destruct H as (w & Hr & Fw).
    step; [|exact I]. rename t into rp. step; [step; exact I|].
    step. step.
    exists ([lp] ++ w ++ [rp]). split.
    + eapply reads_app; [apply reads_advanced; eassumption|].
      eapply reads_app; [eassumption|].
      apply reads_advanced; [eapply reads_consistent; eassumption | assumption].
    + rewrite Fw, !operands_app.
      rewrite (operands_type lp LPAREN), (operands_type rp RPAREN);
        [ simpl; now rewrite app_nil_r | | reflexivity | assumption | reflexivity ].
      apply TokenType_eqb_eq. now destruct (TokenType_eqb (type rp) RPAREN).
Qed.

Lemma parse_keeps_order toks v :
  parse_tokens toks = Returns (Some v) ->
  exists e eof rest,
    toks = e ++ eof :: rest /\ type eof = EOF /\ fringe v = operands e.
Proof.
  unfold parse_tokens. rewrite Parser_init_tokens.
  destruct (parse (initial toks)) as [v' s|e s|] eqn:Hp; simpl; try discriminate.
  intros H. injection H as ->.
  assert (Hn : tokens (initial toks) <> []).
  { intros E. unfold parse in Hp. rewrite E in Hp. discriminate. }
  destruct (@parse_returns _ _ _ Hn Hp) as (x & eof & Hv & Hrun & Hcur & Heof).
  injection Hv as ->.
  destruct (methods_keep_order (enough_fuel (initial toks))) as (He & _).
  specialize (He _ (initial_consistent toks)).
  unfold keeps_order, post in He. rewrite Hrun in He.
  destruct He as (w & (Hc & Htok & Hw) & Fw). simpl in Htok, Hw.
  exists w, eof, (skipn (S (current_token_index s)) toks).
  repeat split; auto.
  rewrite Hw at 1. f_equal. rewrite <- Htok.
  apply skipn_at_current; assumption.
Qed.

(** X15: the parser neither drops nor reorders operands: the [NumberNode]
    and [IdentifierNode] nodes of the tree [parse] returns, read from left
    to right, are the nodes of the [INTEGER], [FLOAT] and [IDENTIFIER]
    tokens before the [EOF] it stops on, in the order of the tokens; on a
    token list that ends with its only [EOF], of all its tokens. *)
Theorem operands_keep_the_order_of_the_tokens :
  (forall toks v,
     parse_tokens toks = Returns (Some v) ->
     exists e eof rest,
       toks = e ++ eof :: rest /\ type eof = EOF /\ fringe v = operands e) /\
  (forall toks v,
     ends_with_only_EOF toks = true ->
     parse_tokens toks = Returns (Some v) ->
     fringe v = operands toks).
Proof.
  split; [exact parse_keeps_order|].
  intros toks v Hw Hv.
  destruct (parse_keeps_order toks v Hv) as (e & eof & rest & -> & Heof & ->).
  rewrite (only_EOF_ends e eof rest Hw Heof), operands_app.
  rewrite (operands_type eof EOF Heof eq_refl), app_nil_r. reflexivity.
Qed.

Lemma operands_keep_the_order_of_the_tokens_witness :
  let sin := mkToken SIN "sin" 0 in
  let lp := mkToken LPAREN "(" 3 in
  let minus := mkToken MINUS "-" 4 in
  let x := mkToken IDENTIFIER "x" 5 in
  let comma := mkToken COMMA "," 6 in
  let two := mkToken INTEGER "2" 8 in
  let times := mkToken MULTIPLY "*" 10 in
  let half := mkToken FLOAT "0.5" 12 in
  let rp := mkToken RPAREN ")" 15 in
  let eof := mkToken EOF "" 16 in
  let toks := [sin; lp; minus; x; comma; two; times; half; rp; eof] in
  let tree :=
    ProgramNode
      (FunctionCallNode "sin"
         [UnaryOpNode "-" (IdentifierNode "x");
          BinaryOpNode (NumberNode (PyInt 2)) "*" (NumberNode (PyFloat "0.5"))]) in
  parse_tokens toks = Returns (Some tree) /\
  fringe tree =
    [IdentifierNode "x"; NumberNode (PyInt 2); NumberNode (PyFloat "0.5")] /\
  (exists e eof' rest,
     toks = e ++ eof' :: rest /\ type eof' = EOF /\ fringe tree = operands e).
Proof.
  intros sin lp minus x comma two times half rp eof toks tree.
  destruct operands_keep_the_order_of_the_tokens as (Hstop & Hall).
  assert (Hp : parse_tokens toks = Returns (Some tree)) by reflexivity.
  split; [exact Hp|]. split.
  - exact (Hall toks tree eq_refl Hp).
  - exact (Hstop toks tree Hp).
Defined.
